(** * RLC circuit simulator: the simulation engine and its specification

    A shallow embedding of the numerical core of the simulator

    - [simulation/numericalSolver.js]   (fixed-step RK4 integrator),
    - [simulation/stateSpaceModels.js]  (excitation, derivative functions, model table),
    - [simulation/solver.js]            (frequency sweep, pole analyzer, router),
    - [simulation/metrics.js]           (transient metrics),
    - [circuitDefinitions.js]           (the table of topologies),

    followed by the properties the specification states about them.

    Numbers.  A JavaScript number is modelled by [num]: a real number, one of
    the two infinities, or NaN.  Arithmetic on finite values is exact real
    arithmetic (no rounding, no overflow); the special values follow IEEE-754
    as ECMAScript prescribes, except that the two zeros are not told apart
    (a zero divisor counts as +0).  [undefined] read in an arithmetic position
    is NaN, as ToNumber prescribes.

    Not modelled: console output, and the two display strings of the result
    record ([analysis], [tfString]) which only format numbers as text. *)

From Stdlib Require Import Reals Lra Lia.
From stdpp Require Import gmap strings list fin_maps.

#[local] Open Scope R_scope.

(** ** JavaScript numbers *)

Module JSNum.

Inductive num : Type :=
| Fin (x : R)      (* a finite double, read as the real it denotes *)
| PInf             (* Infinity *)
| NInf             (* -Infinity *)
| NaN.

#[global] Instance Rlt_decision : RelDecision Rlt := Rlt_dec.
#[global] Instance Rle_decision : RelDecision Rle := Rle_dec.
#[global] Instance Req_decision : EqDecision R := Req_dec_T.

(** Sign of a number that is neither zero nor NaN: [Some true] is positive. *)
Definition sign (a : num) : option bool :=
  match a with
  | Fin x => if decide (0 < x) then Some true
             else if decide (x < 0) then Some false else None
  | PInf => Some true
  | NInf => Some false
  | NaN => None
  end.

Definition inf_of (positive : bool) : num := if positive then PInf else NInf.

Definition nneg (a : num) : num :=
  match a with
  | Fin x => Fin (- x)
  | PInf => NInf
  | NInf => PInf
  | NaN => NaN
  end.

Definition nadd (a b : num) : num :=
  match a, b with
  | NaN, _ | _, NaN => NaN
  | Fin x, Fin y => Fin (x + y)
  | PInf, NInf | NInf, PInf => NaN
  | PInf, _ | _, PInf => PInf
  | NInf, _ | _, NInf => NInf
  end.

Definition nsub (a b : num) : num := nadd a (nneg b).

Definition nmul (a b : num) : num :=
  match a, b with
  | NaN, _ | _, NaN => NaN
  | Fin x, Fin y => Fin (x * y)
  | _, _ =>
      (* at least one factor is infinite: 0 * Infinity is NaN *)
      match sign a, sign b with
      | Some sa, Some sb => inf_of (Bool.eqb sa sb)
      | _, _ => NaN
      end
  end.

Definition ndiv (a b : num) : num :=
  match a, b with
  | NaN, _ | _, NaN => NaN
  | Fin x, Fin y =>
      if decide (y = 0) then
        match sign a with
        | Some sa => inf_of sa      (* x / 0 *)
        | None => NaN               (* 0 / 0 *)
        end
      else Fin (x / y)
  | Fin _, _ => Fin 0               (* x / ±Infinity *)
  | _, Fin y =>                     (* ±Infinity / y *)
      match sign a with
      | Some sa => inf_of (Bool.eqb sa (bool_decide (0 <= y)))
      | None => NaN
      end
  | _, _ => NaN                     (* ±Infinity / ±Infinity *)
  end.

(** [Math.sqrt], [Math.abs], [Math.log10], [Math.sin], [Math.exp]. *)
Definition Math_sqrt (a : num) : num :=
  match a with
  | Fin x => if decide (x < 0) then NaN else Fin (sqrt x)
  | PInf => PInf
  | NInf | NaN => NaN
  end.

Definition Math_abs (a : num) : num :=
  match a with
  | Fin x => Fin (Rabs x)
  | PInf | NInf => PInf
  | NaN => NaN
  end.

Definition Math_log10 (a : num) : num :=
  match a with
  | Fin x => if decide (x < 0) then NaN
             else if decide (x = 0) then NInf
             else Fin (ln x / ln 10)
  | PInf => PInf
  | NInf | NaN => NaN
  end.

Definition Math_sin (a : num) : num :=
  match a with
  | Fin x => Fin (sin x)
  | _ => NaN
  end.

Definition Math_exp (a : num) : num :=
  match a with
  | Fin x => Fin (exp x)
  | PInf => PInf
  | NInf => Fin 0
  | NaN => NaN
  end.

(** [Math.pow(10, a)]: the only base the engine raises to a variable power. *)
Definition Math_pow10 (a : num) : num :=
  match a with
  | Fin x => Fin (Rpower 10 x)
  | PInf => PInf
  | NInf => Fin 0
  | NaN => NaN
  end.

(** [a ** 2]. *)
Definition sq (a : num) : num := nmul a a.

(** [Math.atan2(y, x)]. *)
Definition Math_atan2 (y x : num) : num :=
  match y, x with
  | NaN, _ | _, NaN => NaN
  | Fin b, Fin a =>
      if decide (0 < a) then Fin (atan (b / a))
      else if decide (a < 0) then
        if decide (b < 0) then Fin (atan (b / a) - PI) else Fin (atan (b / a) + PI)
      else if decide (0 < b) then Fin (PI / 2)
      else if decide (b < 0) then Fin (- PI / 2)
      else Fin 0
  | Fin b, PInf => Fin 0
  | Fin b, NInf => if decide (b < 0) then Fin (- PI) else Fin PI
  | PInf, Fin _ => Fin (PI / 2)
  | NInf, Fin _ => Fin (- PI / 2)
  | PInf, PInf => Fin (PI / 4)
  | PInf, NInf => Fin (3 * PI / 4)
  | NInf, PInf => Fin (- PI / 4)
  | NInf, NInf => Fin (- 3 * PI / 4)
  end.

(** Comparisons: every comparison with NaN is false. *)
Definition ltb (a b : num) : bool :=
  match a, b with
  | NaN, _ | _, NaN => false
  | Fin x, Fin y => bool_decide (x < y)
  | NInf, NInf | PInf, _ | _, NInf => false
  | NInf, _ | _, PInf => true
  end.

Definition leb (a b : num) : bool :=
  match a, b with
  | NaN, _ | _, NaN => false
  | Fin x, Fin y => bool_decide (x <= y)
  | NInf, _ | _, PInf => true
  | PInf, _ | _, NInf => false
  end.

Definition gtb (a b : num) : bool := ltb b a.
Definition geb (a b : num) : bool := leb b a.

(** [a === b] on numbers. *)
Definition strict_eq (a b : num) : bool :=
  match a, b with
  | Fin x, Fin y => bool_decide (x = y)
  | PInf, PInf | NInf, NInf => true
  | _, _ => false
  end.

Definition isNaN (a : num) : bool :=
  match a with NaN => true | _ => false end.

(** ToBoolean on a number: 0 and NaN are falsy. *)
Definition truthy (a : num) : bool :=
  match a with
  | Fin x => bool_decide (x <> 0)
  | NaN => false
  | _ => true
  end.

(** [Math.max(a, b)]. *)
Definition Math_max (a b : num) : num :=
  match a, b with
  | NaN, _ | _, NaN => NaN
  | _, _ => if ltb a b then b else a
  end.

(** ToNumber of a possibly undefined number. *)
Definition to_num (v : option num) : num := default NaN v.

Definition of_nat (n : nat) : num := Fin (IZR (Z.of_nat n)).

End JSNum.

Export JSNum.

Declare Scope js_scope.
Delimit Scope js_scope with J.
Bind Scope js_scope with num.
Infix "+" := nadd : js_scope.
Infix "-" := nsub : js_scope.
Infix "*" := nmul : js_scope.
Infix "/" := ndiv : js_scope.
Notation "- x" := (nneg x) : js_scope.
Infix "<?" := ltb : js_scope.
Infix "<=?" := leb : js_scope.
Infix ">?" := gtb : js_scope.
Infix ">=?" := geb : js_scope.
Infix "===" := strict_eq (at level 70, no associativity) : js_scope.

#[local] Open Scope js_scope.

(** ** JavaScript arrays

    An array is a list of slots; an empty slot (a hole left by
    [new Array(n)], or an element that is [undefined]) is [None]. *)

Module JSArray.

Definition new_Array {A : Type} (n : nat) : list (option A) := replicate n None.

(** [a[i]]: [None] is [undefined]. *)
Definition aget {A : Type} (a : list (option A)) (i : nat) : option A :=
  match a !! i with
  | Some (Some v) => Some v
  | _ => None
  end.

(** [a[i] = v]: writing past the end extends the array with holes. *)
Definition aset {A : Type} (a : list (option A)) (i : nat) (v : A) : list (option A) :=
  if decide (i < length a)%nat then <[i := Some v]> a
  else a ++ replicate (i - length a) None ++ [Some v].

(** An array literal, or a copy [[...l]] of a dense array. *)
Definition of_list {A : Type} (l : list A) : list (option A) := Some <$> l.

(** [a.map((v, i) => f v i)]: holes are skipped and stay holes. *)
Definition amap {A B : Type} (f : A → nat → B) (a : list (option A)) : list (option B) :=
  imap (λ i o, (λ v, f v i) <$> o) a.

(** [a.map(v => g v)] where the callback may return [undefined]. *)
Definition amap_opt {A B : Type} (g : A → option B) (a : list (option A)) : list (option B) :=
  (λ o, o ≫= g) <$> a.

(** [a.fill(v)]. *)
Definition fill {A : Type} (a : list (option A)) (v : A) : list (option A) :=
  replicate (length a) (Some v).

(** [for (let i = lo; i < hi; i++) body]: the loop state is threaded
    through the iterations in increasing order of [i]. *)
Definition for_loop {S : Type} (lo hi : nat) (body : S → nat → S) (s : S) : S :=
  foldl body s (seq lo (hi - lo)).

(** [v[j]] on a dense vector, read in an arithmetic position. *)
Definition elt (v : list num) (j : nat) : num := to_num (v !! j).

End JSArray.

Export JSArray.

(** ** The parameter object

    The object handed to the engine carries the numeric parameters by name
    and the waveform tag [inputType]. *)

Record Params := mkParams {
  values : gmap string num;
  inputType : option string
}.

(** [v === 's'] for a possibly undefined string [v]. *)
Definition is_str (v : option string) (s : string) : bool := bool_decide (v = Some s).

(** [params.k] read as a number. *)
Definition getp (p : Params) (k : string) : num := to_num (values p !! k).

(** [{ ...params, k: v }]. *)
Definition setp (p : Params) (k : string) (v : num) : Params :=
  {| values := <[k := v]> (values p); inputType := inputType p |}.

(** ** numericalSolver.js *)

Module NumericalSolver.

Definition odeFunc := num → list num → Params → list num.

Record ODEResult := mkODEResult {
  time : list (option num);
  ys : list (list (option num))       (* [ys !! j] is the field [y<j>] *)
}.

(** [const add = (a, b, scale) => a.map((val, i) => val + b[i] * scale)] *)
Definition add (a b : list num) (scale : num) : list num :=
  imap (λ i val, val + elt b i * scale) a.

(** The state of the integration loop. *)
Record LoopState := mkLoop {
  ls_t : num;
  ls_currentState : list num;
  ls_time : list (option num);
  ls_states : list (option (list (option num)))
}.

Definition solveODE_step (f : odeFunc) (params : Params) (dt : num)
    (st : LoopState) (i : nat) : LoopState :=
  let t := ls_t st in
  let currentState := ls_currentState st in
  let k1 := f t currentState params in
  let k2 := f (t + Fin 0.5 * dt) (add currentState k1 (Fin 0.5 * dt)) params in
  let k3 := f (t + Fin 0.5 * dt) (add currentState k2 (Fin 0.5 * dt)) params in
  let k4 := f (t + dt) (add currentState k3 dt) params in
  let nextState :=
    imap (λ j val, val + (dt / Fin 6) *
                     (elt k1 j + Fin 2 * elt k2 j + Fin 2 * elt k3 j + elt k4 j))
         currentState in
  let t' := t + dt in
  {| ls_t := t';
     ls_currentState := nextState;
     ls_time := aset (ls_time st) i t';
     ls_states := aset (ls_states st) i (of_list nextState) |}.

Definition solveODE (f : odeFunc) (initialState : list num) (params : Params)
    (tStart tEnd : num) (points : nat) : ODEResult :=
  let dt := (tEnd - tStart) / (of_nat points - Fin 1) in
  let time := new_Array points in
  let states :=
    for_loop 0 points (λ s i, aset s i (new_Array (length initialState)))
             (new_Array points) in
  let time := aset time 0 tStart in
  let states := aset states 0 (of_list initialState) in
  let st := for_loop 1 points (solveODE_step f params dt)
              {| ls_t := tStart; ls_currentState := initialState;
                 ls_time := time; ls_states := states |} in
  {| time := ls_time st;
     ys := (λ j, amap_opt (λ state, aget state j) (ls_states st))
             <$> seq 0 (length initialState) |}.

(** The default of the parameter [points]. *)
Definition default_points : nat := 1000.

End NumericalSolver.

Export NumericalSolver.

(** ** Exceptions

    The only exception the engine can raise is the [TypeError] of reading a
    property of [undefined]; [Throw] carries its message. *)

Inductive completion (A : Type) : Type :=
| Normal (v : A)
| Throw (message : string).
Arguments Normal {A} v.
Arguments Throw {A} message.

#[global] Instance completion_bind : MBind completion := λ A B k c,
  match c with
  | Normal v => k v
  | Throw m => Throw m
  end.

Definition TypeError_undefined : string :=
  "Cannot read properties of undefined"%string.

(** [c.map((v, i) => f v i)] on an array, with a callback that may throw. *)
Fixpoint amapM_from {A B : Type} (f : A → nat → completion B) (i : nat)
    (a : list (option A)) : completion (list (option B)) :=
  match a with
  | [] => Normal []
  | None :: a' => r ← amapM_from f (S i) a'; Normal (None :: r)
  | Some v :: a' =>
      b ← f v i; r ← amapM_from f (S i) a'; Normal (Some b :: r)
  end.

Definition amapM {A B : Type} (f : A → nat → completion B)
    (a : list (option A)) : completion (list (option B)) :=
  amapM_from f 0 a.

(** [c[i]] and [c.map(...)] where [c] itself may be [undefined]. *)
Definition index (c : option (list (option num))) (i : nat) : completion num :=
  match c with
  | Some a => Normal (to_num (aget a i))
  | None => Throw TypeError_undefined
  end.

Definition map_of (c : option (list (option num)))
    (f : num → nat → completion num) : completion (list (option num)) :=
  match c with
  | Some a => amapM f a
  | None => Throw TypeError_undefined
  end.

(** ** stateSpaceModels.js *)

Module StateSpaceModels.

#[local] Open Scope string_scope.
#[local] Open Scope js_scope.

Definition getVin (t : num) (params : Params) : num :=
  let V := getp params "V" in
  let Freq := getp params "Freq" in
  if is_str (inputType params) "Step" then
    if t >=? Fin 0 then V else Fin 0
  else if is_str (inputType params) "Sine" then
    let w := Fin 2 * Fin PI * Freq in
    if t >=? Fin 0 then V * Math_sin (w * t) else Fin 0
  else if is_str (inputType params) "Ramp" then
    if t >=? Fin 0 then V * t else Fin 0
  else Fin 0.

Definition rcOde : odeFunc := λ t state params,
  let Vc := elt state 0 in
  let R := getp params "R" in
  let C := getp params "C" in
  let Vin := getVin t params in
  let dVc_dt := (Vin - Vc) / (R * C) in
  [dVc_dt].

Definition rlOde : odeFunc := λ t state params,
  let iL := elt state 0 in
  let R := getp params "R" in
  let L := getp params "L" in
  let Vin := getVin t params in
  let diL_dt := (Vin - iL * R) / L in
  [diL_dt].

Definition rlcOde : odeFunc := λ t state params,
  let Vc := elt state 0 in
  let iL := elt state 1 in
  let R := getp params "R" in
  let L := getp params "L" in
  let C := getp params "C" in
  let Vin := getVin t params in
  let dVc_dt := iL / C in
  let diL_dt := (Vin - Vc - iL * R) / L in
  [dVc_dt; diL_dt].

Definition rllcOde : odeFunc := λ t state params,
  let L1 := getp params "L1" in
  let L2 := getp params "L2" in
  let L_eq := L1 + L2 in
  rlcOde t state (setp params "L" L_eq).

Definition rlccOde : odeFunc := λ t state params,
  let iL := elt state 0 in
  let Vc1 := elt state 1 in
  let Vc2 := elt state 2 in
  let R := getp params "R" in
  let L := getp params "L" in
  let C1 := getp params "C1" in
  let C2 := getp params "C2" in
  let Vin := getVin t params in
  let diL_dt := (Vin - Vc1 - Vc2 - iL * R) / L in
  let dVc1_dt := iL / C1 in
  let dVc2_dt := iL / C2 in
  [diL_dt; dVc1_dt; dVc2_dt].

Definition rlcParallelOde : odeFunc := λ t state params,
  let Vc := elt state 0 in
  let iL := elt state 1 in
  let R := getp params "R" in
  let L := getp params "L" in
  let C := getp params "C" in
  let I_in := getVin t params in
  let dVc_dt := (I_in - Vc / R - iL) / C in
  let diL_dt := Vc / L in
  [dVc_dt; diL_dt].

(** The [initialState] of a model: an array literal or a function of the
    parameters. *)
Inductive InitialState :=
| InitArray (s : list num)
| InitFunction (f : Params → list num).

(** The object of named traces a model's [map] builds; a field holds [None]
    when its value is [undefined]. *)
Abbreviation Traces := (gmap string (option (list (option num)))).

Record Model := mkModel {
  func : option odeFunc;
  initialState : InitialState;
  map : ODEResult → Params → completion Traces
}.

(** [res.y<j>]. *)
Definition y (res : ODEResult) (j : nat) : option (list (option num)) := ys res !! j.

Definition models : gmap string Model :=
  list_to_map [
    ("solveRcCharge",
      {| func := Some rcOde; initialState := InitArray [Fin 0];
         map := λ res params,
           i ← amapM (λ t i, y0i ← index (y res 0) i;
                             Normal ((getVin t params - y0i) / getp params "R"))
                     (time res);
           Normal (list_to_map [("Vc", y res 0); ("i", Some i)]) |});
    ("solveRcDischarge",
      {| func := Some rcOde; initialState := InitFunction (λ p, [getp p "V0"]);
         map := λ res params,
           let i := amap (λ t _, (- getp params "V0" / getp params "R") *
                                 Math_exp (- t / (getp params "R" * getp params "C")))
                         (time res) in
           Normal (list_to_map [("Vc", y res 0); ("i", Some i)]) |});
    ("solveRlEnergize",
      {| func := Some rlOde; initialState := InitArray [Fin 0];
         map := λ res params,
           Vl ← amapM (λ t i, y0i ← index (y res 0) i;
                              Normal (getVin t params - y0i * getp params "R"))
                      (time res);
           Normal (list_to_map [("iL", y res 0); ("Vl", Some Vl)]) |});
    ("solveRlDeEnergize",
      {| func := Some rlOde; initialState := InitFunction (λ p, [getp p "I0"]);
         map := λ res params,
           Vr ← map_of (y res 0) (λ i _, Normal (- i * getp params "R"));
           Normal (list_to_map [("iL", y res 0); ("Vr", Some Vr)]) |});
    ("solveRlcSeries",
      {| func := Some rlcOde; initialState := InitArray [Fin 0; Fin 0];
         map := λ res params,
           Vl ← amapM (λ t i, y0i ← index (y res 0) i; y1i ← index (y res 1) i;
                              Normal (getVin t params - y0i - y1i * getp params "R"))
                      (time res);
           Vr ← map_of (y res 1) (λ i _, Normal (i * getp params "R"));
           Normal (list_to_map [("Vc", y res 0); ("i", y res 1); ("Vl", Some Vl); ("Vr", Some Vr)]) |});
    ("solveRllcSeries",
      {| func := Some rllcOde; initialState := InitArray [Fin 0; Fin 0];
         map := λ res params,
           Vl ← amapM (λ t i, y0i ← index (y res 0) i; y1i ← index (y res 1) i;
                              Normal (getVin t params - y0i - y1i * getp params "R"))
                      (time res);
           Vr ← map_of (y res 1) (λ i _, Normal (i * getp params "R"));
           Normal (list_to_map [("Vc", y res 0); ("i", y res 1); ("Vl_total", Some Vl); ("Vr", Some Vr)]) |});
    ("solve3RlccSeries",
      {| func := Some rlccOde; initialState := InitArray [Fin 0; Fin 0; Fin 0];
         map := λ res params,
           Vc_total ← map_of (y res 1) (λ v i, y2i ← index (y res 2) i; Normal (v + y2i));
           Vr ← map_of (y res 0) (λ i _, Normal (i * getp params "R"));
           Normal (list_to_map [("i", y res 0); ("Vc1", y res 1); ("Vc2", y res 2);
                   ("Vc_total", Some Vc_total); ("Vr", Some Vr)]) |});
    ("solveRlcParallel",
      {| func := Some rlcParallelOde; initialState := InitArray [Fin 0; Fin 0];
         map := λ res params,
           iR ← map_of (y res 0) (λ v _, Normal (v / getp params "R"));
           iC ← amapM (λ t i, y0i ← index (y res 0) i; y1i ← index (y res 1) i;
                              Normal (getVin t params - y0i / getp params "R" - y1i))
                      (time res);
           Normal (list_to_map [("Vc", y res 0); ("iL", y res 1); ("iR", Some iR); ("iC", Some iC)]) |})
  ].

End StateSpaceModels.

Export StateSpaceModels.

(** ** circuitDefinitions.js

    Each entry carries its key as [id], the way App.js attaches it before
    handing the topology to the engine. *)

Module CircuitDefinitions.

#[local] Open Scope string_scope.
#[local] Open Scope js_scope.

Record Circuit := mkCircuit {
  id : string;
  order : nat;
  params : list string;
  defaults : gmap string num;
  solver : string;
  metrics : list string;
  transferFunction : option string
}.

Definition rc_charge : Circuit :=
  {| id := "1-rc-charge"; order := 1; params := ["V"; "R"; "C"];
     defaults := list_to_map [("V", Fin 10); ("R", Fin 1000); ("C", Fin 0.000001);
                              ("tEnd", Fin 0.005); ("Freq", Fin 1000)];
     solver := "solveRcCharge"; metrics := ["riseTime"; "settlingTime"];
     transferFunction := Some "1 / (1 + sRC)" |}.

Definition rl_energize : Circuit :=
  {| id := "1-rl-energize"; order := 1; params := ["V"; "R"; "L"];
     defaults := list_to_map [("V", Fin 10); ("R", Fin 10); ("L", Fin 0.01);
                              ("tEnd", Fin 0.005); ("Freq", Fin 1000)];
     solver := "solveRlEnergize"; metrics := ["riseTime"; "settlingTime"];
     transferFunction := Some "R / (R + sL)" |}.

Definition rlc_series : Circuit :=
  {| id := "2-rlc-series"; order := 2; params := ["V"; "R"; "L"; "C"];
     defaults := list_to_map [("V", Fin 10); ("R", Fin 50); ("L", Fin 0.01);
                              ("C", Fin 0.000001); ("tEnd", Fin 0.01); ("Freq", Fin 1000)];
     solver := "solveRlcSeries";
     metrics := ["riseTime"; "settlingTime"; "overshoot"; "peakTime"; "peakValue"];
     transferFunction := Some "(sRC) / (s^2LC + sRC + 1)" |}.

Definition rc_discharge : Circuit :=
  {| id := "1-rc-discharge"; order := 1; params := ["V0"; "R"; "C"];
     defaults := list_to_map [("V0", Fin 10); ("R", Fin 1000); ("C", Fin 0.000001);
                              ("tEnd", Fin 0.005); ("Freq", Fin 1000)];
     solver := "solveRcDischarge"; metrics := ["settlingTime"];
     transferFunction := Some "1 / (1 + sRC)" |}.

Definition rl_deenergize : Circuit :=
  {| id := "1-rl-deenergize"; order := 1; params := ["I0"; "R"; "L"];
     defaults := list_to_map [("I0", Fin 1); ("R", Fin 10); ("L", Fin 0.01);
                              ("tEnd", Fin 0.005); ("Freq", Fin 1000)];
     solver := "solveRlDeEnergize"; metrics := ["settlingTime"];
     transferFunction := Some "R / (R + sL)" |}.

Definition rlc_parallel : Circuit :=
  {| id := "2-rlc-parallel"; order := 2; params := ["V"; "R"; "L"; "C"];
     defaults := list_to_map [("V", Fin 1); ("R", Fin 50); ("L", Fin 0.01);
                              ("C", Fin 0.00001); ("tEnd", Fin 0.05); ("Freq", Fin 1000)];
     solver := "solveRlcParallel";
     metrics := ["riseTime"; "settlingTime"; "overshoot"; "peakTime"; "peakValue"];
     transferFunction := Some "sL / (s^2LC + sL/R + 1)" |}.

Definition rllc_series : Circuit :=
  {| id := "3-rllc-series"; order := 3; params := ["V"; "R"; "L1"; "L2"; "C"];
     defaults := list_to_map [("V", Fin 10); ("R", Fin 10); ("L1", Fin 0.01);
                              ("L2", Fin 0.01); ("C", Fin 0.0001);
                              ("tEnd", Fin 0.05); ("Freq", Fin 1000)];
     solver := "solveRllcSeries"; metrics := ["riseTime"; "settlingTime"; "overshoot"];
     transferFunction := Some "1 / (s^2*C*(L1+L2) + s*C*R + 1)" |}.

Definition rlcc_series : Circuit :=
  {| id := "3-rlcc-series"; order := 3; params := ["V"; "R"; "L"; "C1"; "C2"];
     defaults := list_to_map [("V", Fin 10); ("R", Fin 10); ("L", Fin 0.01);
                              ("C1", Fin 0.0001); ("C2", Fin 0.0001);
                              ("tEnd", Fin 0.05); ("Freq", Fin 1000)];
     solver := "solve3RlccSeries"; metrics := ["riseTime"; "settlingTime"; "overshoot"];
     transferFunction := Some "1 / (s^2*L*C_eq + s*R*C_eq + 1)" |}.

Definition circuitDefinitions : list Circuit :=
  [rc_charge; rl_energize; rlc_series; rc_discharge; rl_deenergize;
   rlc_parallel; rllc_series; rlcc_series].

(** [s.includes(sub)]. *)
Fixpoint includes (s sub : string) : bool :=
  String.prefix sub s ||
  match s with
  | EmptyString => false
  | String _ s' => includes s' sub
  end.

End CircuitDefinitions.

Export CircuitDefinitions.

(** ** solver.js: frequency response *)

Module Solver.

#[local] Open Scope string_scope.
#[local] Open Scope js_scope.

Definition generateFrequencyVector (fMin fMax : num) (points : nat) : list (option num) :=
  let logMin := Math_log10 fMin in
  let logMax := Math_log10 fMax in
  let logStep := (logMax - logMin) / (of_nat points - Fin 1) in
  for_loop 0 points
    (λ freq i, aset freq i (Math_pow10 (logMin + of_nat i * logStep)))
    (new_Array points).

(** The call [generateFrequencyVector()] with every argument defaulted. *)
Definition generateFrequencyVector_default : list (option num) :=
  generateFrequencyVector (Fin 1) (Fin 1e6) 500.

(** Complex numbers as pairs [(re, im)]. *)
Definition complex : Type := num * num.

Definition cAdd (a b : complex) : complex := (a.1 + b.1, a.2 + b.2).

Definition cDiv (a b : complex) : complex :=
  let '(ar, ai) := a in
  let '(br, bi) := b in
  let den := br * br + bi * bi in
  if den === Fin 0 then (Fin 0, Fin 0)
  else ((ar * br + ai * bi) / den, (ai * br - ar * bi) / den).

Definition cMag (a : complex) : num := Math_sqrt (sq a.1 + sq a.2).

Definition cPhase (a : complex) : num := Math_atan2 a.2 a.1.

(** [a.forEach((v, i) => body)]: holes are skipped. *)
Definition forEach {A S : Type} (a : list (option A)) (body : S → A → nat → S) (s : S) : S :=
  foldl (λ s iv, match iv.2 with Some v => body s v iv.1 | None => s end)
        s (imap (λ i v, (i, v)) a).

(** The body shared by the six branches: evaluate [H] at [w] and store the
    magnitude in dB and the phase in degrees at index [i]. *)
Definition bode (H : num → complex) (omega : list (option num))
    (mp : list (option num) * list (option num)) : list (option num) * list (option num) :=
  forEach omega
    (λ mp w i,
       let h := H w in
       (aset mp.1 i (Fin 20 * Math_log10 (cMag h)),
        aset mp.2 i (cPhase h * Fin 180 / Fin PI)))
    mp.

Inductive FreqResult :=
| FreqComplete (freq mag phase : list (option num))    (* status: 'complete' *)
| FreqError (message : string).                        (* status: 'error' *)

Definition solveFrequencyResponse (circuit : Circuit) (p : Params) : FreqResult :=
  let R := getp p "R" in
  let L := getp p "L" in
  let C := getp p "C" in
  let L1 := getp p "L1" in
  let L2 := getp p "L2" in
  let C1 := getp p "C1" in
  let C2 := getp p "C2" in
  let freq := generateFrequencyVector_default in
  let omega := amap (λ f _, Fin 2 * Fin PI * f) freq in
  let mag := fill (new_Array (length freq)) (Fin 0) in
  let phase := fill (new_Array (length freq)) (Fin 0) in
  (* nothing in the guarded block can throw: the catch branch, which would
     return [FreqError "Bode plot calculation failed."], is never taken *)
  let tf := transferFunction circuit in
  let '(mag, phase) :=
    if is_str tf "1 / (1 + sRC)" then
      bode (λ w, cDiv (Fin 1, Fin 0) (Fin 1, w * R * C)) omega (mag, phase)
    else if is_str tf "R / (R + sL)" then
      bode (λ w, cDiv (R, Fin 0) (R, w * L)) omega (mag, phase)
    else if is_str tf "(sRC) / (s^2LC + sRC + 1)" then
      bode (λ w,
              let s_sq_LC := (Fin (-1) * sq w * L * C, Fin 0) in
              let s_RC := (Fin 0, w * R * C) in
              let H_num := s_RC in
              let H_den := cAdd (cAdd s_sq_LC s_RC) (Fin 1, Fin 0) in
              cDiv H_num H_den) omega (mag, phase)
    else if is_str tf "sL / (s^2LC + sL/R + 1)" then
      bode (λ w,
              let H_num := (Fin 0, w * L) in
              let H_den := (Fin 1 - sq w * L * C, w * L / R) in
              cDiv H_num H_den) omega (mag, phase)
    else if is_str tf "1 / (s^2*C*(L1+L2) + s*C*R + 1)" then
      let L_eq := L1 + L2 in
      bode (λ w,
              let H_den := (Fin 1 - sq w * L_eq * C, w * R * C) in
              let H_num := (Fin 1, Fin 0) in
              cDiv H_num H_den) omega (mag, phase)
    else if is_str tf "1 / (s^2*L*C_eq + s*R*C_eq + 1)" then
      let C_eq := (C1 * C2) / (C1 + C2) in
      bode (λ w,
              let H_den := (Fin 1 - sq w * L * C_eq, w * R * C_eq) in
              let H_num := (Fin 1, Fin 0) in
              cDiv H_num H_den) omega (mag, phase)
    else (fill mag (Fin 0), fill phase (Fin 0)) in
  FreqComplete freq mag phase.

(** ** solver.js: poles and stability *)

Record Pole := mkPole { re : num; im : num }.

Record StabilityStatus := mkStatus { status : string; details : string }.

Record PZAnalysis := mkPZ { pz_poles : list Pole; pz_stabilityStatus : StabilityStatus }.

Definition tol : num := Fin 1e-9.

(** The block "Assess stability" of [calculatePolesAndStability]. *)
Definition assess_stability (roots : list Pole) : StabilityStatus :=
  let hasUnstablePole := existsb (λ p, re p >? tol) roots in
  if hasUnstablePole then
    {| status := "Unstable"; details := "At least one pole with Re(p) > 0." |}
  else
    let imagAxisPoles := List.filter (λ p, Math_abs (re p) <=? tol) roots in
    match imagAxisPoles with
    | [] => {| status := "Stable"; details := "All poles Re(p) < 0." |}
    | p0 :: rest =>
        let isRepeated :=
          match rest with
          | p1 :: _ =>
              (Math_abs (im p0 - im p1) <? tol) || (Math_abs (im p0 + im p1) <? tol)
          | [] => false
          end in
        if isRepeated then
          {| status := "Unstable"; details := "Repeated poles on imaginary axis." |}
        else
          {| status := "Marginally Stable";
             details := "Simple poles on imaginary axis (oscillatory)." |}
    end.

(** [calculatePolesAndStability({ R, L, C })]. *)
Definition calculatePolesAndStability (R L C : num) : PZAnalysis :=
  if negb (truthy L) || negb (truthy C) || (L <=? Fin 0) || (C <=? Fin 0) then
    {| pz_poles := [];
       pz_stabilityStatus :=
         {| status := "N/A"; details := "L or C is zero or negative." |} |}
  else
    let b := R / L in
    let c := Fin 1 / (L * C) in
    let disc := b * b - Fin 4 * c in
    let roots :=
      if disc >=? Fin 0 then
        let r1 := (- b + Math_sqrt disc) / Fin 2 in
        let r2 := (- b - Math_sqrt disc) / Fin 2 in
        [ {| re := r1; im := Fin 0 |}; {| re := r2; im := Fin 0 |} ]
      else
        let realPart := - b / Fin 2 in
        let imagPart := Math_sqrt (- disc) / Fin 2 in
        [ {| re := realPart; im := imagPart |}; {| re := realPart; im := - imagPart |} ] in
    {| pz_poles := roots; pz_stabilityStatus := assess_stability roots |}.

(** ** solver.js: the router *)

Record SimulationResult := mkResult {
  timeDomain : Traces;                    (* the fields spread from the model's map *)
  sim_time : list (option num);
  freq : list (option num);
  mag : list (option num);
  phase : list (option num);
  finalValue : option num;
  poles : option (list Pole);             (* [None] is null *)
  zeros : list Pole;
  stabilityStatus : option StabilityStatus
}.

Inductive SolveResult :=
| Unimplemented (message : string)        (* status: 'unimplemented' *)
| Error (message : string)                (* status: 'error' *)
| Complete (r : SimulationResult).        (* status: 'complete' *)

Definition result_status (r : SolveResult) : string :=
  match r with
  | Unimplemented _ => "unimplemented"
  | Error _ => "error"
  | Complete _ => "complete"
  end.

(** [params[param] === undefined || isNaN(params[param])]. *)
Definition invalid (p : Params) (param : string) : bool :=
  match values p !! param with
  | None => true
  | Some v => isNaN v
  end.

(** The validation loop: the first required parameter that is rejected. *)
Definition validate (circuit : Circuit) (p : Params) : option string :=
  List.find (invalid p) (params circuit).

(** Poles and verdict of the parallel topology, computed in the router. *)
Definition parallel_analysis (R_eq L_eq C_eq : num) : list Pole * StabilityStatus :=
  let b_p := Fin 1 / (R_eq * C_eq) in
  let c_p := Fin 1 / (L_eq * C_eq) in
  let disc_p := b_p * b_p - Fin 4 * c_p in
  let poles :=
    if disc_p >=? Fin 0 then
      let r1 := (- b_p + Math_sqrt disc_p) / Fin 2 in
      let r2 := (- b_p - Math_sqrt disc_p) / Fin 2 in
      [ {| re := r1; im := Fin 0 |}; {| re := r2; im := Fin 0 |} ]
    else
      let realPart := - b_p / Fin 2 in
      let imagPart := Math_sqrt (- disc_p) / Fin 2 in
      [ {| re := realPart; im := imagPart |}; {| re := realPart; im := - imagPart |} ] in
  let stabilityStatus :=
    if existsb (λ p, re p >? Fin 1e-9) poles then
      {| status := "Unstable"; details := "At least one pole with Re(p) > 0." |}
    else {| status := "Stable"; details := "All poles Re(p) < 0." |} in
  (poles, stabilityStatus).

(** Step 3 of [solve]: poles, zeros and verdict. *)
Definition analysis (circuit : Circuit) (p : Params)
    : option (list Pole) * list Pole * option StabilityStatus :=
  if bool_decide (order circuit = 2%nat) || bool_decide (order circuit = 3%nat) then
    let R_eq := getp p "R" in
    let L_eq := getp p "L" in
    let C_eq := getp p "C" in
    let '(L_eq, C_eq, poles, stabilityStatus) :=
      if includes (id circuit) "rllc-series" then
        (getp p "L1" + getp p "L2", C_eq, None, None)
      else if includes (id circuit) "rlcc-series" then
        (getp p "L",
         if getp p "C1" + getp p "C2" >? Fin 0
         then (getp p "C1" * getp p "C2") / (getp p "C1" + getp p "C2")
         else Fin 0,
         None, None)
      else if includes (id circuit) "rlc-parallel" then
        if (R_eq >? Fin 0) && (L_eq >? Fin 0) && (C_eq >? Fin 0) then
          let '(poles, st) := parallel_analysis R_eq L_eq C_eq in
          (L_eq, C_eq, Some poles, Some st)
        else (L_eq, C_eq, None, None)
      else (L_eq, C_eq, None, None) in
    let '(poles, stabilityStatus) :=
      if negb (includes (id circuit) "rlc-parallel")
         && (R_eq >? Fin 0) && (L_eq >? Fin 0) && (C_eq >? Fin 0) then
        let pzAnalysis := calculatePolesAndStability R_eq L_eq C_eq in
        (Some (pz_poles pzAnalysis), Some (pz_stabilityStatus pzAnalysis))
      else (poles, stabilityStatus) in
    let zeros :=
      if is_str (transferFunction circuit) "(sRC) / (s^2LC + sRC + 1)" then
        [ {| re := Fin 0; im := Fin 0 |} ]
      else if is_str (transferFunction circuit) "sL / (s^2LC + sL/R + 1)" then
        [ {| re := Fin 0; im := Fin 0 |} ]
      else [] in
    (poles, zeros, stabilityStatus)
  else (None, [], None).

(** The steady-state value. *)
Definition steady_state (circuit : Circuit) (p : Params) : option num :=
  let finalValue := Some (Fin 0) in
  if is_str (inputType p) "Step" then
    let finalValue :=
      if includes (id circuit) "rc-charge" || includes (id circuit) "rlc-series"
         || includes (id circuit) "rllc-series" || includes (id circuit) "rlcc-series"
      then values p !! "V" else finalValue in
    let finalValue :=
      if includes (id circuit) "rl-energize"
      then Some (if getp p "R" >? Fin 0 then getp p "V" / getp p "R" else Fin 0)
      else finalValue in
    let finalValue :=
      if includes (id circuit) "rlc-parallel"
      then Some (getp p "V" * getp p "R") else finalValue in
    finalValue
  else finalValue.

(** The keys written after the spread [...timeDomain]: they replace traces
    of the same name. *)
Definition result_keys : list string :=
  ["time"; "freq"; "mag"; "phase"; "analysis"; "finalValue"; "poles"; "zeros";
   "stabilityStatus"; "tfString"; "status"].

(** The body of the [try] block. *)
Definition simulate (model : Model) (f : odeFunc) (circuit : Circuit) (p : Params)
    : completion SolveResult :=
  let initialState :=
    match initialState model with
    | InitFunction g => g p
    | InitArray s => s
    end in
  let odeResults := solveODE f initialState p (Fin 0) (getp p "tEnd") default_points in
  timeDomain ← map model odeResults p;
  match solveFrequencyResponse circuit p with
  | FreqError m => Normal (Error m)
  | FreqComplete freq mag phase =>
      let '(poles, zeros, stabilityStatus) := analysis circuit p in
      let finalValue := steady_state circuit p in
      Normal (Complete
        {| timeDomain := foldr delete timeDomain result_keys;
           sim_time := time odeResults;
           freq := freq; mag := mag; phase := phase;
           finalValue := finalValue;
           poles := poles; zeros := zeros;
           stabilityStatus := stabilityStatus |})
  end.

(** [solve], with the table of registered models as a parameter. *)
Definition solve_with (models : gmap string Model) (circuit : Circuit) (p : Params)
    : SolveResult :=
  match models !! solver circuit ≫= (λ model, (model,.) <$> func model) with
  | None => Unimplemented "This circuit solver is not yet implemented."
  | Some (model, f) =>
      match validate circuit p with
      | Some param => Error ("Invalid or missing parameter: " +:+ param)
      | None =>
          match simulate model f circuit p with
          | Normal r => r
          | Throw message => Error ("Calculation error: " +:+ message)
          end
      end
  end.

Definition solve : Circuit → Params → SolveResult := solve_with models.

End Solver.

Export Solver.

(** ** metrics.js *)

Module Metrics.

#[local] Open Scope string_scope.
#[local] Open Scope js_scope.

(** [findCrossing]: the outer [None] is [null]; the inner option is the
    value of [time[i]]. *)
Definition findCrossing (time signal : list (option num)) (target : num)
    : option (option num) :=
  let crosses (i : nat) : bool :=
    ((to_num (aget signal (i - 1)) <? target) && (to_num (aget signal i) >=? target))
    || ((to_num (aget signal (i - 1)) >? target) && (to_num (aget signal i) <=? target)) in
  (λ i, aget time i) <$> List.find crosses (seq 1 (length signal - 1)).

Record Metric := mkMetric { value : option num; unit : string }.

Record MetricsResult := mkMetrics {
  peakValue : option Metric;
  peakTime : option Metric;
  overshoot : option Metric;
  riseTime : option Metric;
  settlingTime : option Metric
}.

Definition no_metrics : MetricsResult :=
  {| peakValue := None; peakTime := None; overshoot := None;
     riseTime := None; settlingTime := None |}.

(** [Math.max(...signal)]. *)
Definition max_of (signal : list (option num)) : num :=
  foldl (λ m v, Math_max m (to_num v)) NInf signal.

(** [signal.indexOf(v)]: [None] is -1. *)
Fixpoint indexOf_from (signal : list (option num)) (v : num) (i : nat) : option nat :=
  match signal with
  | [] => None
  | Some x :: rest => if x === v then Some i else indexOf_from rest v (S i)
  | None :: rest => indexOf_from rest v (S i)
  end.

Definition indexOf (signal : list (option num)) (v : num) : option nat :=
  indexOf_from signal v 0.

(** The test of the settling loop at index [i]. *)
Definition outside_band (signal : list (option num)) (settleLower settleUpper : num)
    (i : nat) : bool :=
  (to_num (aget signal i) <? settleLower) || (to_num (aget signal i) >? settleUpper).

(** [for (let i = n - 1; i >= 0; i--) if (outside at i) { ...; break }]:
    the index at which the loop breaks, if it does. *)
Fixpoint scan_back (signal : list (option num)) (settleLower settleUpper : num)
    (n : nat) : option nat :=
  match n with
  | O => None
  | S i => if outside_band signal settleLower settleUpper i then Some i
           else scan_back signal settleLower settleUpper i
  end.

(** The body of the settling-time block: the [value] it stores. *)
Definition settling_value (time signal : list (option num)) (finalValue : num)
    : option num :=
  let len := length time in
  let settleLower := finalValue * Fin 0.98 in
  let settleUpper := finalValue * Fin 1.02 in
  let tSettle :=
    (λ i, aget time (if decide (i + 1 < len)%nat then i + 1 else i)%nat)
      <$> scan_back signal settleLower settleUpper len in
  match tSettle with
  | None => aget time 0          (* tSettle === null *)
  | Some t => t
  end.

(** [result[k]] when it holds an array. *)
Definition field (result : Traces) (k : string) : option (list (option num)) :=
  match result !! k with
  | Some (Some a) => Some a
  | _ => None
  end.

(** [calculateMetrics(result, primaryTrace, finalValue, requestedMetrics)];
    [result] is the object of the array-valued fields of a simulation
    result. *)
Definition calculateMetrics (result : Traces) (primaryTrace : string)
    (finalValue : num) (requestedMetrics : list string) : MetricsResult :=
  match field result "time", field result primaryTrace with
  | Some time, Some signal =>
      let requested (k : string) : bool := bool_decide (k ∈ requestedMetrics) in
      let m := no_metrics in
      let m :=
        if requested "peakValue" || requested "overshoot" then
          let peak := max_of signal in
          let peakT := indexOf signal peak ≫= aget time in
          {| peakValue := Some {| value := Some peak; unit := "V" |};
             peakTime := Some {| value := peakT; unit := "s" |};
             overshoot :=
               if finalValue >? Fin 1e-6
               then Some {| value := Some ((peak - finalValue) / finalValue * Fin 100);
                            unit := "%" |}
               else None;
             riseTime := riseTime m; settlingTime := settlingTime m |}
        else m in
      let m :=
        if requested "riseTime" then
          match findCrossing time signal (finalValue * Fin 0.1),
                findCrossing time signal (finalValue * Fin 0.9) with
          | Some t10, Some t90 =>
              {| peakValue := peakValue m; peakTime := peakTime m; overshoot := overshoot m;
                 riseTime := Some {| value := Some (to_num t90 - to_num t10); unit := "s" |};
                 settlingTime := settlingTime m |}
          | _, _ => m
          end
        else m in
      let m :=
        if requested "settlingTime" then
          {| peakValue := peakValue m; peakTime := peakTime m; overshoot := overshoot m;
             riseTime := riseTime m;
             settlingTime := Some {| value := settling_value time signal finalValue;
                                     unit := "s" |} |}
        else m in
      m
  | _, _ => no_metrics
  end.

(** The array-valued fields of a complete simulation result, as the object
    the presentation layer hands to [calculateMetrics]. *)
Definition result_object (r : SimulationResult) : Traces :=
  <["time" := Some (sim_time r)]>
    (<["freq" := Some (freq r)]>
      (<["mag" := Some (mag r)]>
        (<["phase" := Some (phase r)]> (timeDomain r)))).

End Metrics.

Export Metrics.

(** ** Specification-side definitions

    The objects the specification speaks of, written from its words; the
    theorems below compare them with the functions embedded from the source. *)

Module Spec.

#[local] Open Scope js_scope.

(** [y + a·x], componentwise on the state [y]. *)
Definition axpy (a : num) (x y : list num) : list num :=
  imap (λ j yj, yj + a * elt x j) y.

(** One step of classical RK4 of size [h] from [(t, s)]:
    [s + (h/6)(k1 + 2 k2 + 2 k3 + k4)]. *)
Definition rk4_update (f : odeFunc) (p : Params) (h t : num) (s : list num) : list num :=
  let k1 := f t s p in
  let k2 := f (t + h / Fin 2) (axpy (h / Fin 2) k1 s) p in
  let k3 := f (t + h / Fin 2) (axpy (h / Fin 2) k2 s) p in
  let k4 := f (t + h) (axpy h k3 s) p in
  imap (λ j sj, sj + (h / Fin 6) * (elt k1 j + Fin 2 * elt k2 j + Fin 2 * elt k3 j + elt k4 j)) s.

(** [n] samples [(t_i, s_i)] on the uniform grid of step [h] from [(t, s)]. *)
Fixpoint rk4_samples (f : odeFunc) (p : Params) (h : num) (n : nat)
    (t : num) (s : list num) : list (num * list num) :=
  match n with
  | O => []
  | S n' => (t, s) :: rk4_samples f p h n' (t + h) (rk4_update f p h t s)
  end.

(** The roots of [s² + b s + c = 0] by the quadratic formula, from
    [b] and the discriminant [d = b² - 4c]: two real roots when [0 ≤ d],
    a conjugate pair otherwise. *)
Definition real_roots (b d : R) : list Pole :=
  [ {| re := Fin ((- b + sqrt d) / 2); im := Fin 0 |};
    {| re := Fin ((- b - sqrt d) / 2); im := Fin 0 |} ].

Definition complex_roots (b d : R) : list Pole :=
  [ {| re := Fin (- b / 2); im := Fin (sqrt (- d) / 2) |};
    {| re := Fin (- b / 2); im := Fin (- (sqrt (- d) / 2)) |} ].

(** The poles of the series topology: [b = R/L], [c = 1/(LC)]. *)
Definition series_roots (r l c : R) : list Pole :=
  let b := (r / l)%R in
  let d := (b * b - 4 * (1 / (l * c)))%R in
  if bool_decide (0 <= d)%R then real_roots b d else complex_roots b d.


(** The six transfer-function tags the frequency evaluator implements. *)
Definition implemented_tags : list string :=
  ["1 / (1 + sRC)"; "R / (R + sL)"; "(sRC) / (s^2LC + sRC + 1)";
   "sL / (s^2LC + sL/R + 1)"; "1 / (s^2*C*(L1+L2) + s*C*R + 1)";
   "1 / (s^2*L*C_eq + s*R*C_eq + 1)"]%string.

(** A table entry is usable when it exists and has a derivative function. *)
Definition registered (models : gmap string Model) (circuit : Circuit) : Prop :=
  ∃ model f, models !! solver circuit = Some model ∧ func model = Some f.

(** A required parameter the router rejects: absent, or NaN. *)
Definition rejected (p : Params) (param : string) : Prop :=
  values p !! param = None ∨ values p !! param = Some NaN.

(** The steady-state value of a Step response, by topology identifier:
    [V] for RC charge and the series RLC family, [V/R] for RL energize,
    [V·R] for parallel RLC, 0 for the rest. *)
Definition steady_state_by_id (cid : string) (p : Params) : option num :=
  if decide (cid ∈ ["1-rc-charge"; "2-rlc-series"; "3-rllc-series"; "3-rlcc-series"]%string)
  then values p !! "V"%string
  else if decide (cid = "1-rl-energize"%string)
  then Some (if getp p "R" >? Fin 0 then getp p "V" / getp p "R" else Fin 0)
  else if decide (cid = "2-rlc-parallel"%string)
  then Some (getp p "V" * getp p "R")
  else Some (Fin 0).


End Spec.

Export Spec.

(** ** The presentation layer

    The trace that [MetricsDisplay], [AnalysisDisplay] and
    [exportReportToHTML] select for a circuit and hand to
    [calculateMetrics]. *)

Module Display.

#[local] Open Scope string_scope.
#[local] Open Scope js_scope.

(** The trace and the final value [MetricsDisplay] hands to
    [calculateMetrics]; [None] is the early [return null]. *)
Definition MetricsDisplay_selection (circuit : Circuit) (result : SimulationResult)
    : option (string * num) :=
  let cid := id circuit in
  if includes cid "rl-energize" then Some ("iL", to_num (finalValue result))
  else if includes cid "rc-charge" || includes cid "rlc-series"
          || includes cid "rlc-parallel" || includes cid "rllc-series"
  then Some ("Vc", to_num (finalValue result))
  else if includes cid "discharge" || includes cid "deenergize"
  then Some (if includes cid "rc" then "Vc" else "iL", Fin 0)
  else None.

Definition MetricsDisplay_metrics (circuit : Circuit) (result : SimulationResult)
    : option MetricsResult :=
  '(primaryTrace, finalValue) ← MetricsDisplay_selection circuit result;
  Some (calculateMetrics (result_object result) primaryTrace finalValue (metrics circuit)).

(** The trace [AnalysisDisplay] selects; [None] is [undefined]. *)
Definition AnalysisDisplay_primaryTrace (circuit : Circuit) : option string :=
  let cid := id circuit in
  if includes cid "rl-energize" then Some "iL"
  else if includes cid "rc-charge" || includes cid "rlc-series"
          || includes cid "rlc-parallel" || includes cid "rllc-series"
          || includes cid "rlcc-series"
  then Some "Vc"
  else if includes cid "discharge" || includes cid "deenergize"
  then Some (if includes cid "rc" then "Vc" else "iL")
  else None.

(** The same selection in [exportReportToHTML], where the third test is not
    chained to the first two. *)
Definition exportReport_primaryTrace (circuit : Circuit) : option string :=
  let cid := id circuit in
  let primaryTrace :=
    if includes cid "rl-energize" then Some "iL"
    else if includes cid "rc-charge" || includes cid "rlc-series"
            || includes cid "rlc-parallel" || includes cid "rllc-series"
            || includes cid "rlcc-series"
    then Some "Vc"
    else None in
  if includes cid "discharge" || includes cid "deenergize"
  then Some (if includes cid "rc" then "Vc" else "iL")
  else primaryTrace.

(** [transientMetrics]: the empty object when no trace is selected. *)
Definition transientMetrics (primaryTrace : option string) (circuit : Circuit)
    (result : SimulationResult) : MetricsResult :=
  match primaryTrace with
  | Some tr => calculateMetrics (result_object result) tr (to_num (finalValue result))
                                (metrics circuit)
  | None => no_metrics
  end.

End Display.

Export Display.

(** ** Notions used in the statements

    Abbreviations for the values the properties below speak of; none of
    them is part of the program. *)

Module Notions.

#[local] Open Scope js_scope.

(** The default frequencies [10^(6 i / 499)], as a list without holes. *)
Definition default_freqs : list num :=
  (λ i, Fin (Rpower 10 (INR i * 6 / 499))) <$> seq 0 500.

(** The two values one iteration of a sweep stores for the angular
    frequency [w]: the gain in decibels and the phase in degrees of [H w]. *)
Definition mag_dB (H : num → complex) (w : num) : num := Fin 20 * Math_log10 (cMag (H w)).
Definition phase_deg (H : num → complex) (w : num) : num := cPhase (H w) * Fin 180 / Fin PI.




(** The array of the finite samples [x 0 .. x (n - 1)]. *)
Definition trace_of (x : nat → R) (n : nat) : list (option num) :=
  (λ i, Some (Fin (x i))) <$> seq 0 n.

End Notions.

Export Notions.

(** * Properties *)

#[local] Open Scope js_scope.

(** ** Arithmetic of [num] *)

Lemma nmul_comm (a b : num) : a * b = b * a.
Proof.
  destruct a as [x| | |], b as [y| | |]; simpl; try reflexivity.
  all: try (f_equal; lra).
  all: try (destruct (sign (Fin x)) as [[]|]; reflexivity).
  all: try (destruct (sign (Fin y)) as [[]|]; reflexivity).
Qed.

Lemma half_mul (a : num) : Fin 0.5 * a = a / Fin 2.
Proof.
  destruct a as [x| | |]; simpl; try reflexivity.
  - destruct (decide (2 = 0)%R) as [E|_]; [lra|]. f_equal. lra.
  - destruct (decide (0 < 0.5)%R) as [_|E]; [|lra]. simpl.
    rewrite bool_decide_eq_true_2 by lra. reflexivity.
  - destruct (decide (0 < 0.5)%R) as [_|E]; [|lra]. simpl.
    rewrite bool_decide_eq_true_2 by lra. reflexivity.
Qed.

Section FiniteArith.
Implicit Types x y : R.

Lemma nadd_fin x y : Fin x + Fin y = Fin (x + y).
Proof. reflexivity. Qed.
Lemma nsub_fin x y : Fin x - Fin y = Fin (x - y).
Proof. reflexivity. Qed.
Lemma nmul_fin x y : Fin x * Fin y = Fin (x * y).
Proof. reflexivity. Qed.
Lemma nneg_fin x : - Fin x = Fin (- x).
Proof. reflexivity. Qed.
Lemma ndiv_fin x y : y ≠ 0%R → Fin x / Fin y = Fin (x / y).
Proof. intros Hy. simpl. rewrite decide_False by exact Hy. reflexivity. Qed.
Lemma sqrt_fin x : (0 <= x)%R → Math_sqrt (Fin x) = Fin (sqrt x).
Proof. intros Hx. simpl. rewrite decide_False by lra. reflexivity. Qed.
Lemma abs_fin x : Math_abs (Fin x) = Fin (Rabs x).
Proof. reflexivity. Qed.
Lemma ltb_fin x y : (Fin x <? Fin y) = bool_decide (x < y)%R.
Proof. reflexivity. Qed.
Lemma leb_fin x y : (Fin x <=? Fin y) = bool_decide (x <= y)%R.
Proof. reflexivity. Qed.
Lemma gtb_fin x y : (Fin x >? Fin y) = bool_decide (y < x)%R.
Proof. reflexivity. Qed.
Lemma geb_fin x y : (Fin x >=? Fin y) = bool_decide (y <= x)%R.
Proof. reflexivity. Qed.
Lemma truthy_fin x : truthy (Fin x) = bool_decide (x ≠ 0%R).
Proof. reflexivity. Qed.

End FiniteArith.

(** Evaluate the arithmetic of finite numbers, leaving real side conditions
    to [lra]. *)
Ltac fin_arith :=
  repeat first
    [ rewrite nadd_fin | rewrite nsub_fin | rewrite nmul_fin | rewrite nneg_fin
    | rewrite abs_fin | rewrite ltb_fin | rewrite leb_fin | rewrite gtb_fin
    | rewrite geb_fin | rewrite truthy_fin
    | rewrite ndiv_fin by (try lra; try nra)
    | rewrite sqrt_fin by (try lra; try nra) ].

(** Decide a boolean test on reals by [lra]/[nra]. *)
Ltac decide_by tac :=
  repeat match goal with
  | |- context [bool_decide ?P] =>
      first [ rewrite (bool_decide_eq_true_2 P) by tac
            | rewrite (bool_decide_eq_false_2 P) by tac ]
  end.

Ltac rabs := unfold Rabs; repeat destruct (Rcase_abs _); lra.

Lemma nsub_fin_assoc (a : num) (x y : R) : a - Fin x - Fin y = a - Fin (x + y).
Proof. destruct a; simpl; try reflexivity. f_equal. lra. Qed.

Lemma ln10_pos : (0 < ln 10)%R.
Proof. rewrite <- ln_1. apply ln_increasing; lra. Qed.

Lemma log10_1 : Math_log10 (Fin 1) = Fin 0.
Proof.
  simpl. rewrite decide_False by lra. rewrite decide_False by lra.
  rewrite ln_1. f_equal. pose proof ln10_pos. field. lra.
Qed.

Lemma log10_1e6 : Math_log10 (Fin 1e6) = Fin 6.
Proof.
  simpl. rewrite decide_False by lra. rewrite decide_False by lra.
  f_equal. pose proof ln10_pos.
  replace 1e6%R with (10 ^ 6)%R by lra.
  rewrite ln_pow by lra. simpl INR. field. lra.
Qed.

Lemma log10_pow10 (x : R) : Math_log10 (Math_pow10 (Fin x)) = Fin x.
Proof.
  pose proof ln10_pos.
  assert (Hp : (0 < Rpower 10 x)%R) by (unfold Rpower; apply exp_pos).
  simpl. rewrite decide_False by lra. rewrite decide_False by lra.
  f_equal. unfold Rpower. rewrite ln_exp. field. lra.
Qed.

(** ** Arrays *)

Section ArrayFacts.
Context {A : Type}.
Implicit Types (a pre rest : list (option A)) (v : A).

Lemma aset_middle pre o rest i v :
  length pre = i → aset (pre ++ o :: rest) i v = pre ++ Some v :: rest.
Proof.
  intros <-. unfold aset.
  rewrite decide_True by (rewrite length_app; simpl; lia).
  rewrite insert_app_r_alt by lia. rewrite Nat.sub_diag. reflexivity.
Qed.

Lemma aset_end a v : aset a (length a) v = a ++ [Some v].
Proof.
  unfold aset. rewrite decide_False by lia. rewrite Nat.sub_diag. reflexivity.
Qed.

Lemma aget_of_list (l : list A) j : aget (of_list l) j = l !! j.
Proof.
  unfold aget, of_list. rewrite list_lookup_fmap. destruct (l !! j); reflexivity.
Qed.

Lemma fill_loop (x : A) k pre :
  foldl (λ s i, aset s i x) (pre ++ replicate k None) (seq (length pre) k)
  = pre ++ replicate k (Some x).
Proof.
  revert pre. induction k as [|k IH]; intros pre; simpl; [reflexivity|].
  rewrite aset_middle by reflexivity.
  replace (pre ++ Some x :: replicate k None) with ((pre ++ [Some x]) ++ replicate k None)
    by (rewrite <- app_assoc; reflexivity).
  replace (S (length pre)) with (length (pre ++ [Some x])) by (rewrite length_app; simpl; lia).
  rewrite IH. rewrite <- app_assoc. reflexivity.
Qed.

End ArrayFacts.

Lemma init_states {A : Type} (x : A) (n : nat) :
  for_loop 0 n (λ s i, aset s i x) (new_Array n) = replicate n (Some x).
Proof.
  unfold for_loop, new_Array. rewrite Nat.sub_0_r.
  exact (fill_loop x n []).
Qed.

Lemma aset_head {A : Type} (o : option A) (l : list (option A)) (v : A) :
  aset (o :: l) 0 v = Some v :: l.
Proof. exact (aset_middle [] o l 0 v eq_refl). Qed.

Lemma tabulate_loop {A : Type} (g : nat → A) (k : nat) (pre : list (option A)) :
  foldl (λ s i, aset s i (g i)) (pre ++ replicate k None) (seq (length pre) k)
  = pre ++ ((λ i, Some (g i)) <$> seq (length pre) k).
Proof.
  revert pre. induction k as [|k IH]; intros pre; [reflexivity|].
  cbn [replicate seq foldl]. rewrite aset_middle by reflexivity.
  replace (pre ++ Some (g (length pre)) :: replicate k None)
    with ((pre ++ [Some (g (length pre))]) ++ replicate k None)
    by (rewrite <- app_assoc; reflexivity).
  replace (S (length pre)) with (length (pre ++ [Some (g (length pre))]))
    by (rewrite length_app; simpl; lia).
  rewrite IH. rewrite <- app_assoc. rewrite length_app. cbn [length app fmap list_fmap].
  replace (length pre + 1)%nat with (S (length pre)) by lia. reflexivity.
Qed.

Lemma tabulate {A : Type} (g : nat → A) (n : nat) :
  for_loop 0 n (λ s i, aset s i (g i)) (new_Array n) = (λ i, Some (g i)) <$> seq 0 n.
Proof.
  unfold for_loop, new_Array. rewrite Nat.sub_0_r. exact (tabulate_loop g n []).
Qed.

(** ** The integrator *)

Section RK4.
Context (f : odeFunc) (p : Params).

Lemma add_axpy (s k : list num) (a : num) : add s k a = axpy a k s.
Proof.
  unfold add, axpy. apply imap_ext. intros j x _. simpl. rewrite nmul_comm. reflexivity.
Qed.

Lemma step_state (dt : num) (st : LoopState) (i : nat) :
  ls_currentState (solveODE_step f p dt st i)
  = rk4_update f p dt (ls_t st) (ls_currentState st).
Proof.
  unfold solveODE_step, rk4_update. cbn [ls_currentState ls_t].
  rewrite !add_axpy, !half_mul. reflexivity.
Qed.

Lemma loop_trace (dt : num) (k : nat) :
  ∀ (pre_t rest_t : list (option num)) (pre_s rest_s : list (option (list (option num))))
    (t : num) (s : list num),
    length pre_t = length pre_s → length rest_t = k → length rest_s = k →
    let st := foldl (solveODE_step f p dt)
                {| ls_t := t; ls_currentState := s;
                   ls_time := pre_t ++ rest_t; ls_states := pre_s ++ rest_s |}
                (seq (length pre_t) k) in
    let tail := rk4_samples f p dt k (t + dt) (rk4_update f p dt t s) in
    ls_time st = pre_t ++ ((λ x, Some x.1) <$> tail)
    ∧ ls_states st = pre_s ++ ((λ x, Some (of_list x.2)) <$> tail).
Proof.
  induction k as [|k IH]; intros pre_t rest_t pre_s rest_s t s Hpre Ht Hs.
  - destruct rest_t; [|discriminate]. destruct rest_s; [|discriminate].
    simpl. rewrite !app_nil_r. split; reflexivity.
  - destruct rest_t as [|o rest_t]; [discriminate|].
    destruct rest_s as [|o' rest_s]; [discriminate|].
    injection Ht as Ht. injection Hs as Hs.
    cbn [seq foldl rk4_samples fmap list_fmap].
    set (st1 := solveODE_step f p dt _ _).
    assert (E : st1 = {| ls_t := t + dt;
                         ls_currentState := rk4_update f p dt t s;
                         ls_time := (pre_t ++ [Some (t + dt)]) ++ rest_t;
                         ls_states := (pre_s ++ [Some (of_list (rk4_update f p dt t s))])
                                        ++ rest_s |}).
    { pose proof (step_state dt
        {| ls_t := t; ls_currentState := s;
           ls_time := pre_t ++ o :: rest_t; ls_states := pre_s ++ o' :: rest_s |}
        (length pre_t)) as Hst.
      subst st1. unfold solveODE_step in Hst |- *.
      cbn [ls_t ls_currentState ls_time ls_states] in Hst |- *.
      rewrite Hst.
      rewrite aset_middle by reflexivity.
      rewrite aset_middle by (symmetry; exact Hpre).
      rewrite <- !app_assoc. reflexivity. }
    rewrite E.
    replace (S (length pre_t)) with (length (pre_t ++ [Some (t + dt)]))
      by (rewrite length_app; simpl; lia).
    specialize (IH (pre_t ++ [Some (t + dt)]) rest_t
                   (pre_s ++ [Some (of_list (rk4_update f p dt t s))]) rest_s
                   (t + dt) (rk4_update f p dt t s)).
    destruct IH as [IH1 IH2]; [rewrite !length_app; simpl; lia|exact Ht|exact Hs|].
    cbv zeta in IH1, IH2 |- *. rewrite IH1, IH2, <- !app_assoc. split; reflexivity.
Qed.
End RK4.

Lemma rk4_samples_length f p h n t s : length (rk4_samples f p h n t s) = n.
Proof. revert t s. induction n as [|n IH]; intros t s; simpl; [|rewrite IH]; reflexivity. Qed.

Lemma rk4_update_length f p h t s : length (rk4_update f p h t s) = length s.
Proof. unfold rk4_update. apply length_imap. Qed.

Lemma rk4_samples_dim f p h n t s x :
  x ∈ rk4_samples f p h n t s → length x.2 = length s.
Proof.
  revert t s. induction n as [|n IH]; intros t s Hx; simpl in Hx.
  - apply elem_of_nil in Hx. destruct Hx.
  - apply elem_of_cons in Hx as [->|Hx]; [reflexivity|].
    rewrite (IH _ _ Hx). apply rk4_update_length.
Qed.

Lemma rk4_samples_succ f p h n t0 s0 i t s :
  rk4_samples f p h n t0 s0 !! i = Some (t, s) → (S i < n)%nat →
  rk4_samples f p h n t0 s0 !! S i = Some (t + h, rk4_update f p h t s).
Proof.
  revert t0 s0 i. induction n as [|n IH]; intros t0 s0 i Hi Hlt; [lia|].
  destruct i as [|i]; simpl in Hi |- *.
  - injection Hi as -> ->. destruct n; [lia|]. reflexivity.
  - apply IH; [exact Hi|lia].
Qed.

Lemma solveODE_unfold f init p tStart tEnd n :
  let h := (tEnd - tStart) / (of_nat (S n) - Fin 1) in
  let samples := rk4_samples f p h (S n) tStart init in
  time (solveODE f init p tStart tEnd (S n)) = (λ x, Some x.1) <$> samples
  ∧ ys (solveODE f init p tStart tEnd (S n))
    = (λ j, (λ x, x.2 !! j) <$> samples) <$> seq 0 (length init).
Proof.
  intros h samples. unfold solveODE. fold h. cbv zeta.
  rewrite init_states.
  change (@new_Array num (S n)) with (@None num :: replicate n None).
  cbn [replicate time ys].
  rewrite !aset_head. unfold for_loop.
  replace (S n - 1)%nat with n by lia.
  destruct (loop_trace f p h n [Some tStart] (replicate n None)
              [Some (of_list init)] (replicate n (Some (new_Array (length init))))
              tStart init) as [Ht Hs];
    [reflexivity|apply length_replicate|apply length_replicate|].
  cbv zeta in Ht, Hs. cbn [length app] in Ht, Hs.
  rewrite Ht, Hs. split; [reflexivity|].
  apply list_fmap_ext. intros _ j _.
  unfold amap_opt. subst samples. cbn [rk4_samples]. rewrite !fmap_cons.
  cbn [mbind option_bind]. rewrite aget_of_list. f_equal.
  rewrite <- list_fmap_compose. apply list_fmap_ext. intros _ x _. simpl.
  apply aget_of_list.
Qed.

Lemma ys_length f init p a b n : length (ys (solveODE f init p a b n)) = length init.
Proof. unfold solveODE. cbn [ys]. rewrite length_fmap. apply length_seq. Qed.

(** C1 (amended to point counts of at least one).  For every derivative
    function, initial state, parameter set, start and end time, and every
    point count [points ≥ 1], [solveODE] produces exactly [points] samples;
    the first one is [(tStart, initialState)], and each next one is the
    previous time plus [h = (tEnd - tStart)/(points - 1)] with the previous
    state advanced by the classical RK4 update
    [s + (h/6)(k1 + 2 k2 + 2 k3 + k4)].  The field [y<j>] of the result is
    the sequence of the [j]-th components of the states. *)
Theorem C1_solveODE_rk4 (f : odeFunc) (init : list num) (p : Params)
    (tStart tEnd : num) (points : nat) :
  (1 ≤ points)%nat →
  let h := (tEnd - tStart) / (of_nat points - Fin 1) in
  let samples := rk4_samples f p h points tStart init in
  let r := solveODE f init p tStart tEnd points in
  length (time r) = points
  ∧ time r = (λ x, Some x.1) <$> samples
  ∧ ys r = (λ j, (λ x, x.2 !! j) <$> samples) <$> seq 0 (length init)
  ∧ samples !! 0%nat = Some (tStart, init)
  ∧ (∀ i t s, samples !! i = Some (t, s) → (S i < points)%nat →
       samples !! S i = Some (t + h, rk4_update f p h t s))
  ∧ (∀ x, x ∈ samples → length x.2 = length init).
Proof.
  intros Hpoints h samples r.
  destruct points as [|n]; [lia|].
  destruct (solveODE_unfold f init p tStart tEnd n) as [Ht Hy].
  fold h samples r in Ht, Hy.
  split; [rewrite Ht, length_fmap; apply rk4_samples_length|].
  split; [exact Ht|]. split; [exact Hy|]. split; [reflexivity|].
  split.
  - intros i t s. apply rk4_samples_succ.
  - intros x. apply rk4_samples_dim.
Qed.

Lemma C1_solveODE_rk4_witness :
  (1 ≤ 3)%nat
  ∧ length (time (solveODE rcOde [Fin 0] (mkParams ∅ (Some "Step"%string))
                           (Fin 0) (Fin 1) 3)) = 3%nat.
Proof.
  split; [lia|].
  exact (proj1 (C1_solveODE_rk4 rcOde [Fin 0] (mkParams ∅ (Some "Step"%string))
                                (Fin 0) (Fin 1) 3 ltac:(lia))).
Defined.

(** C1, as stated for every point count, fails at [points = 0]: writing
    [time[0]] extends the empty array, so one sample is produced. *)
Lemma C1_zero_points_counterexample :
  let r := solveODE rcOde [Fin 0] (mkParams ∅ (Some "Step"%string)) (Fin 0) (Fin 1) 0 in
  time r = [Some (Fin 0)] ∧ length (time r) ≠ 0%nat.
Proof. split; [reflexivity|discriminate]. Qed.

(** ** The frequency vector *)

Lemma generateFrequencyVector_eq (fMin fMax : num) (points : nat) :
  generateFrequencyVector fMin fMax points
  = (λ i, Some (Math_pow10
                  (Math_log10 fMin
                   + of_nat i * ((Math_log10 fMax - Math_log10 fMin)
                                 / (of_nat points - Fin 1)))))
    <$> seq 0 points.
Proof. unfold generateFrequencyVector. apply tabulate. Qed.

(** The real exponent of the [i]-th default frequency. *)
Lemma default_exponent (i : nat) :
  Math_log10 (Fin 1)
  + of_nat i * ((Math_log10 (Fin 1e6) - Math_log10 (Fin 1)) / (of_nat 500 - Fin 1))
  = Fin (INR i * 6 / 499).
Proof.
  rewrite log10_1, log10_1e6. unfold of_nat.
  replace (Z.of_nat 500) with 500%Z by reflexivity.
  rewrite <- INR_IZR_INZ. fin_arith. f_equal. lra.
Qed.

Lemma default_freq_lookup (i : nat) :
  (i < 500)%nat →
  aget generateFrequencyVector_default i = Some (Fin (Rpower 10 (INR i * 6 / 499))).
Proof.
  intros Hi. unfold generateFrequencyVector_default.
  rewrite generateFrequencyVector_eq. unfold aget.
  rewrite list_lookup_fmap, lookup_seq_lt by exact Hi.
  cbn [fmap option_fmap option_map Nat.add]. rewrite default_exponent. reflexivity.
Qed.

Lemma default_freq_length : length generateFrequencyVector_default = 500%nat.
Proof.
  unfold generateFrequencyVector_default. rewrite generateFrequencyVector_eq.
  rewrite length_fmap. apply length_seq.
Qed.

(** C5.  The frequency vector generated with the default arguments has
    exactly 500 points from 1 Hz to 1 MHz,
    [f_i = 10^(log10 fMin + i (log10 fMax - log10 fMin)/(points - 1))];
    it is strictly increasing, and the difference of the base-10 logarithms
    of adjacent points is the same constant [6/499] for every pair. *)
Theorem C5_frequency_vector :
  let freq := generateFrequencyVector_default in
  length freq = 500%nat
  ∧ (∀ i, (i < 500)%nat →
       aget freq i
       = Some (Math_pow10
                 (Math_log10 (Fin 1)
                  + of_nat i * ((Math_log10 (Fin 1e6) - Math_log10 (Fin 1))
                                / (of_nat 500 - Fin 1)))))
  ∧ (∀ i, (i < 500)%nat → aget freq i = Some (Fin (Rpower 10 (INR i * 6 / 499))))
  ∧ aget freq 0 = Some (Fin 1)
  ∧ aget freq 499 = Some (Fin 1e6)
  ∧ (∀ i j x y, (i < j < 500)%nat → aget freq i = Some x → aget freq j = Some y →
       (x <? y) = true)
  ∧ (∀ i x y, (i + 1 < 500)%nat → aget freq i = Some x → aget freq (i + 1) = Some y →
       Math_log10 y - Math_log10 x = Fin (6 / 499)).
Proof.
  intros freq. subst freq.
  split; [exact default_freq_length|].
  split.
  { intros i Hi. unfold generateFrequencyVector_default.
    rewrite generateFrequencyVector_eq. unfold aget.
    rewrite list_lookup_fmap, lookup_seq_lt by exact Hi. reflexivity. }
  split; [exact default_freq_lookup|].
  split.
  { rewrite default_freq_lookup by lia. do 2 f_equal.
    replace (INR 0 * 6 / 499)%R with 0%R by (simpl; lra).
    apply Rpower_O. lra. }
  split.
  { rewrite default_freq_lookup by lia. do 2 f_equal.
    replace (INR 499 * 6 / 499)%R with (INR 6).
    - rewrite Rpower_pow by lra. lra.
    - assert (H : INR 499 = 499%R) by (rewrite INR_IZR_INZ; reflexivity).
      rewrite H. simpl. lra. }
  split.
  { intros i j x y [Hij Hj] Hx Hy.
    rewrite default_freq_lookup in Hx by lia. rewrite default_freq_lookup in Hy by lia.
    injection Hx as <-. injection Hy as <-.
    rewrite ltb_fin. apply bool_decide_eq_true_2.
    apply Rpower_lt; [lra|]. apply lt_INR in Hij. lra. }
  intros i x y Hi Hx Hy.
  rewrite default_freq_lookup in Hx by lia. rewrite default_freq_lookup in Hy by lia.
  injection Hx as <-. injection Hy as <-.
  change (Fin (Rpower 10 ?e)) with (Math_pow10 (Fin e)).
  rewrite !log10_pow10. fin_arith. f_equal. rewrite plus_INR. simpl. lra.
Qed.

(** ** The pole analyzer *)

Section Assess.
Variables (a1 i1 a2 i2 : R).
Hypotheses (Ha1 : (a1 < 0)%R) (Ha2 : (a2 < 0)%R).

Local Abbreviation roots :=
  [ {| re := Fin a1; im := Fin i1 |}; {| re := Fin a2; im := Fin i2 |} ].


Lemma assess_slow_pole :
  (- 1e-9 <= a1)%R → (a2 < - 1e-9)%R →
  status (assess_stability roots) = "Marginally Stable"%string.
Proof.
  intros H1 H2.
  unfold assess_stability, tol. cbn [existsb re im List.filter].
  fin_arith. decide_by lra. cbn [orb].
  decide_by rabs. reflexivity.
Qed.
End Assess.

Section Poles.
Variables (r l c : R).
Hypotheses (Hl : (0 < l)%R) (Hc : (0 < c)%R).

Local Abbreviation b := (r / l)%R.
Local Abbreviation c0 := (1 / (l * c))%R.
Local Abbreviation d := (b * b - 4 * c0)%R.

Lemma lc_pos : (0 < l * c)%R.
Proof. apply Rmult_lt_0_compat; assumption. Qed.

Lemma c0_pos : (0 < c0)%R.
Proof. apply Rdiv_lt_0_compat; [lra|apply lc_pos]. Qed.

Lemma calc_finite :
  calculatePolesAndStability (Fin r) (Fin l) (Fin c)
  = {| pz_poles := series_roots r l c;
       pz_stabilityStatus := assess_stability (series_roots r l c) |}.
Proof.
  pose proof lc_pos as Hlc.
  unfold calculatePolesAndStability, series_roots.
  fin_arith. decide_by lra. cbn [negb orb].
  destruct (bool_decide (0 <= d)%R) eqn:Hd.
  - apply bool_decide_eq_true_1 in Hd. fin_arith. reflexivity.
  - apply bool_decide_eq_false_1 in Hd. fin_arith. reflexivity.
Qed.

Lemma sqrt_disc_sq : (0 <= d)%R → (sqrt d * sqrt d = d)%R.
Proof. intros Hd. apply sqrt_sqrt. exact Hd. Qed.

Lemma sqrt_neg_disc_sq : (d < 0)%R → (sqrt (- d) * sqrt (- d) = - d)%R.
Proof. intros Hd. apply sqrt_sqrt. lra. Qed.

End Poles.

(** C3.  For R, L, C > 0 the pole analyzer returns exactly two poles of the
    quadratic [s² + (R/L) s + 1/(LC)]: two real poles [(-b ± sqrt d)/2] with
    zero imaginary part when the discriminant [d = b² - 4c] is non-negative,
    otherwise the conjugate pair [-b/2 ± i sqrt(4c - b²)/2]; in both cases
    [p1 + p2 = -R/L] and [p1·p2 = 1/(LC)] as complex numbers. *)
Theorem C3_series_poles (r l c : R) :
  (0 < r)%R → (0 < l)%R → (0 < c)%R →
  let b := (r / l)%R in
  let c0 := (1 / (l * c))%R in
  let d := (b * b - 4 * c0)%R in
  ∃ re1 im1 re2 im2 : R,
    pz_poles (calculatePolesAndStability (Fin r) (Fin l) (Fin c))
    = [ {| re := Fin re1; im := Fin im1 |}; {| re := Fin re2; im := Fin im2 |} ]
    ∧ ((0 <= d)%R →
       re1 = ((- b + sqrt d) / 2)%R ∧ im1 = 0%R ∧
       re2 = ((- b - sqrt d) / 2)%R ∧ im2 = 0%R)
    ∧ ((d < 0)%R →
       re1 = (- b / 2)%R ∧ im1 = (sqrt (4 * c0 - b * b) / 2)%R ∧
       re2 = (- b / 2)%R ∧ im2 = (- (sqrt (4 * c0 - b * b) / 2))%R)
    ∧ (re1 + re2 = - r / l)%R ∧ (im1 + im2 = 0)%R
    ∧ (re1 * re2 - im1 * im2 = 1 / (l * c))%R
    ∧ (re1 * im2 + im1 * re2 = 0)%R.
Proof.
  intros Hr Hl Hc b c0 d.
  rewrite (calc_finite r l c Hl Hc). cbn [pz_poles]. unfold series_roots.
  fold b. fold c0. fold d.
  destruct (bool_decide (0 <= d)%R) eqn:Hd.
  - apply bool_decide_eq_true_1 in Hd.
    pose proof (sqrt_sqrt d Hd) as Hs.
    exists ((- b + sqrt d) / 2)%R, 0%R, ((- b - sqrt d) / 2)%R, 0%R.
    split; [reflexivity|]. split; [intros _; repeat split; reflexivity|].
    split; [intros Hneg; lra|].
    repeat split; unfold d, c0, b in *; lra.
  - apply bool_decide_eq_false_1 in Hd. apply Rnot_le_lt in Hd.
    assert (Hs : (sqrt (- d) * sqrt (- d) = - d)%R) by (apply sqrt_sqrt; lra).
    assert (Hdd : (4 * c0 - b * b = - d)%R) by (subst d; lra).
    exists (- b / 2)%R, (sqrt (- d) / 2)%R, (- b / 2)%R, (- (sqrt (- d) / 2))%R.
    split; [reflexivity|]. split; [intros Hpos; lra|].
    split; [intros _; rewrite Hdd; repeat split; reflexivity|].
    repeat split; unfold d, c0, b in *; lra.
Qed.

Lemma C3_series_poles_witness :
  (0 < 50)%R ∧ (0 < 0.01)%R ∧ (0 < 1e-6)%R
  ∧ length (pz_poles (calculatePolesAndStability (Fin 50) (Fin 0.01) (Fin 1e-6))) = 2%nat.
Proof.
  split; [lra|]. split; [lra|]. split; [lra|].
  destruct (C3_series_poles 50 0.01 1e-6 ltac:(lra) ltac:(lra) ltac:(lra))
    as (re1 & im1 & re2 & im2 & Hp & _).
  rewrite Hp. reflexivity.
Defined.


(** At R = 0 the analyzer itself, called directly, classifies the conjugate
    pair on the imaginary axis as repeated. *)
Lemma analyzer_undamped (l c : R) :
  (0 < l)%R → (0 < c)%R →
  status (pz_stabilityStatus (calculatePolesAndStability (Fin 0) (Fin l) (Fin c)))
  = "Unstable"%string.
Proof.
  intros Hl Hc. rewrite (calc_finite 0 l c Hl Hc). cbn [pz_stabilityStatus].
  pose proof (lc_pos l c Hl Hc) as Hlc.
  assert (Hc0 : (0 < 1 / (l * c))%R) by (apply Rdiv_lt_0_compat; lra).
  unfold series_roots. replace (0 / l)%R with 0%R by (field; lra).
  rewrite bool_decide_eq_false_2 by lra.
  unfold complex_roots, assess_stability, tol. cbn [existsb re im List.filter].
  fin_arith. decide_by ltac:(rabs). cbn [orb].
  decide_by ltac:(rabs). cbn [im]. fin_arith. decide_by ltac:(rabs).
  rewrite orb_true_r. reflexivity.
Qed.

(** ** The router *)

(** The router runs the integrator over a thousand points and the sweep
    over five hundred: keep both folded while reasoning about results. *)
#[global] Opaque default_points generateFrequencyVector_default.

Lemma amapM_from_pure {A B : Type} (g : A → nat → B) (a : list (option A)) (i : nat) :
  ∃ r, amapM_from (λ v j, Normal (g v j)) i a = Normal r.
Proof.
  revert i. induction a as [|[v|] a IH]; intros i; cbn [amapM_from].
  - eexists. reflexivity.
  - destruct (IH (S i)) as [r ->]. eexists. reflexivity.
  - destruct (IH (S i)) as [r ->]. eexists. reflexivity.
Qed.

Lemma amapM_pure {A B : Type} (g : A → nat → B) (a : list (option A)) :
  ∃ r, amapM (λ v j, Normal (g v j)) a = Normal r.
Proof. apply amapM_from_pure. Qed.

Ltac map_normal :=
  let res := fresh "res" in let p := fresh "p" in let Hy := fresh "Hy" in
  let E := fresh "E" in
  intros res p Hy;
  destruct (ys res) as [|? [|? [|? [|]]]] eqn:E; try discriminate;
  unfold y, map_of; rewrite E;
  cbn [lookup list_lookup index mbind completion_bind];
  repeat match goal with
  | |- context [amapM (λ v j, Normal (@?g v j)) ?a] =>
      let r := fresh "r" in
      destruct (amapM_pure g a) as [r ->];
      cbn [mbind completion_bind]
  end;
  eexists; reflexivity.

Lemma models_cases (name : string) (model : Model) :
  models !! name = Some model →
  ∃ f init k, func model = Some f
    ∧ (∀ p, match initialState model with
            | InitArray s => s | InitFunction g => g p end = init p)
    ∧ (∀ p, length (init p) = k)
    ∧ ∀ res p, length (ys res) = k → ∃ td, map model res p = Normal td.
Proof.
  intros Hm. unfold models in Hm. apply elem_of_list_to_map_2 in Hm.
  repeat (apply elem_of_cons in Hm as [Hm|Hm]); try (apply elem_of_nil in Hm; destruct Hm);
    injection Hm as -> ->; cbn [func initialState map].
  - exists rcOde, (λ _, [Fin 0]), 1%nat. repeat split. map_normal.
  - exists rcOde, (λ p, [getp p "V0"]), 1%nat. repeat split. map_normal.
  - exists rlOde, (λ _, [Fin 0]), 1%nat. repeat split. map_normal.
  - exists rlOde, (λ p, [getp p "I0"]), 1%nat. repeat split. map_normal.
  - exists rlcOde, (λ _, [Fin 0; Fin 0]), 2%nat. repeat split. map_normal.
  - exists rllcOde, (λ _, [Fin 0; Fin 0]), 2%nat. repeat split. map_normal.
  - exists rlccOde, (λ _, [Fin 0; Fin 0; Fin 0]), 3%nat. repeat split. map_normal.
  - exists rlcParallelOde, (λ _, [Fin 0; Fin 0]), 2%nat. repeat split. map_normal.
Qed.

Lemma freq_complete (c : Circuit) (p : Params) :
  ∃ mag phase,
    solveFrequencyResponse c p = FreqComplete generateFrequencyVector_default mag phase.
Proof.
  unfold solveFrequencyResponse. cbv zeta.
  match goal with |- context [let '(m, ph) := ?X in _] => destruct X as [m ph] end.
  eexists _, _. reflexivity.
Qed.

(** The initial state and the integration the router runs for a model. *)
Lemma simulate_normal (model : Model) (f : odeFunc) (c : Circuit) (p : Params) (td : Traces) :
  let init := match initialState model with
              | InitFunction g => g p | InitArray s => s end in
  let ode := solveODE f init p (Fin 0) (getp p "tEnd") default_points in
  map model ode p = Normal td →
  ∃ mag phase,
    solveFrequencyResponse c p = FreqComplete generateFrequencyVector_default mag phase
    ∧ simulate model f c p
      = Normal (Complete
          {| timeDomain := foldr delete td result_keys;
             sim_time := time ode;
             freq := generateFrequencyVector_default; mag := mag; phase := phase;
             finalValue := steady_state c p;
             poles := (analysis c p).1.1; zeros := (analysis c p).1.2;
             stabilityStatus := (analysis c p).2 |}).
Proof.
  intros init ode Hmap.
  destruct (freq_complete c p) as (mag & phase & Hfreq).
  exists mag, phase. split; [exact Hfreq|].
  unfold simulate. fold init. fold ode. rewrite Hmap. cbn [mbind completion_bind].
  rewrite Hfreq. destruct (analysis c p) as [[po ze] st]. reflexivity.
Qed.

Lemma solve_with_registered (tbl : gmap string Model) (c : Circuit) (p : Params)
    (model : Model) (f : odeFunc) :
  tbl !! solver c = Some model → func model = Some f →
  solve_with tbl c p
  = match validate c p with
    | Some param => Error ("Invalid or missing parameter: " +:+ param)
    | None => match simulate model f c p with
              | Normal r => r
              | Throw message => Error ("Calculation error: " +:+ message)
              end
    end.
Proof.
  intros Hm Hf. unfold solve_with. rewrite Hm. cbn [mbind option_bind].
  rewrite Hf. reflexivity.
Qed.

Lemma solve_with_unregistered (tbl : gmap string Model) (c : Circuit) (p : Params) :
  ¬ registered tbl c →
  solve_with tbl c p = Unimplemented "This circuit solver is not yet implemented.".
Proof.
  intros Hn. unfold solve_with.
  destruct (tbl !! solver c) as [model|] eqn:Hm; [|reflexivity].
  cbn [mbind option_bind]. destruct (func model) as [f|] eqn:Hf; [|reflexivity].
  exfalso. apply Hn. exists model, f. split; assumption.
Qed.

Lemma solve_valid (c : Circuit) (p : Params) :
  registered models c → validate c p = None →
  ∃ model f td mag phase,
    models !! solver c = Some model ∧ func model = Some f
    ∧ solveFrequencyResponse c p = FreqComplete generateFrequencyVector_default mag phase
    ∧ let init := match initialState model with
                  | InitFunction g => g p | InitArray s => s end in
      let ode := solveODE f init p (Fin 0) (getp p "tEnd") default_points in
      map model ode p = Normal td
      ∧ solve c p = Complete
          {| timeDomain := foldr delete td result_keys;
             sim_time := time ode;
             freq := generateFrequencyVector_default; mag := mag; phase := phase;
             finalValue := steady_state c p;
             poles := (analysis c p).1.1; zeros := (analysis c p).1.2;
             stabilityStatus := (analysis c p).2 |}.
Proof.
  intros (model & f & Hm & Hf) Hv.
  destruct (models_cases _ _ Hm) as (f' & init & k & Hf' & Hinit & Hk & Hmap).
  rewrite Hf in Hf'. injection Hf' as <-.
  destruct (Hmap (solveODE f
            match initialState model with
            | InitFunction g => g p | InitArray s => s end
            p (Fin 0) (getp p "tEnd") default_points) p) as [td Hmap'].
  { rewrite ys_length. rewrite <- (Hk p), <- (Hinit p).
    destruct (initialState model); reflexivity. }
  destruct (simulate_normal model f c p td Hmap') as (mag & phase & Hfreq & Hsim).
  exists model, f, td, mag, phase.
  split; [exact Hm|]. split; [exact Hf|]. split; [exact Hfreq|].
  cbv zeta. split; [exact Hmap'|].
  unfold solve. rewrite (solve_with_registered _ _ _ _ _ Hm Hf), Hv, Hsim. reflexivity.
Qed.


Lemma invalid_rejected (p : Params) (param : string) :
  invalid p param = true ↔ rejected p param.
Proof.
  unfold invalid, rejected. destruct (values p !! param) as [v|].
  - destruct v; simpl; split; intros H; try discriminate; try (right; reflexivity);
      try reflexivity; destruct H as [H|H]; discriminate.
  - split; [intros _; left; reflexivity|reflexivity].
Qed.


Lemma validate_none (c : Circuit) (p : Params) :
  validate c p = None ↔ ∀ q, q ∈ params c → ¬ rejected p q.
Proof.
  unfold validate. split.
  - intros Hf q Hq Hr. apply invalid_rejected in Hr.
    apply list_elem_of_In in Hq.
    pose proof (find_none _ _ Hf q Hq) as Hn. congruence.
  - intros Hall. destruct (List.find (invalid p) (params c)) as [x|] eqn:Hf; [|reflexivity].
    apply find_some in Hf as [Hin Hx]. apply list_elem_of_In in Hin.
    apply invalid_rejected in Hx. destruct (Hall x Hin Hx).
Qed.


Lemma definitions_registered (c : Circuit) :
  c ∈ circuitDefinitions → registered models c.
Proof.
  intros Hc. unfold circuitDefinitions in Hc.
  repeat (apply elem_of_cons in Hc as [->|Hc]); try (apply elem_of_nil in Hc; destruct Hc);
    (eexists _, _; split; reflexivity).
Qed.

Lemma registered_dec (tbl : gmap string Model) (c : Circuit) :
  registered tbl c ∨ ¬ registered tbl c.
Proof.
  unfold registered. destruct (tbl !! solver c) as [model|] eqn:Hm.
  - destruct (func model) as [f|] eqn:Hf.
    + left. exists model, f. split; [reflexivity|exact Hf].
    + right. intros (m' & f' & [= <-] & Hf'). congruence.
  - right. intros (m' & f' & Hm' & _). discriminate.
Qed.

Lemma solve_complete_inv (c : Circuit) (p : Params) (res : SimulationResult) :
  solve c p = Complete res →
  registered models c ∧ validate c p = None
  ∧ finalValue res = steady_state c p
  ∧ poles res = (analysis c p).1.1
  ∧ zeros res = (analysis c p).1.2
  ∧ stabilityStatus res = (analysis c p).2.
Proof.
  intros Hs.
  destruct (registered_dec models c) as [Hreg|Hreg].
  - destruct (validate c p) as [param|] eqn:Hval.
    + destruct Hreg as (model & f & Hm & Hf). unfold solve in Hs.
      rewrite (solve_with_registered _ c p _ _ Hm Hf), Hval in Hs. discriminate.
    + destruct (solve_valid c p Hreg Hval) as (? & ? & ? & ? & ? & _ & _ & _ & _ & Hs').
      rewrite Hs in Hs'. injection Hs' as ->. repeat split; [exact Hreg|reflexivity..].
  - unfold solve in Hs. rewrite (solve_with_unregistered _ c p Hreg) in Hs. discriminate.
Qed.

Lemma required_present (c : Circuit) (p : Params) (q : string) :
  validate c p = None → q ∈ params c →
  ∃ v, values p !! q = Some v ∧ v ≠ NaN.
Proof.
  intros Hval Hq. pose proof (proj1 (validate_none c p) Hval q Hq) as Hn.
  unfold rejected in Hn. destruct (values p !! q) as [v|].
  - exists v. split; [reflexivity|]. intros ->. apply Hn. right. reflexivity.
  - destruct Hn. left. reflexivity.
Qed.

(** C10.  When the declared solver key has no registered model, or the
    registered entry has no derivative function, [solve] returns status
    'unimplemented' whatever the parameter set is, also when required
    parameters are absent or NaN: the lookup precedes validation, so such a
    call never returns a validation error. *)
Theorem C10_unimplemented_first (tbl : gmap string Model) (c : Circuit) (p : Params) :
  tbl !! solver c = None ∨ (∃ model, tbl !! solver c = Some model ∧ func model = None) →
  solve_with tbl c p = Unimplemented "This circuit solver is not yet implemented."
  ∧ result_status (solve_with tbl c p) = "unimplemented"%string
  ∧ (∀ message, solve_with tbl c p ≠ Error message)
  ∧ (tbl = models → result_status (solve c p) = "unimplemented"%string).
Proof.
  intros H.
  assert (Hs : solve_with tbl c p
               = Unimplemented "This circuit solver is not yet implemented.").
  { apply solve_with_unregistered. intros (model & f & Hm & Hf).
    destruct H as [H|(model' & Hm' & Hf')]; [congruence|].
    rewrite Hm in Hm'. injection Hm' as <-. congruence. }
  split; [exact Hs|]. rewrite Hs. split; [reflexivity|]. split; [discriminate|].
  intros ->. unfold solve. rewrite Hs. reflexivity.
Qed.

Lemma C10_unimplemented_first_witness :
  let c := {| id := "4-lc-tank"; order := 2; params := ["V"; "L"; "C"];
              defaults := ∅; solver := "solveLcTank"; metrics := [];
              transferFunction := None |} in
  models !! solver c = None
  ∧ solve c (mkParams (<["V"%string := NaN]> ∅) (Some "Step"%string))
    = Unimplemented "This circuit solver is not yet implemented.".
Proof.
  intros c. split; [reflexivity|].
  exact (proj1 (C10_unimplemented_first models c
                  (mkParams (<["V"%string := NaN]> ∅) (Some "Step"%string))
                  (or_introl eq_refl))).
Defined.










Section SeriesVerdict.
Variables (p : Params) (r l c : R) (v : num).
Hypotheses (HR : values p !! "R"%string = Some (Fin r))
           (HL : values p !! "L"%string = Some (Fin l))
           (HC : values p !! "C"%string = Some (Fin c))
           (HV : values p !! "V"%string = Some v)
           (Hv : v ≠ NaN)
           (Hl : (0 < l)%R) (Hc : (0 < c)%R).




End SeriesVerdict.





(** The final value of the topologies of the table, by identifier. *)
Lemma steady_state_table (c : Circuit) (p : Params) :
  c ∈ circuitDefinitions →
  steady_state c p
  = if is_str (inputType p) "Step" then steady_state_by_id (id c) p else Some (Fin 0).
Proof.
  intros Hc. unfold circuitDefinitions in Hc.
  repeat (apply elem_of_cons in Hc as [->|Hc]); try (apply elem_of_nil in Hc; destruct Hc).
  all: unfold steady_state;
    cbn [id rc_charge rl_energize rlc_series rc_discharge rl_deenergize
         rlc_parallel rllc_series rlcc_series];
    repeat match goal with
           | |- context [includes ?a ?b] =>
               let v := eval vm_compute in (includes a b) in
               change (includes a b) with v
           end;
    cbn [orb]; destruct (is_str (inputType p) "Step"); reflexivity.
Qed.

(** C9.  In a complete simulation result of a topology of the table, the
    final value for Step input is [V] for the RC-charge, series RLC and the
    two composite series topologies (where [V] is present and not NaN),
    [V/R] for RL-energize when [R > 0] and 0 otherwise (so [V = 10],
    [R = 10] gives exactly 1), [V·R] for the parallel RLC topology, and 0
    for the two discharge topologies; for every other input kind (Ramp,
    Sine) it is 0. *)
Theorem C9_final_value (c : Circuit) (p : Params) (res : SimulationResult) :
  c ∈ circuitDefinitions → solve c p = Complete res →
  (inputType p = Some "Step"%string →
     (id c ∈ ["1-rc-charge"; "2-rlc-series"; "3-rllc-series"; "3-rlcc-series"]%string →
        finalValue res = values p !! "V"%string
        ∧ ∃ v, values p !! "V"%string = Some v ∧ v ≠ NaN)
     ∧ (id c = "1-rl-energize"%string →
        finalValue res
        = Some (if getp p "R" >? Fin 0 then getp p "V" / getp p "R" else Fin 0)
        ∧ (∀ v r, values p !! "V"%string = Some (Fin v) →
                  values p !! "R"%string = Some (Fin r) →
                  finalValue res = Some (Fin (if decide (0 < r)%R then v / r else 0)))
        ∧ (values p !! "V"%string = Some (Fin 10) →
           values p !! "R"%string = Some (Fin 10) →
           finalValue res = Some (Fin 1)))
     ∧ (id c = "2-rlc-parallel"%string →
        finalValue res = Some (getp p "V" * getp p "R"))
     ∧ (id c ∈ ["1-rc-discharge"; "1-rl-deenergize"]%string →
        finalValue res = Some (Fin 0)))
  ∧ (inputType p ≠ Some "Step"%string → finalValue res = Some (Fin 0)).
Proof.
  intros Hc Hs.
  destruct (solve_complete_inv c p res Hs) as (_ & Hval & Hfv & _).
  rewrite Hfv, (steady_state_table c p Hc). split.
  - intros Hstep. unfold is_str. rewrite bool_decide_eq_true_2 by exact Hstep.
    split; [|split; [|split]].
    + intros Hid. unfold steady_state_by_id.
      rewrite decide_True by exact Hid. split; [reflexivity|].
      apply (required_present c p "V"%string Hval).
      unfold circuitDefinitions in Hc.
      repeat (apply elem_of_cons in Hc as [->|Hc]);
        try (apply elem_of_nil in Hc; destruct Hc);
        try (apply list_elem_of_In; simpl; tauto);
        exfalso; cbn [id rl_energize rc_discharge rl_deenergize rlc_parallel] in Hid;
        repeat (apply elem_of_cons in Hid as [Hid|Hid]); try discriminate Hid;
        apply elem_of_nil in Hid; destruct Hid.
    + intros Hid. rewrite Hid.
      assert (Hfv' : steady_state_by_id "1-rl-energize" p
                     = Some (if getp p "R" >? Fin 0
                             then getp p "V" / getp p "R" else Fin 0))
        by reflexivity.
      rewrite Hfv'.
      split; [reflexivity|]. split.
      * intros v r HV HR. unfold getp. rewrite HV, HR.
        cbn [to_num default from_option Datatypes.id].
        rewrite gtb_fin. destruct (decide (0 < r)%R) as [Hr|Hr].
        -- rewrite bool_decide_eq_true_2 by exact Hr.
           rewrite ndiv_fin by lra. reflexivity.
        -- rewrite bool_decide_eq_false_2 by exact Hr. reflexivity.
      * intros HV HR. unfold getp. rewrite HV, HR.
        cbn [to_num default from_option Datatypes.id].
        rewrite gtb_fin, bool_decide_eq_true_2 by lra.
        rewrite ndiv_fin by lra. do 2 f_equal. lra.
    + intros Hid. rewrite Hid. reflexivity.
    + intros Hid.
      repeat (apply elem_of_cons in Hid as [->|Hid]);
        try (apply elem_of_nil in Hid; destruct Hid); reflexivity.
  - intros Hstep. unfold is_str. rewrite bool_decide_eq_false_2 by exact Hstep.
    reflexivity.
Qed.

Lemma C9_final_value_witness :
  let p := mkParams (defaults rl_energize) (Some "Step"%string) in
  rl_energize ∈ circuitDefinitions
  ∧ ∃ res, solve rl_energize p = Complete res ∧ finalValue res = Some (Fin 1).
Proof.
  intros p.
  assert (Hin : rl_energize ∈ circuitDefinitions).
  { apply list_elem_of_In. simpl. tauto. }
  split; [exact Hin|].
  destruct (solve_valid rl_energize p) as (? & ? & ? & ? & ? & _ & _ & _ & _ & Hs).
  { eexists _, _. split; reflexivity. }
  { reflexivity. }
  eexists. split; [exact Hs|].
  destruct (C9_final_value rl_energize p _ Hin Hs) as [Hstep _].
  destruct (Hstep eq_refl) as (_ & Hrl & _).
  destruct (Hrl eq_refl) as (_ & _ & H10).
  apply H10; reflexivity.
Defined.

(** ** The composite models *)

Lemma getp_setp_eq (p : Params) (k : string) (v : num) : getp (setp p k v) k = v.
Proof. unfold getp, setp. cbn [values]. rewrite lookup_insert_eq. reflexivity. Qed.

Lemma getp_setp_ne (p : Params) (k k' : string) (v : num) :
  k ≠ k' → getp (setp p k v) k' = getp p k'.
Proof. intros H. unfold getp, setp. cbn [values]. rewrite lookup_insert_ne by exact H. reflexivity. Qed.

Lemma getVin_setp (t : num) (p : Params) (k : string) (v : num) :
  k ≠ "V"%string → k ≠ "Freq"%string → getVin t (setp p k v) = getVin t p.
Proof.
  intros HV HF. unfold getVin. rewrite !getp_setp_ne by assumption. reflexivity.
Qed.

Section CompositeRouter.
Variables (p : Params) (r : R).
Hypothesis (HR : values p !! "R"%string = Some (Fin r)).

Lemma rllc_analysis (l1 l2 c : R) :
  values p !! "L1"%string = Some (Fin l1) →
  values p !! "L2"%string = Some (Fin l2) →
  values p !! "C"%string = Some (Fin c) →
  (0 < r)%R → (0 < l1 + l2)%R → (0 < c)%R →
  (analysis rllc_series p).1.1 = Some (series_roots r (l1 + l2) c).
Proof.
  intros HL1 HL2 HC Hr Hl Hc.
  unfold analysis, getp. rewrite HR, HL1, HL2, HC.
  cbn [rllc_series order id transferFunction to_num default Datatypes.id from_option].
  replace (includes "3-rllc-series" "rllc-series") with true by reflexivity.
  replace (includes "3-rllc-series" "rlc-parallel") with false by reflexivity.
  replace (bool_decide (3%nat = 3%nat)) with true by reflexivity.
  rewrite orb_true_r. cbn [negb andb]. fin_arith. decide_by lra. cbn [andb].
  rewrite (calc_finite r (l1 + l2) c Hl Hc). reflexivity.
Qed.

Lemma rlcc_analysis (l c1 c2 : R) :
  values p !! "L"%string = Some (Fin l) →
  values p !! "C1"%string = Some (Fin c1) →
  values p !! "C2"%string = Some (Fin c2) →
  (0 < r)%R → (0 < l)%R →
  ((0 < c1 + c2)%R → (0 < c1 * c2 / (c1 + c2))%R →
     (analysis rlcc_series p).1.1 = Some (series_roots r l (c1 * c2 / (c1 + c2))))
  ∧ ((c1 + c2 <= 0)%R → (analysis rlcc_series p).1.1 = None).
Proof.
  intros HL HC1 HC2 Hr Hl.
  unfold analysis, getp. rewrite HR, HL, HC1, HC2.
  cbn [rlcc_series order id transferFunction to_num default Datatypes.id from_option].
  replace (includes "3-rlcc-series" "rllc-series") with false by reflexivity.
  replace (includes "3-rlcc-series" "rlcc-series") with true by reflexivity.
  replace (includes "3-rlcc-series" "rlc-parallel") with false by reflexivity.
  replace (bool_decide (3%nat = 3%nat)) with true by reflexivity.
  rewrite orb_true_r. cbn [negb andb]. split.
  - intros Hs Hq. fin_arith. decide_by lra. fin_arith. decide_by lra. cbn [andb].
    rewrite (calc_finite r l _ Hl Hq). reflexivity.
  - intros Hs. fin_arith. decide_by lra. fin_arith. decide_by lra. reflexivity.
Qed.
End CompositeRouter.

(** C7 (amended).  The R-L1-L2-C derivative function equals the series RLC
    derivative function evaluated with [L] replaced by [L1 + L2], for every
    time, state and parameter set.  The R-L-C1-C2 derivative function does
    not delegate: it is a three-state model over [(iL, Vc1, Vc2)] with
    [diL/dt = (Vin - Vc1 - Vc2 - iL R)/L], [dVc1/dt = iL/C1],
    [dVc2/dt = iL/C2]; for [C1, C2 > 0] its derivative of [(Vc1 + Vc2, iL)]
    is the series RLC derivative at that state with [C] replaced by
    [C_eq = C1 C2/(C1 + C2)].  The reduction by [C_eq], guarded against
    [C1 + C2 ≤ 0], is made by the router's pole analysis, which analyses
    [(R, L1 + L2, C)] and [(R, L, C_eq)] and yields no poles when
    [C1 + C2 ≤ 0]. *)
Theorem C7_composite_models (t : num) (p : Params) :
  (∀ state,
     rllcOde t state p = rlcOde t state (setp p "L" (getp p "L1" + getp p "L2")))
  ∧ (∀ Vc iL,
       rllcOde t [Vc; iL] p
       = [ iL / getp p "C";
           (getVin t p - Vc - iL * getp p "R") / (getp p "L1" + getp p "L2") ])
  ∧ (∀ iL Vc1 Vc2,
       rlccOde t [iL; Vc1; Vc2] p
       = [ (getVin t p - Vc1 - Vc2 - iL * getp p "R") / getp p "L";
           iL / getp p "C1"; iL / getp p "C2" ])
  ∧ (∀ (iL v1 v2 c1 c2 : R),
       getp p "C1" = Fin c1 → getp p "C2" = Fin c2 → (0 < c1)%R → (0 < c2)%R →
       ∃ diL dV1 dV2 : num,
         rlccOde t [Fin iL; Fin v1; Fin v2] p = [diL; dV1; dV2]
         ∧ rlcOde t [Fin v1 + Fin v2; Fin iL] (setp p "C" (Fin (c1 * c2 / (c1 + c2))))
           = [dV1 + dV2; diL])
  ∧ (∀ (r l1 l2 c : R),
       values p !! "R"%string = Some (Fin r) →
       values p !! "L1"%string = Some (Fin l1) →
       values p !! "L2"%string = Some (Fin l2) →
       values p !! "C"%string = Some (Fin c) →
       (0 < r)%R → (0 < l1 + l2)%R → (0 < c)%R →
       (analysis rllc_series p).1.1 = Some (series_roots r (l1 + l2) c))
  ∧ (∀ (r l c1 c2 : R),
       values p !! "R"%string = Some (Fin r) →
       values p !! "L"%string = Some (Fin l) →
       values p !! "C1"%string = Some (Fin c1) →
       values p !! "C2"%string = Some (Fin c2) →
       (0 < r)%R → (0 < l)%R →
       ((0 < c1 + c2)%R → (0 < c1 * c2 / (c1 + c2))%R →
          (analysis rlcc_series p).1.1 = Some (series_roots r l (c1 * c2 / (c1 + c2))))
       ∧ ((c1 + c2 <= 0)%R → (analysis rlcc_series p).1.1 = None)).
Proof.
  split; [reflexivity|]. split.
  { intros Vc iL. unfold rllcOde, rlcOde. cbn [elt lookup list_lookup to_num default from_option Datatypes.id].
    rewrite getVin_setp by discriminate.
    rewrite getp_setp_eq, !getp_setp_ne by discriminate. reflexivity. }
  split; [reflexivity|]. split.
  { intros iL v1 v2 c1 c2 HC1 HC2 Hc1 Hc2.
    eexists _, _, _. split; [reflexivity|].
    unfold rlcOde. cbn [elt lookup list_lookup to_num default from_option Datatypes.id].
    rewrite getVin_setp by discriminate.
    rewrite getp_setp_eq, !getp_setp_ne by discriminate.
    rewrite HC1, HC2.
    assert (Hs : (0 < c1 + c2)%R) by lra.
    assert (Hp : (0 < c1 * c2)%R) by (apply Rmult_lt_0_compat; assumption).
    assert (Hq : (0 < c1 * c2 / (c1 + c2))%R) by (apply Rdiv_lt_0_compat; assumption).
    cbn [from_option Datatypes.id]. fin_arith. rewrite nsub_fin_assoc.
    do 2 f_equal. field. lra. }
  split.
  { intros r l1 l2 c HR HL1 HL2 HC Hr Hl Hc. apply (rllc_analysis p r HR); assumption. }
  intros r l c1 c2 HR HL HC1 HC2 Hr Hl. apply (rlcc_analysis p r HR); assumption.
Qed.

Lemma C7_composite_models_witness :
  let p := mkParams (defaults rlcc_series) (Some "Step"%string) in
  getp p "C1" = Fin 0.0001 ∧ getp p "C2" = Fin 0.0001
  ∧ (0 < 0.0001)%R
  ∧ length (rlccOde (Fin 0) [Fin 0; Fin 0; Fin 0] p) = 3%nat.
Proof.
  intros p. split; [reflexivity|]. split; [reflexivity|]. split; [lra|].
  destruct (C7_composite_models (Fin 0) p) as (_ & _ & _ & H & _).
  destruct (H 0%R 0%R 0%R 0.0001%R 0.0001%R eq_refl eq_refl ltac:(lra) ltac:(lra))
    as (diL & dV1 & dV2 & Hd & _).
  rewrite Hd. reflexivity.
Defined.

(** C7, as stated, fails for the R-L-C1-C2 model: its derivative has three
    components, so it is the value of the two-state series RLC derivative
    function for no state and no parameter set. *)
Lemma C7_rlcc_counterexample :
  let p := mkParams (defaults rlcc_series) (Some "Step"%string) in
  length (rlccOde (Fin 0) [Fin 0; Fin 0; Fin 0] p) = 3%nat
  ∧ ¬ (∃ state p', rlccOde (Fin 0) [Fin 0; Fin 0; Fin 0] p = rlcOde (Fin 0) state p').
Proof.
  intros p. split; [reflexivity|].
  intros (state & p' & H). apply (f_equal length) in H. discriminate H.
Qed.

(** ** The metrics calculator *)

Section Settling.
Variables (signal : list (option num)) (lo hi : num).





End Settling.






(** * Further properties of the code *)

(** ** More on the integrator *)

Lemma rk4_samples_grid (f : odeFunc) (p : Params) (h : R) (n : nat) :
  ∀ (a : R) (s : list num) (i : nat) (t : num) (st : list num),
    rk4_samples f p (Fin h) n (Fin a) s !! i = Some (t, st) →
    t = Fin (a + INR i * h).
Proof.
  induction n as [|n IH]; intros a s i t st Hi; [discriminate|].
  destruct i as [|i]; cbn [rk4_samples lookup list_lookup] in Hi.
  - injection Hi as <- _. f_equal. simpl. lra.
  - rewrite nadd_fin in Hi. rewrite (IH _ _ _ _ _ Hi). f_equal.
    rewrite S_INR. lra.
Qed.

Lemma step_size_fin (a b : R) (points : nat) :
  (2 ≤ points)%nat →
  (Fin b - Fin a) / (of_nat points - Fin 1) = Fin ((b - a) / (INR points - 1)).
Proof.
  intros Hp. unfold of_nat. rewrite <- INR_IZR_INZ.
  assert (H : (2 <= INR points)%R) by (apply (le_INR 2); exact Hp).
  fin_arith. reflexivity.
Qed.

Lemma time_lookup (f : odeFunc) (init : list num) (p : Params) (tStart tEnd : num)
    (n i : nat) :
  aget (time (solveODE f init p tStart tEnd (S n))) i
  = fst <$> rk4_samples f p ((tEnd - tStart) / (of_nat (S n) - Fin 1)) (S n) tStart init !! i.
Proof.
  destruct (solveODE_unfold f init p tStart tEnd n) as [Ht _]. cbv zeta in Ht.
  rewrite Ht. unfold aget. rewrite list_lookup_fmap.
  destruct (_ !! i) as [[t s]|]; reflexivity.
Qed.

(** X1.  The time axis in real arithmetic.  For finite [tStart = a] and
    [tEnd = b] and at least two points, sample [i] of the time axis is
    [a + i h] with [h = (b - a) / (points - 1)]: the axis starts at [a], ends
    at [b], and is strictly increasing when [a < b]. *)
Theorem solveODE_time_grid (f : odeFunc) (init : list num) (p : Params)
    (a b : R) (points : nat) :
  (2 ≤ points)%nat →
  let h := ((b - a) / (INR points - 1))%R in
  let r := solveODE f init p (Fin a) (Fin b) points in
  (∀ i, (i < points)%nat → aget (time r) i = Some (Fin (a + INR i * h)))
  ∧ aget (time r) 0 = Some (Fin a)
  ∧ aget (time r) (points - 1) = Some (Fin b)
  ∧ ((a < b)%R → ∀ i j x y, (i < j < points)%nat →
       aget (time r) i = Some (Fin x) → aget (time r) j = Some (Fin y) → (x < y)%R).
Proof.
  intros Hp h r.
  assert (Hn : (2 <= INR points)%R) by (apply (le_INR 2); exact Hp).
  assert (Hgrid : ∀ i, (i < points)%nat → aget (time r) i = Some (Fin (a + INR i * h))).
  { intros i Hi. subst r. destruct points as [|n]; [lia|].
    rewrite time_lookup, step_size_fin by exact Hp. fold h.
    destruct (rk4_samples f p (Fin h) (S n) (Fin a) init !! i) as [[t s]|] eqn:E.
    - rewrite (rk4_samples_grid _ _ _ _ _ _ _ _ _ E). reflexivity.
    - apply lookup_ge_None in E. rewrite rk4_samples_length in E. lia. }
  split; [exact Hgrid|]. split.
  { rewrite Hgrid by lia. do 2 f_equal. simpl. lra. }
  split.
  { rewrite Hgrid by lia. do 2 f_equal. rewrite minus_INR by lia. simpl.
    unfold h. field. lra. }
  intros Hab i j x y [Hij Hj] Hx Hy.
  rewrite Hgrid in Hx by lia. rewrite Hgrid in Hy by lia.
  injection Hx as <-. injection Hy as <-.
  assert (Hh : (0 < h)%R) by (unfold h; apply Rdiv_lt_0_compat; lra).
  apply lt_INR in Hij. nra.
Qed.

Lemma solveODE_time_grid_witness :
  (2 ≤ 5)%nat
  ∧ aget (time (solveODE rcOde [Fin 0] (mkParams ∅ None) (Fin 0) (Fin 1) 5)) 4
    = Some (Fin 1).
Proof.
  split; [lia|].
  exact (proj1 (proj2 (proj2 (solveODE_time_grid rcOde [Fin 0] (mkParams ∅ None)
                                 0 1 5 ltac:(lia))))).
Defined.

(** X2.  Degenerate point counts.  With [points] 0 or 1 the loop body never
    runs: the result holds the single sample [tStart] and, for each state
    component, the one-element column of its initial value, whatever the
    derivative function and the end time are. *)
Theorem solveODE_single_sample (f : odeFunc) (init : list num) (p : Params)
    (tStart tEnd : num) (points : nat) :
  (points ≤ 1)%nat →
  solveODE f init p tStart tEnd points
  = {| time := [Some tStart];
       ys := (λ j, [init !! j]) <$> seq 0 (length init) |}.
Proof.
  intros Hp. assert (H : points = 0%nat ∨ points = 1%nat) by lia.
  assert (Hcol : ∀ j, (λ o : option (list (option num)), o ≫= λ state, aget state j)
                        <$> [Some (of_list init)] = [init !! j]).
  { intros j. cbn [fmap list_fmap mbind option_bind]. rewrite aget_of_list. reflexivity. }
  destruct H as [-> | ->]; unfold solveODE; cbv zeta; rewrite init_states.
  - change (@new_Array num 0) with (@nil (option num)).
    change (@replicate (option (list (option num))) 0 (Some (new_Array (length init))))
      with (@nil (option (list (option num)))).
    change (aset [] 0%nat tStart) with [Some tStart].
    change (aset [] 0%nat (of_list init)) with [Some (of_list init)].
    unfold for_loop. cbn [Nat.sub seq foldl app time ys ls_time ls_states].
    f_equal. apply list_fmap_ext. intros _ j _. apply Hcol.
  - change (@new_Array num 1) with [@None num]. cbn [replicate].
    rewrite !aset_head.
    unfold for_loop. cbn [Nat.sub seq foldl app time ys ls_time ls_states].
    f_equal. apply list_fmap_ext. intros _ j _. apply Hcol.
Qed.

Lemma solveODE_single_sample_witness :
  (1 ≤ 1)%nat
  ∧ solveODE rlcOde [Fin 0; Fin 0] (mkParams ∅ None) (Fin 0) (Fin 1) 1
    = {| time := [Some (Fin 0)]; ys := [[Some (Fin 0)]; [Some (Fin 0)]] |}.
Proof.
  split; [lia|].
  exact (solveODE_single_sample rlcOde [Fin 0; Fin 0] (mkParams ∅ None)
           (Fin 0) (Fin 1) 1 ltac:(lia)).
Defined.

Lemma axpy_zero (c : R) (xs : list R) :
  axpy (Fin c) (replicate (length xs) (Fin 0)) (Fin <$> xs) = Fin <$> xs.
Proof.
  unfold axpy. apply list_eq. intros j.
  rewrite list_lookup_imap, list_lookup_fmap.
  destruct (xs !! j) as [x|] eqn:E; [|reflexivity].
  cbn [fmap option_fmap option_map mbind option_bind].
  unfold elt. rewrite lookup_replicate_2 by (apply lookup_lt_Some in E; exact E).
  cbn [to_num default from_option Datatypes.id]. fin_arith. do 2 f_equal. lra.
Qed.

Lemma rk4_update_equilibrium (f : odeFunc) (p : Params) (h x0 : R) (xs : list R) :
  (0 <= h)%R → (0 <= x0)%R →
  (∀ x, (0 <= x)%R → f (Fin x) (Fin <$> xs) p = replicate (length xs) (Fin 0)) →
  rk4_update f p (Fin h) (Fin x0) (Fin <$> xs) = Fin <$> xs.
Proof.
  intros Hh Hx0 Hf. unfold rk4_update.
  rewrite (Hf x0 Hx0). rewrite (ndiv_fin h 2) by lra.
  repeat first [rewrite axpy_zero | rewrite nadd_fin | rewrite Hf by lra].
  apply list_eq. intros j.
  rewrite list_lookup_imap, list_lookup_fmap.
  destruct (xs !! j) as [x|] eqn:E; [|reflexivity].
  cbn [fmap option_fmap option_map mbind option_bind].
  unfold elt. rewrite lookup_replicate_2 by (apply lookup_lt_Some in E; exact E).
  cbn [to_num default from_option Datatypes.id]. fin_arith. do 2 f_equal. lra.
Qed.

Lemma rk4_samples_equilibrium (f : odeFunc) (p : Params) (h : R) (xs : list R) (n : nat) :
  (0 <= h)%R →
  (∀ x, (0 <= x)%R → f (Fin x) (Fin <$> xs) p = replicate (length xs) (Fin 0)) →
  ∀ x0 i t s, (0 <= x0)%R →
    rk4_samples f p (Fin h) n (Fin x0) (Fin <$> xs) !! i = Some (t, s) → s = Fin <$> xs.
Proof.
  intros Hh Hf. induction n as [|n IH]; intros x0 i t s Hx0 Hi; [discriminate|].
  destruct i as [|i]; cbn [rk4_samples lookup list_lookup] in Hi.
  - injection Hi as _ <-. reflexivity.
  - rewrite rk4_update_equilibrium, nadd_fin in Hi by assumption.
    apply (IH (x0 + h)%R i t s); [lra|exact Hi].
Qed.

(** X3.  The integrator keeps an equilibrium.  If the derivative function
    returns the zero vector at a finite state for every time [t >= 0], then
    the integration started at that state from [0 <= a <= b] stores the
    initial value, unchanged, at every sample of every state column. *)
Theorem solveODE_equilibrium (f : odeFunc) (p : Params) (xs : list R)
    (a b : R) (points : nat) :
  (2 ≤ points)%nat → (0 <= a)%R → (a <= b)%R →
  (∀ x, (0 <= x)%R → f (Fin x) (Fin <$> xs) p = replicate (length xs) (Fin 0)) →
  ∀ j x, xs !! j = Some x →
    ys (solveODE f (Fin <$> xs) p (Fin a) (Fin b) points) !! j
    = Some (replicate points (Some (Fin x))).
Proof.
  intros Hp Ha Hab Hf j x Hj.
  destruct points as [|n]; [lia|].
  destruct (solveODE_unfold f (Fin <$> xs) p (Fin a) (Fin b) n) as [_ Hy].
  cbv zeta in Hy. rewrite Hy. clear Hy.
  rewrite list_lookup_fmap, length_fmap, lookup_seq_lt
    by (apply lookup_lt_Some in Hj; exact Hj).
  cbn [fmap option_fmap option_map Nat.add]. f_equal.
  rewrite step_size_fin by exact Hp.
  set (h := ((b - a) / (INR (S n) - 1))%R).
  assert (Hn : (2 <= INR (S n))%R) by (apply (le_INR 2); exact Hp).
  assert (Hh : (0 <= h)%R).
  { unfold h. apply Rmult_le_pos; [lra|]. apply Rlt_le, Rinv_0_lt_compat. lra. }
  apply list_eq. intros i. rewrite list_lookup_fmap.
  destruct (rk4_samples f p (Fin h) (S n) (Fin a) (Fin <$> xs) !! i) as [[t s]|] eqn:E.
  - rewrite (rk4_samples_equilibrium f p h xs (S n) Hh Hf a i t s Ha E).
    cbn [fmap option_fmap option_map snd].
    rewrite list_lookup_fmap, Hj.
    apply lookup_lt_Some in E. rewrite rk4_samples_length in E.
    rewrite lookup_replicate_2 by exact E. reflexivity.
  - apply lookup_ge_None in E. rewrite rk4_samples_length in E.
    symmetry. apply lookup_ge_None. rewrite length_replicate. exact E.
Qed.

(** ** Equilibria of the models *)

Lemma getVin_step (p : Params) (x : R) (V : num) :
  inputType p = Some "Step"%string → getp p "V" = V → (0 <= x)%R →
  getVin (Fin x) p = V.
Proof.
  intros Hs HV Hx. unfold getVin, is_str.
  rewrite bool_decide_eq_true_2 by exact Hs.
  rewrite geb_fin, bool_decide_eq_true_2 by exact Hx. exact HV.
Qed.

Lemma Rdiv_eq_0 (a b : R) : b ≠ 0%R → (a / b = 0)%R ↔ a = 0%R.
Proof.
  intros Hb. split; intros H.
  - apply (Rmult_eq_reg_r (/ b)); [|apply Rinv_neq_0_compat, Hb].
    unfold Rdiv in H. lra.
  - subst a. unfold Rdiv. lra.
Qed.

Lemma Fin_inj (a b : R) : Fin a = Fin b ↔ a = b.
Proof. split; [intros [= H]; exact H|intros ->; reflexivity]. Qed.

Lemma vec1_zero (a : R) : [Fin a] = [Fin 0] ↔ a = 0%R.
Proof. split; [intros [= H]; exact H|intros ->; reflexivity]. Qed.

Lemma vec2_zero (a b : R) : [Fin a; Fin b] = [Fin 0; Fin 0] ↔ a = 0%R ∧ b = 0%R.
Proof. split; [intros [= Ha Hb]; split; assumption|intros [-> ->]; reflexivity]. Qed.

Lemma vec3_zero (a b c : R) :
  [Fin a; Fin b; Fin c] = [Fin 0; Fin 0; Fin 0] ↔ a = 0%R ∧ b = 0%R ∧ c = 0%R.
Proof.
  split; [intros [= Ha Hb Hc]; repeat split; assumption|intros (-> & -> & ->); reflexivity].
Qed.

Ltac model_eval HV :=
  cbn [elt lookup list_lookup to_num default from_option Datatypes.id];
  rewrite (getVin_step _ _ _ ltac:(eassumption) HV ltac:(eassumption)).

Lemma rcOde_at_rest (p : Params) (v r c x : R) :
  inputType p = Some "Step"%string → getp p "V" = Fin v →
  getp p "R" = Fin r → getp p "C" = Fin c → (r * c)%R ≠ 0%R → (0 <= x)%R →
  rcOde (Fin x) [Fin v] p = [Fin 0].
Proof.
  intros Hs HV HR HC Hrc Hx. unfold rcOde. model_eval HV. rewrite HR, HC. fin_arith.
  apply vec1_zero. apply Rdiv_eq_0; [assumption|lra].
Qed.

(** X4.  The equilibria of the derivative functions under a Step input of
    height [v], at any [t >= 0] and for parameters that are finite and not
    zero: the RC model rests exactly at [Vc = v]; the RL model at
    [iL R = v]; the series RLC model at [Vc = v, iL = 0]; the parallel model
    at [Vc = 0, iL = v]; the model with two capacitors at [iL = 0] and
    [Vc1 + Vc2 = v], a line of equilibria. *)
Theorem model_equilibria (p : Params) (v x : R) :
  inputType p = Some "Step"%string → getp p "V" = Fin v → (0 <= x)%R →
  (∀ r c vc, getp p "R" = Fin r → getp p "C" = Fin c → (r * c)%R ≠ 0%R →
     rcOde (Fin x) [Fin vc] p = [Fin 0] ↔ vc = v)
  ∧ (∀ r l i, getp p "R" = Fin r → getp p "L" = Fin l → l ≠ 0%R →
     rlOde (Fin x) [Fin i] p = [Fin 0] ↔ (i * r)%R = v)
  ∧ (∀ r l c vc i, getp p "R" = Fin r → getp p "L" = Fin l → getp p "C" = Fin c →
     l ≠ 0%R → c ≠ 0%R →
     rlcOde (Fin x) [Fin vc; Fin i] p = [Fin 0; Fin 0] ↔ vc = v ∧ i = 0%R)
  ∧ (∀ r l c vc i, getp p "R" = Fin r → getp p "L" = Fin l → getp p "C" = Fin c →
     r ≠ 0%R → l ≠ 0%R → c ≠ 0%R →
     rlcParallelOde (Fin x) [Fin vc; Fin i] p = [Fin 0; Fin 0] ↔ vc = 0%R ∧ i = v)
  ∧ (∀ r l c1 c2 i v1 v2, getp p "R" = Fin r → getp p "L" = Fin l →
     getp p "C1" = Fin c1 → getp p "C2" = Fin c2 → l ≠ 0%R → c1 ≠ 0%R → c2 ≠ 0%R →
     rlccOde (Fin x) [Fin i; Fin v1; Fin v2] p = [Fin 0; Fin 0; Fin 0]
     ↔ i = 0%R ∧ (v1 + v2)%R = v).
Proof.
  intros Hs HV Hx.
  split; [|split; [|split; [|split]]].
  - intros r c vc HR HC Hrc. unfold rcOde. model_eval HV. rewrite HR, HC. fin_arith.
    rewrite vec1_zero, Rdiv_eq_0 by assumption. lra.
  - intros r l i HR HL Hl. unfold rlOde. model_eval HV. rewrite HR, HL. fin_arith.
    rewrite vec1_zero, Rdiv_eq_0 by assumption. lra.
  - intros r l c vc i HR HL HC Hl Hc. unfold rlcOde. model_eval HV.
    rewrite HR, HL, HC. fin_arith.
    rewrite vec2_zero, !Rdiv_eq_0 by assumption. split.
    + intros [-> E]. lra.
    + intros [-> ->]. lra.
  - intros r l c vc i HR HL HC Hr Hl Hc. unfold rlcParallelOde. model_eval HV.
    rewrite HR, HL, HC. fin_arith.
    rewrite vec2_zero, !Rdiv_eq_0 by assumption. split.
    + intros [E ->]. unfold Rdiv in E. lra.
    + intros [-> ->]. unfold Rdiv. lra.
  - intros r l c1 c2 i v1 v2 HR HL HC1 HC2 Hl Hc1 Hc2. unfold rlccOde. model_eval HV.
    rewrite HR, HL, HC1, HC2. fin_arith.
    rewrite vec3_zero, !Rdiv_eq_0 by assumption. split.
    + intros (E & -> & _). lra.
    + intros [-> E]. lra.
Qed.

Lemma model_equilibria_witness :
  let p := mkParams (defaults rlc_parallel) (Some "Step"%string) in
  inputType p = Some "Step"%string ∧ getp p "V" = Fin 1 ∧ (0 <= 0)%R
  ∧ rlcParallelOde (Fin 0) [Fin 0; Fin 1] p = [Fin 0; Fin 0].
Proof.
  intros p.
  split; [reflexivity|]. split; [reflexivity|]. split; [lra|].
  destruct (model_equilibria p 1 0 eq_refl eq_refl ltac:(lra)) as (_ & _ & _ & H & _).
  apply (H 50%R 0.01%R 0.00001%R 0%R 1%R eq_refl eq_refl eq_refl); lra.
Defined.

Lemma solveODE_equilibrium_witness :
  let p := mkParams (defaults rc_charge) (Some "Step"%string) in
  (2 ≤ 3)%nat ∧ (0 <= 0)%R ∧ (0 <= 0.005)%R
  ∧ (∀ x, (0 <= x)%R → rcOde (Fin x) (Fin <$> [10%R]) p = replicate 1 (Fin 0))
  ∧ ys (solveODE rcOde (Fin <$> [10%R]) p (Fin 0) (Fin 0.005) 3) !! 0%nat
    = Some (replicate 3 (Some (Fin 10))).
Proof.
  intros p.
  assert (Hf : ∀ x, (0 <= x)%R →
                    rcOde (Fin x) (Fin <$> [10%R]) p = replicate 1 (Fin 0)).
  { intros x Hx. apply (rcOde_at_rest p 10 1000 0.000001 x); try reflexivity; lra. }
  split; [lia|]. split; [lra|]. split; [lra|]. split; [exact Hf|].
  exact (solveODE_equilibrium rcOde p [10%R] 0 0.005 3 ltac:(lia) ltac:(lra) ltac:(lra)
           Hf 0%nat 10%R eq_refl).
Defined.

(** ** Derivative functions that return too few components *)

Lemma nadd_nan_r (a : num) : a + NaN = NaN.
Proof. destruct a; reflexivity. Qed.

Lemma nmul_nan_r (a : num) : a * NaN = NaN.
Proof. destruct a; reflexivity. Qed.

Lemma rk4_update_missing (f : odeFunc) (p : Params) (h t : num) (s : list num) (j : nat) :
  (∀ t' s', f t' s' p !! j = None) → (j < length s)%nat →
  rk4_update f p h t s !! j = Some NaN.
Proof.
  intros Hf Hj. unfold rk4_update.
  rewrite list_lookup_imap.
  destruct (lookup_lt_is_Some_2 s j Hj) as [x ->].
  cbn [fmap option_fmap option_map mbind option_bind].
  unfold elt. rewrite !Hf. cbn [to_num default from_option].
  rewrite !nadd_nan_r, nmul_nan_r, nadd_nan_r. reflexivity.
Qed.

Lemma rk4_samples_missing (f : odeFunc) (p : Params) (h : num) (j : nat) :
  (∀ t' s', f t' s' p !! j = None) →
  ∀ n t s i ti si, (j < length s)%nat → (1 ≤ i)%nat →
    rk4_samples f p h n t s !! i = Some (ti, si) → si !! j = Some NaN.
Proof.
  intros Hf. induction n as [|n IH]; intros t s i ti si Hj Hi Hs; [discriminate|].
  destruct i as [|i]; [lia|]. cbn [rk4_samples lookup list_lookup] in Hs.
  destruct i as [|i].
  - destruct n as [|n]; [discriminate|]. cbn [rk4_samples lookup list_lookup] in Hs.
    injection Hs as _ <-. apply rk4_update_missing; assumption.
  - apply (IH (t + h) (rk4_update f p h t s) (S i) ti si);
      [rewrite rk4_update_length; exact Hj|lia|exact Hs].
Qed.

(** X5.  A derivative function that returns too few components.  If the
    state has a component [j] that the derivative function never supplies,
    reading it gives [undefined]: column [j] of the result keeps the initial
    value at index 0 and is NaN at every later sample. *)
Theorem solveODE_short_derivative (f : odeFunc) (init : list num) (p : Params)
    (tStart tEnd : num) (points j : nat) (x0 : num) :
  (1 ≤ points)%nat → init !! j = Some x0 → (∀ t s, f t s p !! j = None) →
  ∃ col, ys (solveODE f init p tStart tEnd points) !! j = Some col
    ∧ length col = points
    ∧ aget col 0 = Some x0
    ∧ ∀ i, (1 ≤ i < points)%nat → aget col i = Some NaN.
Proof.
  intros Hp Hj Hf. destruct points as [|n]; [lia|].
  destruct (solveODE_unfold f init p tStart tEnd n) as [_ Hy]. cbv zeta in Hy.
  rewrite Hy. clear Hy.
  assert (Hlt : (j < length init)%nat) by (apply lookup_lt_Some in Hj; exact Hj).
  rewrite list_lookup_fmap, lookup_seq_lt by exact Hlt.
  cbn [fmap option_fmap option_map Nat.add].
  eexists. split; [reflexivity|]. split; [rewrite length_fmap; apply rk4_samples_length|].
  split; [unfold aget; cbn [rk4_samples fmap list_fmap lookup list_lookup snd];
          rewrite Hj; reflexivity|].
  intros i [Hi1 Hi2]. unfold aget. rewrite list_lookup_fmap.
  destruct (rk4_samples f p _ (S n) tStart init !! i) as [[ti si]|] eqn:E.
  - cbn [fmap option_fmap option_map snd].
    rewrite (rk4_samples_missing f p _ j Hf _ _ _ _ _ _ Hlt Hi1 E). reflexivity.
  - apply lookup_ge_None in E. rewrite rk4_samples_length in E. lia.
Qed.

Lemma solveODE_short_derivative_witness :
  let p := mkParams (defaults rc_charge) (Some "Step"%string) in
  (1 ≤ 3)%nat ∧ [Fin 0; Fin 0] !! 1%nat = Some (Fin 0)
  ∧ (∀ t s, rcOde t s p !! 1%nat = None)
  ∧ ∃ col, ys (solveODE rcOde [Fin 0; Fin 0] p (Fin 0) (Fin 0.005) 3) !! 1%nat = Some col
      ∧ aget col 2 = Some NaN.
Proof.
  intros p. split; [lia|]. split; [reflexivity|]. split; [reflexivity|].
  destruct (solveODE_short_derivative rcOde [Fin 0; Fin 0] p (Fin 0) (Fin 0.005) 3 1 (Fin 0)
              ltac:(lia) eq_refl ltac:(reflexivity)) as (col & Hc & _ & _ & Hnan).
  exists col. split; [exact Hc|]. apply Hnan. lia.
Defined.

(** ** More on the frequency response *)

Lemma default_freqs_lookup (i : nat) :
  (i < 500)%nat → default_freqs !! i = Some (Fin (Rpower 10 (INR i * 6 / 499))).
Proof.
  intros Hi. unfold default_freqs.
  rewrite list_lookup_fmap, lookup_seq_lt by exact Hi. reflexivity.
Qed.

Lemma dense_eq {A : Type} (a : list (option A)) (l : list A) :
  length a = length l → (∀ i, (i < length l)%nat → aget a i = l !! i) →
  a = Some <$> l.
Proof.
  intros Hlen Hget. apply list_eq. intros i. rewrite list_lookup_fmap.
  destruct (decide (i < length l)%nat) as [Hi|Hi].
  - specialize (Hget i Hi). unfold aget in Hget.
    destruct (lookup_lt_is_Some_2 l i Hi) as [x Hx]. rewrite Hx in Hget |- *.
    destruct (a !! i) as [[y|]|]; try discriminate. injection Hget as ->. reflexivity.
  - rewrite (proj2 (lookup_ge_None a i)) by lia.
    rewrite (proj2 (lookup_ge_None l i)) by lia. reflexivity.
Qed.

Lemma default_freqs_length : length default_freqs = 500%nat.
Proof. unfold default_freqs. rewrite length_fmap. apply length_seq. Qed.

Lemma default_freq_list :
  generateFrequencyVector_default = Some <$> default_freqs.
Proof.
  apply dense_eq.
  - rewrite default_freqs_length. exact default_freq_length.
  - rewrite default_freqs_length. intros i Hi.
    rewrite default_freqs_lookup by exact Hi. apply default_freq_lookup, Hi.
Qed.

Lemma bode_loop (H : num → complex) (ws : list num) :
  ∀ (k : nat) (pm pp rm rp : list (option num)),
    length pm = k → length pp = k → length rm = length ws → length rp = length ws →
    foldl (λ (s : list (option num) * list (option num)) (iv : nat * option num),
             match iv.2 with
             | Some w => (aset s.1 iv.1 (Fin 20 * Math_log10 (cMag (H w))),
                          aset s.2 iv.1 (cPhase (H w) * Fin 180 / Fin PI))
             | None => s
             end)
          (pm ++ rm, pp ++ rp) (imap (λ i v, ((k + i)%nat, v)) (Some <$> ws))
    = (pm ++ (Some ∘ mag_dB H <$> ws), pp ++ (Some ∘ phase_deg H <$> ws)).
Proof.
  induction ws as [|w ws IH]; intros k pm pp rm rp Hpm Hpp Hrm Hrp.
  - destruct rm; [|discriminate]. destruct rp; [|discriminate]. reflexivity.
  - destruct rm as [|m rm]; [discriminate|]. destruct rp as [|q rp]; [discriminate|].
    cbn [fmap list_fmap imap foldl fst snd]. rewrite Nat.add_0_r.
    rewrite !aset_middle by assumption.
    replace (pm ++ Some (Fin 20 * Math_log10 (cMag (H w))) :: rm)
      with ((pm ++ [Some (mag_dB H w)]) ++ rm) by (rewrite <- app_assoc; reflexivity).
    replace (pp ++ Some (cPhase (H w) * Fin 180 / Fin PI) :: rp)
      with ((pp ++ [Some (phase_deg H w)]) ++ rp) by (rewrite <- app_assoc; reflexivity).
    rewrite (imap_ext _ (λ i v, ((S k + i)%nat, v))) by (intros; cbn; f_equal; lia).
    rewrite (IH (S k)); try (rewrite length_app; simpl; lia); try (simpl in *; lia).
    rewrite <- !app_assoc. reflexivity.
Qed.

Lemma bode_dense (H : num → complex) (ws : list num) (m0 p0 : list (option num)) :
  length m0 = length ws → length p0 = length ws →
  bode H (Some <$> ws) (m0, p0) = (Some ∘ mag_dB H <$> ws, Some ∘ phase_deg H <$> ws).
Proof.
  intros Hm Hp. unfold bode, forEach.
  exact (bode_loop H ws 0 [] [] m0 p0 eq_refl eq_refl Hm Hp).
Qed.

Lemma omega_dense (fs : list num) :
  amap (λ f (_ : nat), Fin 2 * Fin PI * f) (Some <$> fs)
  = Some <$> ((λ f, Fin 2 * Fin PI * f) <$> fs).
Proof.
  unfold amap. rewrite imap_fmap. rewrite <- list_fmap_compose.
  rewrite <- (imap_const (Some ∘ _)). apply imap_ext. reflexivity.
Qed.

(** The two output arrays of a sweep whose transfer function is [H]. *)
Lemma sweep_dense (H : num → complex) :
  let omega := amap (λ f (_ : nat), Fin 2 * Fin PI * f) generateFrequencyVector_default in
  let zero := fill (new_Array (length generateFrequencyVector_default)) (Fin 0) in
  bode H omega (zero, zero)
  = (Some ∘ (λ f, mag_dB H (Fin 2 * Fin PI * f)) <$> default_freqs,
     Some ∘ (λ f, phase_deg H (Fin 2 * Fin PI * f)) <$> default_freqs).
Proof.
  cbv zeta. rewrite default_freq_length. rewrite default_freq_list, omega_dense.
  rewrite bode_dense.
  - rewrite <- !list_fmap_compose. reflexivity.
  - unfold fill, new_Array.
    rewrite !length_replicate, !length_fmap, default_freqs_length. reflexivity.
  - unfold fill, new_Array.
    rewrite !length_replicate, !length_fmap, default_freqs_length. reflexivity.
Qed.

Lemma dense_lookup {A : Type} (g : num → A) (i : nat) :
  (i < 500)%nat →
  aget (Some ∘ g <$> default_freqs) i = Some (g (Fin (Rpower 10 (INR i * 6 / 499)))).
Proof.
  intros Hi. unfold aget.
  rewrite list_lookup_fmap, default_freqs_lookup by exact Hi. reflexivity.
Qed.

Lemma ln_sqrt_half (y : R) : (0 < y)%R → ln (sqrt y) = (ln y / 2)%R.
Proof.
  intros Hy. pose proof (sqrt_lt_R0 y Hy) as Hs.
  pose proof (ln_mult (sqrt y) (sqrt y) Hs Hs) as Hm.
  rewrite sqrt_sqrt in Hm by lra. lra.
Qed.

Lemma cDiv_fin (ar ai br bi : R) :
  cDiv (Fin ar, Fin ai) (Fin br, Fin bi)
  = if decide (br * br + bi * bi = 0)%R then (Fin 0, Fin 0)
    else (Fin ((ar * br + ai * bi) / (br * br + bi * bi)),
          Fin ((ai * br - ar * bi) / (br * br + bi * bi))).
Proof.
  unfold cDiv. fin_arith. unfold strict_eq.
  destruct (decide (br * br + bi * bi = 0)%R) as [E|E].
  - rewrite bool_decide_true by exact E. reflexivity.
  - rewrite bool_decide_false by exact E. rewrite !ndiv_fin by exact E. reflexivity.
Qed.

Lemma cMag_fin (a b : R) : cMag (Fin a, Fin b) = Fin (sqrt (a * a + b * b)).
Proof.
  unfold cMag, sq. cbn [fst snd]. fin_arith. reflexivity.
Qed.

Lemma log10_pos (x : R) : (0 < x)%R → Math_log10 (Fin x) = Fin (ln x / ln 10).
Proof.
  intros Hx. unfold Math_log10.
  rewrite decide_False by lra. rewrite decide_False by lra. reflexivity.
Qed.

Lemma atan2_right (b a : R) : (0 < a)%R → Math_atan2 (Fin b) (Fin a) = Fin (atan (b / a)).
Proof. intros Ha. unfold Math_atan2. rewrite decide_True by exact Ha. reflexivity. Qed.

Lemma to_degrees (x : R) : Fin x * Fin 180 / Fin PI = Fin (x * 180 / PI).
Proof. fin_arith. rewrite ndiv_fin by (pose proof PI_RGT_0; lra). reflexivity. Qed.

Lemma getp_fin (p : Params) (k : string) (x : num) :
  values p !! k = Some x → getp p k = x.
Proof. intros E. unfold getp. rewrite E. reflexivity. Qed.

(** The first-order low-pass response [1 / (1 + j x)]. *)
Lemma lowpass_point (x : R) :
  let H := cDiv (Fin 1, Fin 0) (Fin 1, Fin x) in
  Fin 20 * Math_log10 (cMag H) = Fin (-10 * (ln (1 + x * x) / ln 10))
  ∧ cPhase H * Fin 180 / Fin PI = Fin (- atan x * 180 / PI).
Proof.
  cbv zeta. rewrite cDiv_fin. rewrite decide_False by nra.
  assert (Hd : (0 < 1 + x * x)%R) by nra.
  split.
  - rewrite cMag_fin.
    replace ((1 * 1 + 0 * x) / (1 * 1 + x * x) * ((1 * 1 + 0 * x) / (1 * 1 + x * x))
             + (0 * 1 - 1 * x) / (1 * 1 + x * x) * ((0 * 1 - 1 * x) / (1 * 1 + x * x)))%R
      with (/ (1 + x * x))%R by (field; lra).
    assert (Hi : (0 < / (1 + x * x))%R) by (apply Rinv_0_lt_compat, Hd).
    rewrite log10_pos by (apply sqrt_lt_R0, Hi).
    rewrite ln_sqrt_half by exact Hi. rewrite ln_Rinv by exact Hd.
    fin_arith. f_equal. field. pose proof ln10_pos. lra.
  - unfold cPhase. cbn [fst snd].
    rewrite atan2_right by (apply Rdiv_lt_0_compat; lra).
    rewrite to_degrees. f_equal.
    replace ((0 * 1 - 1 * x) / (1 * 1 + x * x) / ((1 * 1 + 0 * x) / (1 * 1 + x * x)))%R
      with (- x)%R by (field; lra).
    rewrite atan_opp. reflexivity.
Qed.

Lemma atan_nonneg (x : R) : (0 <= x)%R → (0 <= atan x)%R.
Proof.
  intros [Hx| <-]; [|rewrite atan_0; lra].
  left. rewrite <- atan_0. apply atan_increasing, Hx.
Qed.

Lemma atan_nonpos (x : R) : (x <= 0)%R → (atan x <= 0)%R.
Proof.
  intros [Hx| ->]; [|rewrite atan_0; lra].
  left. rewrite <- atan_0. apply atan_increasing, Hx.
Qed.

(** X7.  The sweep of the RC low-pass in closed form.  For the tag
    ['1 / (1 + sRC)'] and finite [R] and [C] of magnitude at most 1e70 (so
    that no intermediate product leaves the range of a double), the values
    stored at every frequency are, in exact real arithmetic, the gain
    [-10 log10 (1 + x^2)] dB and the phase [- atan x] in degrees, where
    [x = 2 pi f R C]: the gain is never above 0 dB, the phase is within
    [-90, 90] degrees, it is not positive when [R C >= 0] and not negative
    when [R C <= 0]. *)
Theorem sweep_rc_lowpass (c : Circuit) (p : Params) (r cap : R) :
  transferFunction c = Some "1 / (1 + sRC)"%string →
  values p !! "R"%string = Some (Fin r) →
  values p !! "C"%string = Some (Fin cap) →
  (Rabs r <= 1e70)%R → (Rabs cap <= 1e70)%R →
  ∃ mag phase,
    solveFrequencyResponse c p = FreqComplete generateFrequencyVector_default mag phase
    ∧ ∀ i, (i < 500)%nat →
        let x := (2 * PI * Rpower 10 (INR i * 6 / 499) * r * cap)%R in
        ∃ g ph,
          aget mag i = Some (Fin g) ∧ aget phase i = Some (Fin ph)
          ∧ g = (-10 * (ln (1 + x * x) / ln 10))%R ∧ ph = (- atan x * 180 / PI)%R
          ∧ (g <= 0)%R ∧ (-90 <= ph <= 90)%R
          ∧ ((0 <= r * cap)%R → (ph <= 0)%R)
          ∧ ((r * cap <= 0)%R → (0 <= ph)%R).
Proof.
  intros Htf HR HC _ _. unfold solveFrequencyResponse. cbv zeta.
  rewrite Htf. unfold is_str at 1. rewrite bool_decide_true by reflexivity.
  rewrite (sweep_dense (λ w, cDiv (Fin 1, Fin 0) (Fin 1, w * getp p "R" * getp p "C"))).
  eexists _, _. split; [reflexivity|]. intros i Hi.
  rewrite !dense_lookup by exact Hi. cbn [compose]. unfold mag_dB, phase_deg.
  rewrite (getp_fin _ _ _ HR), (getp_fin _ _ _ HC). fin_arith.
  set (x := (2 * PI * Rpower 10 (INR i * 6 / 499) * r * cap)%R).
  destruct (lowpass_point x) as [-> ->].
  eexists _, _. split; [reflexivity|]. split; [reflexivity|].
  split; [reflexivity|]. split; [reflexivity|].
  pose proof ln10_pos as H10. pose proof PI_RGT_0 as Hpi.
  pose proof (atan_bound x) as [Hlo Hhi].
  assert (Hln : (0 <= ln (1 + x * x))%R).
  { destruct (Req_dec x 0) as [->|Hx].
    - replace (1 + 0 * 0)%R with 1%R by lra. rewrite ln_1. lra.
    - rewrite <- ln_1. left. apply ln_increasing; nra. }
  assert (Hw : (0 < 2 * PI * Rpower 10 (INR i * 6 / 499))%R).
  { pose proof (exp_pos (INR i * 6 / 499 * ln 10)) as He. unfold Rpower.
    apply Rmult_lt_0_compat; lra. }
  assert (Hx : x = (2 * PI * Rpower 10 (INR i * 6 / 499) * (r * cap))%R)
    by (subst x; ring).
  assert (Hdeg : ∀ a lo hi : R, (lo * PI <= a * 180 <= hi * PI)%R →
                                (lo <= a * 180 / PI <= hi)%R).
  { intros a lo hi [H1 H2]. split.
    - apply (Rmult_le_reg_r PI); [exact Hpi|].
      replace (a * 180 / PI * PI)%R with (a * 180)%R by (field; lra). exact H1.
    - apply (Rmult_le_reg_r PI); [exact Hpi|].
      replace (a * 180 / PI * PI)%R with (a * 180)%R by (field; lra). exact H2. }
  split.
  { assert (0 <= ln (1 + x * x) / ln 10)%R
      by (unfold Rdiv; apply Rmult_le_pos; [lra|left; apply Rinv_0_lt_compat; lra]). lra. }
  split; [apply Hdeg; lra|]. split.
  - intros Hrc. assert (0 <= x)%R by (rewrite Hx; apply Rmult_le_pos; lra).
    pose proof (atan_nonneg x ltac:(assumption)).
    apply (Hdeg (- atan x)%R (-90)%R 0%R). lra.
  - intros Hrc. assert (x <= 0)%R.
    { rewrite Hx. replace (2 * PI * Rpower 10 (INR i * 6 / 499) * (r * cap))%R
        with (- (2 * PI * Rpower 10 (INR i * 6 / 499) * (- (r * cap))))%R by ring.
      assert (0 <= 2 * PI * Rpower 10 (INR i * 6 / 499) * - (r * cap))%R
        by (apply Rmult_le_pos; lra). lra. }
    pose proof (atan_nonpos x ltac:(assumption)).
    apply (Hdeg (- atan x)%R 0%R 90%R). lra.
Qed.

Lemma sweep_rc_lowpass_witness :
  let p := mkParams (defaults rc_charge) (Some "Step"%string) in
  ∃ mag phase g ph,
    solveFrequencyResponse rc_charge p = FreqComplete generateFrequencyVector_default mag phase
    ∧ aget mag 0 = Some (Fin g) ∧ aget phase 0 = Some (Fin ph)
    ∧ (g <= 0)%R ∧ (ph <= 0)%R.
Proof.
  intros p.
  destruct (sweep_rc_lowpass rc_charge p 1000 0.000001 eq_refl eq_refl eq_refl)
    as (mag & phase & Hs & Hall); [rabs|rabs|].
  destruct (Hall 0%nat ltac:(lia)) as (g & ph & Hg & Hp & _ & _ & Hle & _ & Hlag & _).
  exists mag, phase, g, ph. split; [exact Hs|]. split; [exact Hg|]. split; [exact Hp|].
  split; [exact Hle|]. apply Hlag. lra.
Defined.


Ltac pick_tag Htf :=
  unfold solveFrequencyResponse; cbv zeta; rewrite Htf; unfold is_str;
  repeat first [ rewrite bool_decide_true by reflexivity
               | rewrite bool_decide_false by discriminate ];
  cbv iota.






Lemma inf_response (a : R) (b : num) (d : R) :
  a ≠ 0%R → (b = PInf ∨ b = NInf) →
  cDiv (Fin 0, Fin a) (Fin d, b) = (NaN, NaN).
Proof.
  intros Ha [-> | ->]; unfold cDiv, nmul, nadd, nsub, nneg, ndiv, strict_eq, sign, inf_of;
    destruct (decide (0 < a)%R); try destruct (decide (a < 0)%R); try lra;
    cbn; rewrite ?decide_False by lra; reflexivity.
Qed.

(** X10.  For the parallel tag, [R = 0] makes the imaginary part of the
    denominator infinite: with an inductance that is not zero the sweep
    stores NaN as gain and as phase at every frequency, and still reports
    completion. *)
Theorem sweep_parallel_short (c : Circuit) (p : Params) (l cap : R) :
  transferFunction c = Some "sL / (s^2LC + sL/R + 1)"%string →
  values p !! "R"%string = Some (Fin 0) →
  values p !! "L"%string = Some (Fin l) → l ≠ 0%R →
  values p !! "C"%string = Some (Fin cap) →
  ∃ mag phase,
    solveFrequencyResponse c p = FreqComplete generateFrequencyVector_default mag phase
    ∧ ∀ i, (i < 500)%nat → aget mag i = Some NaN ∧ aget phase i = Some NaN.
Proof.
  intros Htf HR HL Hl HC. pick_tag Htf. rewrite sweep_dense.
  rewrite (getp_fin _ _ _ HR), (getp_fin _ _ _ HL), (getp_fin _ _ _ HC).
  eexists _, _. split; [reflexivity|]. intros i Hi.
  rewrite !dense_lookup by exact Hi. unfold mag_dB, phase_deg. cbv beta.
  unfold sq. fin_arith.
  set (w := (2 * PI * Rpower 10 (INR i * 6 / 499))%R).
  assert (Hw : (0 < w)%R).
  { subst w. unfold Rpower. pose proof PI_RGT_0.
    pose proof (exp_pos (INR i * 6 / 499 * ln 10)). apply Rmult_lt_0_compat; lra. }
  assert (Hwl : (w * l)%R ≠ 0%R) by (intros E; apply Rmult_integral in E; lra).
  rewrite (inf_response (w * l) (Fin (w * l) / Fin 0)).
  - split; reflexivity.
  - exact Hwl.
  - unfold ndiv, sign. rewrite decide_True by reflexivity.
    destruct (decide (0 < w * l)%R); [left; reflexivity|].
    destruct (decide (w * l < 0)%R); [right; reflexivity|lra].
Qed.

Lemma sweep_parallel_short_witness :
  let p := mkParams (<["R"%string := Fin 0]> (defaults rlc_parallel)) (Some "Step"%string) in
  ∃ mag phase,
    solveFrequencyResponse rlc_parallel p
    = FreqComplete generateFrequencyVector_default mag phase
    ∧ aget mag 0 = Some NaN ∧ aget phase 0 = Some NaN.
Proof.
  intros p.
  destruct (sweep_parallel_short rlc_parallel p 0.01 0.00001 eq_refl eq_refl eq_refl)
    as (mag & phase & Hs & Hall).
  { lra. }
  { reflexivity. }
  exists mag, phase. split; [exact Hs|]. apply Hall. lia.
Defined.


(** ** More on the pole analyzer *)

Lemma guard_positive (L C : num) :
  negb (truthy L) || negb (truthy C) || (L <=? Fin 0) || (C <=? Fin 0)
  = negb ((L >? Fin 0) && (C >? Fin 0)).
Proof.
  assert (HL : negb (truthy L) || (L <=? Fin 0) = negb (L >? Fin 0)).
  { destruct L as [x| | |]; try reflexivity. fin_arith.
    destruct (decide (0 < x)%R); decide_by lra; rewrite ?orb_true_r; reflexivity. }
  assert (HC : negb (truthy C) || (C <=? Fin 0) = negb (C >? Fin 0)).
  { destruct C as [x| | |]; try reflexivity. fin_arith.
    destruct (decide (0 < x)%R); decide_by lra; rewrite ?orb_true_r; reflexivity. }
  rewrite negb_andb, <- HL, <- HC.
  destruct (truthy L), (truthy C), (L <=? Fin 0), (C <=? Fin 0); reflexivity.
Qed.

Lemma assess_not_na (roots : list Pole) : status (assess_stability roots) ≠ "N/A"%string.
Proof.
  unfold assess_stability.
  destruct (existsb _ roots); [discriminate|].
  destruct (List.filter _ roots) as [|p0 rest]; [discriminate|].
  match goal with |- context [if ?b then _ else _] => destruct b end; discriminate.
Qed.

(** X11.  The analyzer answers "N/A" with no poles exactly when [L] or [C] is
    not a positive number (zero, negative, NaN or missing); otherwise it
    returns two poles and one of the three verdicts. *)
Theorem analyzer_guard (R L C : num) :
  let a := calculatePolesAndStability R L C in
  ((L >? Fin 0) && (C >? Fin 0) = false →
     a = {| pz_poles := [];
            pz_stabilityStatus :=
              {| status := "N/A"; details := "L or C is zero or negative." |} |})
  ∧ ((L >? Fin 0) && (C >? Fin 0) = true →
     (∃ p1 p2, pz_poles a = [p1; p2])
     ∧ pz_stabilityStatus a = assess_stability (pz_poles a)
     ∧ status (pz_stabilityStatus a) ≠ "N/A"%string).
Proof.
  cbv zeta. unfold calculatePolesAndStability. rewrite guard_positive. split.
  - intros ->. reflexivity.
  - intros ->. cbn [negb pz_poles pz_stabilityStatus].
    split; [|split; [reflexivity|apply assess_not_na]].
    destruct (_ >=? Fin 0); eexists _, _; reflexivity.
Qed.

Section ComplexPair.
Variables (r l c : R).
Hypotheses (Hl : (0 < l)%R) (Hc : (0 < c)%R).
Hypothesis Hd : (r / l * (r / l) - 4 * (1 / (l * c)) < 0)%R.



End ComplexPair.



(** ** More on the router *)





Lemma default_points_eq : default_points = 1000%nat.
Proof. with_strategy transparent [default_points] reflexivity. Qed.

Lemma time_length f init p a b n :
  length (time (solveODE f init p a b (S n))) = S n.
Proof.
  destruct (solveODE_unfold f init p a b n) as [-> _].
  rewrite length_fmap. apply rk4_samples_length.
Qed.


Section ParallelVerdict.
Variables (p : Params) (r l c : R) (v : num).
Hypotheses (HR : values p !! "R"%string = Some (Fin r))
           (HL : values p !! "L"%string = Some (Fin l))
           (HC : values p !! "C"%string = Some (Fin c))
           (HV : values p !! "V"%string = Some v)
           (Hv : v ≠ NaN)
           (Hr : (0 < r)%R) (Hl : (0 < l)%R) (Hc : (0 < c)%R).

Local Abbreviation bp := (1 / (r * c))%R.
Local Abbreviation dp := (bp * bp - 4 * (1 / (l * c)))%R.
Local Abbreviation stable := {| status := "Stable"; details := "All poles Re(p) < 0." |}.

Lemma parallel_valid : validate rlc_parallel p = None.
Proof.
  apply validate_none. intros q Hq.
  cbn [rlc_parallel params] in Hq.
  repeat (apply elem_of_cons in Hq as [->|Hq]); try (apply elem_of_nil in Hq; destruct Hq);
    intros [H|H]; congruence.
Qed.

Lemma parallel_analysis_fin :
  parallel_analysis (Fin r) (Fin l) (Fin c)
  = (if bool_decide (0 <= dp)%R then real_roots bp dp else complex_roots bp dp, stable).
Proof.
  pose proof (Rmult_lt_0_compat r c Hr Hc) as Hrc.
  pose proof (Rmult_lt_0_compat l c Hl Hc) as Hlc.
  assert (Hb : (0 < bp)%R) by (apply Rdiv_lt_0_compat; lra).
  assert (Hc0 : (0 < 1 / (l * c))%R) by (apply Rdiv_lt_0_compat; lra).
  unfold parallel_analysis. cbv zeta. fin_arith.
  destruct (bool_decide (0 <= dp)%R) eqn:Hd.
  - apply bool_decide_eq_true_1 in Hd. fin_arith.
    pose proof (sqrt_sqrt dp Hd) as Hs. pose proof (sqrt_pos dp) as Hs0.
    assert (Hsb : (sqrt dp < bp)%R) by nra.
    cbn [existsb re]. fin_arith. decide_by lra. reflexivity.
  - apply bool_decide_eq_false_1 in Hd. fin_arith.
    cbn [existsb re]. fin_arith. decide_by lra. reflexivity.
Qed.

Lemma parallel_router_analysis :
  analysis rlc_parallel p
  = (Some (if bool_decide (0 <= dp)%R then real_roots bp dp else complex_roots bp dp),
     [ {| re := Fin 0; im := Fin 0 |} ], Some stable).
Proof.
  unfold analysis, getp. rewrite HR, HL, HC.
  cbn [rlc_parallel order id transferFunction to_num default Datatypes.id from_option].
  replace (includes "2-rlc-parallel" "rllc-series") with false by reflexivity.
  replace (includes "2-rlc-parallel" "rlcc-series") with false by reflexivity.
  replace (includes "2-rlc-parallel" "rlc-parallel") with true by reflexivity.
  replace (is_str (Some "sL / (s^2LC + sL/R + 1)"%string) "(sRC) / (s^2LC + sRC + 1)")
    with false by reflexivity.
  replace (is_str (Some "sL / (s^2LC + sL/R + 1)"%string) "sL / (s^2LC + sL/R + 1)")
    with true by reflexivity.
  replace (bool_decide (2%nat = 2%nat)) with true by reflexivity.
  cbn [orb negb andb]. rewrite parallel_analysis_fin. fin_arith.
  rewrite (bool_decide_eq_true_2 (0 < r)%R) by exact Hr.
  rewrite (bool_decide_eq_true_2 (0 < l)%R) by exact Hl.
  rewrite (bool_decide_eq_true_2 (0 < c)%R) by exact Hc.
  reflexivity.
Qed.

Lemma parallel_solve :
  ∃ res, solve rlc_parallel p = Complete res
         ∧ poles res = (analysis rlc_parallel p).1.1
         ∧ zeros res = (analysis rlc_parallel p).1.2
         ∧ stabilityStatus res = (analysis rlc_parallel p).2.
Proof.
  destruct (solve_valid rlc_parallel p) as (? & ? & ? & ? & ? & _ & _ & _ & _ & Hs).
  { eexists _, _. split; reflexivity. }
  { exact parallel_valid. }
  eexists. split; [exact Hs|]. repeat split; reflexivity.
Qed.

End ParallelVerdict.

(** X14.  For the parallel topology with [R], [L] and [C] positive and
    between 1e-70 and 1e70 (so that no intermediate product leaves the range
    of a double), the simulation reports two poles, neither with a positive
    real part, lists the zero at the origin, and its verdict is always
    "Stable": the parallel branch has no "Marginally Stable" and no
    repeated-pole case, however close to the imaginary axis a pole lies. *)
Theorem parallel_poles (p : Params) (r l c : R) (v : num) :
  values p !! "R"%string = Some (Fin r) →
  values p !! "L"%string = Some (Fin l) →
  values p !! "C"%string = Some (Fin c) →
  values p !! "V"%string = Some v → v ≠ NaN →
  (1e-70 <= r <= 1e70)%R → (1e-70 <= l <= 1e70)%R → (1e-70 <= c <= 1e70)%R →
  ∃ res p1 p2,
    solve rlc_parallel p = Complete res
    ∧ poles res = Some [p1; p2]
    ∧ (re p1 <=? Fin 0) = true ∧ (re p2 <=? Fin 0) = true
    ∧ (re p1 >? Fin 1e-9) = false ∧ (re p2 >? Fin 1e-9) = false
    ∧ zeros res = [ {| re := Fin 0; im := Fin 0 |} ]
    ∧ stabilityStatus res
      = Some {| status := "Stable"; details := "All poles Re(p) < 0." |}.
Proof.
  intros HR HL HC HV Hv [Hr _] [Hl _] [Hc _].
  assert (Hr0 : (0 < r)%R) by lra. assert (Hl0 : (0 < l)%R) by lra.
  assert (Hc0' : (0 < c)%R) by lra.
  destruct (parallel_solve p r l c v HR HL HC HV Hv) as (res & Hs & Hp & Hz & Hst).
  rewrite (parallel_router_analysis p r l c HR HL HC Hr0 Hl0 Hc0') in Hp, Hz, Hst.
  cbn [fst snd] in Hp, Hz, Hst.
  pose proof (Rmult_lt_0_compat r c Hr0 Hc0') as Hrc.
  pose proof (Rmult_lt_0_compat l c Hl0 Hc0') as Hlc.
  set (b := (1 / (r * c))%R) in *. set (c0 := (1 / (l * c))%R) in *.
  assert (Hb : (0 < b)%R) by (apply Rdiv_lt_0_compat; lra).
  assert (Hc0 : (0 < c0)%R) by (apply Rdiv_lt_0_compat; lra).
  set (d := (b * b - 4 * c0)%R) in *.
  destruct (bool_decide (0 <= d)%R) eqn:Hd.
  - apply bool_decide_eq_true_1 in Hd.
    pose proof (sqrt_sqrt d Hd) as Hsq. pose proof (sqrt_pos d) as Hs0.
    set (s := sqrt d) in *.
    assert (Hsb : (s < b)%R) by (unfold d in Hsq; nra).
    exists res, {| re := Fin ((- b + s) / 2); im := Fin 0 |},
                {| re := Fin ((- b - s) / 2); im := Fin 0 |}.
    split; [exact Hs|]. split; [exact Hp|]. cbn [re]. fin_arith.
    rewrite !bool_decide_eq_true_2 by lra. rewrite !bool_decide_eq_false_2 by lra.
    split; [reflexivity|]. split; [reflexivity|]. split; [reflexivity|].
    split; [reflexivity|]. split; [exact Hz|exact Hst].
  - apply bool_decide_eq_false_1 in Hd. apply Rnot_le_lt in Hd.
    exists res, {| re := Fin (- b / 2); im := Fin (sqrt (- d) / 2) |},
                {| re := Fin (- b / 2); im := Fin (- (sqrt (- d) / 2)) |}.
    split; [exact Hs|]. split; [exact Hp|]. cbn [re]. fin_arith.
    rewrite !bool_decide_eq_true_2 by lra. rewrite !bool_decide_eq_false_2 by lra.
    split; [reflexivity|]. split; [reflexivity|]. split; [reflexivity|].
    split; [reflexivity|]. split; [exact Hz|exact Hst].
Qed.

Lemma parallel_poles_witness :
  let p := mkParams (defaults rlc_parallel) (Some "Step"%string) in
  ∃ res, solve rlc_parallel p = Complete res
    ∧ stabilityStatus res
      = Some {| status := "Stable"; details := "All poles Re(p) < 0." |}.
Proof.
  intros p.
  destruct (parallel_poles p 50 0.01 0.00001 (Fin 1) eq_refl eq_refl eq_refl eq_refl)
    as (res & ? & ? & Hs & _ & _ & _ & _ & _ & _ & Hst);
    [discriminate|lra|lra|lra|].
  exists res. split; [exact Hs|exact Hst].
Defined.

Lemma definitions_defaults (c : Circuit) :
  c ∈ circuitDefinitions → ∀ q, q ∈ params c → ∃ x, defaults c !! q = Some (Fin x).
Proof.
  intros Hc. unfold circuitDefinitions in Hc.
  repeat (apply elem_of_cons in Hc as [->|Hc]); try (apply elem_of_nil in Hc; destruct Hc);
    intros q Hq; cbn [params rc_charge rl_energize rlc_series rc_discharge rl_deenergize
                      rlc_parallel rllc_series rlcc_series] in Hq;
    repeat (apply elem_of_cons in Hq as [->|Hq]);
    try (apply elem_of_nil in Hq; destruct Hq); eexists; reflexivity.
Qed.

Lemma definitions_tags (c : Circuit) :
  c ∈ circuitDefinitions → ∃ s, s ∈ implemented_tags ∧ transferFunction c = Some s.
Proof.
  intros Hc. unfold circuitDefinitions in Hc.
  repeat (apply elem_of_cons in Hc as [->|Hc]); try (apply elem_of_nil in Hc; destruct Hc);
    (eexists; split; [|reflexivity]); unfold implemented_tags; set_solver.
Qed.

(** X15.  The table of circuit definitions agrees with the engine: the solver
    key of every definition is registered, its default values give every
    required parameter a finite number, its transfer-function tag is one of
    the six the sweep implements, and so the simulation of a definition
    with its own defaults completes under any waveform. *)
Theorem definitions_runnable (c : Circuit) (waveform : option string) :
  c ∈ circuitDefinitions →
  registered models c
  ∧ (∀ q, q ∈ params c → ∃ x, defaults c !! q = Some (Fin x))
  ∧ (∃ s, s ∈ implemented_tags ∧ transferFunction c = Some s)
  ∧ ∃ res, solve c (mkParams (defaults c) waveform) = Complete res.
Proof.
  intros Hc. pose proof (definitions_registered c Hc) as Hreg.
  pose proof (definitions_defaults c Hc) as Hdef.
  split; [exact Hreg|]. split; [exact Hdef|]. split; [exact (definitions_tags c Hc)|].
  destruct (solve_valid c (mkParams (defaults c) waveform) Hreg)
    as (? & ? & ? & ? & ? & _ & _ & _ & _ & Hs).
  - apply validate_none. intros q Hq [H|H]; destruct (Hdef q Hq) as [x Hx];
      cbn [values] in H; rewrite Hx in H; discriminate.
  - eexists. exact Hs.
Qed.

Lemma definitions_runnable_witness :
  ∃ res, solve rlcc_series (mkParams (defaults rlcc_series) (Some "Sine"%string))
         = Complete res.
Proof.
  apply (definitions_runnable rlcc_series (Some "Sine"%string)).
  apply list_elem_of_In. simpl. tauto.
Defined.


Lemma ndiv_nan_l (a : num) : NaN / a = NaN.
Proof. reflexivity. Qed.




(** ** The traces of the models *)

Lemma amapM_from_lookup {A B : Type} (g : A → nat → B) (a : list (option A)) :
  ∀ (i : nat) (r : list (option B)),
    amapM_from (λ v j, Normal (g v j)) i a = Normal r →
    length r = length a
    ∧ ∀ k, aget r k = (λ v, g v (i + k)%nat) <$> aget a k.
Proof.
  induction a as [|[v|] a IH]; intros i r Hr; cbn [amapM_from] in Hr.
  - injection Hr as <-. split; [reflexivity|]. intros k. reflexivity.
  - destruct (amapM_from_pure g a (S i)) as [r' Hr']. rewrite Hr' in Hr.
    cbn [mbind completion_bind] in Hr. injection Hr as <-.
    destruct (IH _ _ Hr') as [Hlen Hk]. split; [simpl; rewrite Hlen; reflexivity|].
    intros [|k]; [unfold aget; cbn; rewrite Nat.add_0_r; reflexivity|].
    change (aget (Some (g v i) :: r') (S k)) with (aget r' k).
    change (aget (Some v :: a) (S k)) with (aget a k).
    rewrite Hk. replace (S i + k)%nat with (i + S k)%nat by lia. reflexivity.
  - destruct (amapM_from_pure g a (S i)) as [r' Hr']. rewrite Hr' in Hr.
    cbn [mbind completion_bind] in Hr. injection Hr as <-.
    destruct (IH _ _ Hr') as [Hlen Hk]. split; [simpl; rewrite Hlen; reflexivity|].
    intros [|k]; [reflexivity|].
    change (aget (None :: r') (S k)) with (aget r' k).
    change (aget (None :: a) (S k)) with (aget a k).
    rewrite Hk. replace (S i + k)%nat with (i + S k)%nat by lia. reflexivity.
Qed.

Lemma amapM_lookup {A B : Type} (g : A → nat → B) (a : list (option A))
    (r : list (option B)) :
  amapM (λ v j, Normal (g v j)) a = Normal r →
  length r = length a ∧ ∀ k, aget r k = (λ v, g v k) <$> aget a k.
Proof. apply amapM_from_lookup. Qed.

(** The trace object of a model, when its two state columns exist. *)
Lemma series_map (res : ODEResult) (p : Params) (key : string) (c0 c1 : list (option num))
    (td : Traces) :
  y res 0 = Some c0 → y res 1 = Some c1 →
  (Vl ← amapM (λ t i, y0i ← index (y res 0) i; y1i ← index (y res 1) i;
                      Normal (getVin t p - y0i - y1i * getp p "R"))
              (time res);
   Vr ← map_of (y res 1) (λ i _, Normal (i * getp p "R"));
   Normal (list_to_map [("Vc"%string, y res 0); ("i"%string, y res 1);
                        (key, Some Vl); ("Vr"%string, Some Vr)])) = Normal td →
  ∃ vl vr,
    td = list_to_map [("Vc"%string, Some c0); ("i"%string, Some c1);
                      (key, Some vl); ("Vr"%string, Some vr)]
    ∧ (∀ k, aget vl k
            = (λ t, getVin t p - to_num (aget c0 k) - to_num (aget c1 k) * getp p "R")
              <$> aget (time res) k)
    ∧ (∀ k, aget vr k = (λ i, i * getp p "R") <$> aget c1 k).
Proof.
  intros H0 H1 Hmap. rewrite H0, H1 in Hmap. cbn [index map_of mbind completion_bind] in Hmap.
  destruct (amapM_pure (λ t i, getVin t p - to_num (aget c0 i) - to_num (aget c1 i) * getp p "R")
              (time res)) as [vl Hvl].
  destruct (amapM_pure (λ (i : num) (_ : nat), i * getp p "R") c1) as [vr Hvr].
  rewrite Hvl in Hmap. cbn [mbind completion_bind] in Hmap.
  rewrite Hvr in Hmap. cbn [mbind completion_bind] in Hmap.
  injection Hmap as <-. exists vl, vr. split; [reflexivity|].
  split; [apply (amapM_lookup _ _ _ Hvl)|apply (amapM_lookup _ _ _ Hvr)].
Qed.

Lemma spread_lookup (td : Traces) (k : string) :
  k ∉ result_keys → foldr delete td result_keys !! k = td !! k.
Proof.
  intros Hk. induction result_keys as [|q ks IH]; [reflexivity|].
  cbn [foldr]. apply not_elem_of_cons in Hk as [Hq Hks].
  rewrite lookup_delete_ne by congruence. apply IH, Hks.
Qed.

Lemma two_columns (f : odeFunc) (s0 s1 : num) (p : Params) (a b : num) (n : nat) :
  ∃ c0 c1, y (solveODE f [s0; s1] p a b n) 0 = Some c0
           ∧ y (solveODE f [s0; s1] p a b n) 1 = Some c1.
Proof.
  pose proof (ys_length f [s0; s1] p a b n) as Hlen. unfold y.
  destruct (ys (solveODE f [s0; s1] p a b n)) as [|c0 [|c1 [|]]]; try discriminate.
  exists c0, c1. split; reflexivity.
Qed.

Lemma series_model (name key : string) (model : Model) :
  (name = "solveRlcSeries"%string ∧ key = "Vl"%string)
  ∨ (name = "solveRllcSeries"%string ∧ key = "Vl_total"%string) →
  models !! name = Some model →
  (∃ f, func model = Some f) ∧ initialState model = InitArray [Fin 0; Fin 0]
  ∧ map model
    = λ res params,
        Vl ← amapM (λ t i, y0i ← index (y res 0) i; y1i ← index (y res 1) i;
                           Normal (getVin t params - y0i - y1i * getp params "R"))
                   (time res);
        Vr ← map_of (y res 1) (λ i _, Normal (i * getp params "R"));
        Normal (list_to_map [("Vc"%string, y res 0); ("i"%string, y res 1);
                             (key, Some Vl); ("Vr"%string, Some Vr)]).
Proof.
  intros [[-> ->]|[-> ->]] Hm; unfold models in Hm; apply elem_of_list_to_map_2 in Hm;
    repeat (apply elem_of_cons in Hm as [Hm|Hm]); try (apply elem_of_nil in Hm; destruct Hm);
    try discriminate Hm; injection Hm as ->;
    (split; [eexists; reflexivity|split; reflexivity]).
Qed.

(** X17.  Kirchhoff's voltage law on the traces of the two series RLC models:
    in a complete result the traces [Vc], [i], [Vr] and the inductor voltage
    ([Vl], or [Vl_total] for the two inductors) are present, and at every
    sample whose values are finite the three voltages add up to the source
    voltage at that time, with [Vr = i R]. *)
Theorem series_kvl (c : Circuit) (key : string) (p : Params) (res : SimulationResult) :
  (c = rlc_series ∧ key = "Vl"%string) ∨ (c = rllc_series ∧ key = "Vl_total"%string) →
  solve c p = Complete res →
  ∃ vc cur vl vr,
    timeDomain res !! "Vc"%string = Some (Some vc)
    ∧ timeDomain res !! "i"%string = Some (Some cur)
    ∧ timeDomain res !! key = Some (Some vl)
    ∧ timeDomain res !! "Vr"%string = Some (Some vr)
    ∧ ∀ k t (a b r vin : R),
        aget (sim_time res) k = Some t → aget vc k = Some (Fin a) →
        aget cur k = Some (Fin b) → getp p "R" = Fin r → getVin t p = Fin vin →
        aget vr k = Some (Fin (b * r))
        ∧ ∃ x, aget vl k = Some (Fin x) ∧ (x + a + b * r = vin)%R.
Proof.
  intros Hc Hs.
  destruct (solve_complete_inv _ _ _ Hs) as (Hreg & Hval & _).
  destruct (solve_valid _ p Hreg Hval)
    as (model & f & td & mg & ph & Hm & Hf & Hfr & Hmap & Hs').
  rewrite Hs in Hs'.
  pose proof (f_equal (λ r, match r with Complete x => timeDomain x | _ => ∅ end) Hs') as Htd.
  pose proof (f_equal (λ r, match r with Complete x => sim_time x | _ => [] end) Hs') as Htime.
  cbv beta iota in Htd, Htime. cbn [timeDomain sim_time] in Htd, Htime. clear Hs'.
  assert (Hmodel : (solver c = "solveRlcSeries"%string ∧ key = "Vl"%string)
                   ∨ (solver c = "solveRllcSeries"%string ∧ key = "Vl_total"%string)).
  { destruct Hc as [[-> ->]|[-> ->]]; [left|right]; split; reflexivity. }
  destruct (series_model _ key model Hmodel Hm) as (_ & Hinit & Hmapeq).
  rewrite Hinit in Hmap, Htime. rewrite Hmapeq in Hmap.
  set (ode := solveODE f [Fin 0; Fin 0] p (Fin 0) (getp p "tEnd") default_points) in *.
  destruct (two_columns f (Fin 0) (Fin 0) p (Fin 0) (getp p "tEnd") default_points)
    as (c0 & c1 & H0 & H1).
  fold ode in H0, H1.
  destruct (series_map ode p key c0 c1 td H0 H1 Hmap) as (vl & vr & -> & Hvl & Hvr).
  assert (Hkey : key = "Vl"%string ∨ key = "Vl_total"%string).
  { destruct Hc as [[_ ->]|[_ ->]]; [left|right]; reflexivity. }
  exists c0, c1, vl, vr. rewrite Htd.
  assert (Hkept : ∀ k, bool_decide (k ∈ result_keys) = false → k ∉ result_keys)
    by (intros k Hk; exact (proj1 (bool_decide_eq_false _) Hk)).
  split; [rewrite spread_lookup by (apply Hkept; vm_compute; reflexivity);
          destruct Hkey as [-> | ->]; reflexivity|].
  split; [rewrite spread_lookup by (apply Hkept; vm_compute; reflexivity);
          destruct Hkey as [-> | ->]; reflexivity|].
  split; [destruct Hkey as [-> | ->];
          (rewrite spread_lookup by (apply Hkept; vm_compute; reflexivity)); reflexivity|].
  split; [rewrite spread_lookup by (apply Hkept; vm_compute; reflexivity);
          destruct Hkey as [-> | ->]; reflexivity|].
  intros k t a b r vin Ht Ha Hb HR Hvin. rewrite Htime in Ht.
  rewrite Hvr, Hb. cbn [fmap option_fmap option_map]. rewrite HR. fin_arith.
  split; [reflexivity|].
  rewrite Hvl, Ht, Ha, Hb. cbn [fmap option_fmap option_map to_num default from_option Datatypes.id].
  rewrite Hvin, HR. fin_arith. eexists. split; [reflexivity|]. lra.
Qed.

Lemma series_kvl_witness :
  let p := mkParams (defaults rllc_series) (Some "Step"%string) in
  ∃ res vl, solve rllc_series p = Complete res
            ∧ timeDomain res !! "Vl_total"%string = Some (Some vl).
Proof.
  intros p.
  destruct (solve_valid rllc_series p) as (? & ? & ? & ? & ? & _ & _ & _ & _ & Hs).
  { eexists _, _. split; reflexivity. }
  { vm_compute. reflexivity. }
  destruct (series_kvl rllc_series "Vl_total" p _ (or_intror (conj eq_refl eq_refl)) Hs)
    as (vc & cur & vl & vr & _ & _ & Hvl & _).
  eexists _, vl. split; [exact Hs|exact Hvl].
Defined.

(** ** The callers of the metrics calculator *)

Lemma column_length (f : odeFunc) (init : list num) (p : Params) (a b : num) (n j : nat)
    (col : list (option num)) :
  y (solveODE f init p a b (S n)) j = Some col → length col = S n.
Proof.
  unfold y. destruct (solveODE_unfold f init p a b n) as [_ ->].
  rewrite list_lookup_fmap. destruct (seq 0 (length init) !! j); [|discriminate].
  intros H. apply (inj Some) in H. rewrite <- H. cbv beta.
  rewrite length_fmap. apply rk4_samples_length.
Qed.

Lemma result_object_trace (res : SimulationResult) (td : Traces) (k : string) :
  timeDomain res = foldr delete td result_keys →
  bool_decide (k ∈ result_keys) = false →
  field (result_object res) k = field td k.
Proof.
  intros Htd Hk.
  assert (Hn : k ∉ result_keys) by exact (proj1 (bool_decide_eq_false _) Hk).
  unfold field, result_object.
  rewrite !lookup_insert_ne by (intros <-; apply Hn; unfold result_keys; set_solver).
  rewrite Htd, spread_lookup by exact Hn. reflexivity.
Qed.

Lemma result_object_time (res : SimulationResult) :
  field (result_object res) "time" = Some (sim_time res).
Proof. unfold field, result_object. rewrite lookup_insert_eq. reflexivity. Qed.

Ltac pick_model Hm :=
  unfold models in Hm; apply elem_of_list_to_map_2 in Hm;
  repeat (apply elem_of_cons in Hm as [Hm|Hm]); try (apply elem_of_nil in Hm; destruct Hm);
  try discriminate Hm; injection Hm as ->.

Ltac map_invert Hmap :=
  cbn [lookup list_lookup index map_of mbind completion_bind] in Hmap;
  repeat match type of Hmap with
  | context [amapM (λ v j, Normal (@?g v j)) ?a] =>
      let r := fresh "r" in let Hr := fresh "Hr" in
      destruct (amapM_pure g a) as [r Hr]; rewrite Hr in Hmap;
      cbn [mbind completion_bind] in Hmap
  end;
  injection Hmap as <-.

Ltac other_definition H :=
  repeat (destruct H as [H|H]);
  apply (f_equal CircuitDefinitions.id) in H; vm_compute in H; discriminate H.

(** The first state column of a definition's simulation. *)
Lemma first_column (c : Circuit) (p : Params) (res : SimulationResult) :
  c ∈ circuitDefinitions → solve c p = Complete res →
  ∃ (model : Model) (f : odeFunc) (td : Traces) (c0 : list (option num)),
    models !! solver c = Some model ∧ func model = Some f
    ∧ y (solveODE f match initialState model with
                    | InitFunction g => g p | InitArray s => s end
                  p (Fin 0) (getp p "tEnd") default_points) 0 = Some c0
    ∧ timeDomain res = foldr delete td result_keys
    ∧ length (sim_time res) = 1000%nat
    ∧ length c0 = 1000%nat
    ∧ ((c = rc_charge ∨ c = rlc_series ∨ c = rc_discharge ∨ c = rlc_parallel
        ∨ c = rllc_series) → td !! "Vc"%string = Some (Some c0))
    ∧ ((c = rl_energize ∨ c = rl_deenergize) → td !! "iL"%string = Some (Some c0))
    ∧ (c = rlcc_series → td !! "Vc"%string = None).
Proof.
  intros Hc Hs.
  destruct (solve_complete_inv _ _ _ Hs) as (Hreg & Hval & _).
  destruct (solve_valid _ p Hreg Hval)
    as (model & f & td & mg & ph & Hm & Hf & Hfr & Hmap & Hs').
  rewrite Hs in Hs'.
  pose proof (f_equal (λ r, match r with Complete x => timeDomain x | _ => ∅ end) Hs') as Htd.
  pose proof (f_equal (λ r, match r with Complete x => sim_time x | _ => [] end) Hs') as Htime.
  cbv beta iota in Htd, Htime. cbn [timeDomain sim_time] in Htd, Htime.
  assert (Hlen : length (sim_time res) = 1000%nat)
    by (rewrite Htime, default_points_eq; apply time_length).
  clear Hs' Hfr Hval Hreg Hs Htime.
  exists model, f, td.
  assert (Hcol : ∀ init j col,
            y (solveODE f init p (Fin 0) (getp p "tEnd") default_points) j = Some col →
            length col = 1000%nat).
  { intros init j col. rewrite default_points_eq. apply column_length. }
  assert (Hys : ∀ init, length (ys (solveODE f init p (Fin 0) (getp p "tEnd") default_points))
                        = length init) by (intros; apply ys_length).
  pose proof Hm as Hm0.
  unfold circuitDefinitions in Hc.
  repeat (apply elem_of_cons in Hc as [->|Hc]); try (apply elem_of_nil in Hc; destruct Hc);
    cbn [solver rc_charge rl_energize rlc_series rc_discharge rl_deenergize
         rlc_parallel rllc_series rlcc_series] in Hm;
    pick_model Hm; cbn [func initialState map] in Hf, Hmap |- *;
    match type of Hmap with
    | context [solveODE f ?init p (Fin 0) (getp p "tEnd") default_points] =>
        specialize (Hcol init); specialize (Hys init);
        set (ode := solveODE f init p (Fin 0) (getp p "tEnd") default_points) in *
    end;
    unfold y in Hmap, Hcol |- *; cbn [length] in Hys;
    destruct (ys ode) as [|c0 [|c1 [|c2 [|]]]]; try discriminate Hys;
    map_invert Hmap;
    exists c0; (split; [exact Hm0|]); (split; [exact Hf|]); (split; [reflexivity|]);
    (split; [exact Htd|]); (split; [exact Hlen|]);
    (split; [exact (Hcol 0%nat c0 eq_refl)|]);
    (split; [first [intros _; reflexivity | intros H; exfalso; clear -H; other_definition H]|]);
    (split; [first [intros _; reflexivity | intros H; exfalso; clear -H; other_definition H]|]);
    first [intros _; reflexivity | intros H; exfalso; clear -H; other_definition H].
Qed.

(** X18.  What the presentation layer analyses.  For seven of the eight
    definitions, [MetricsDisplay], [AnalysisDisplay] and the report export
    select the same trace, and the complete result holds it with the 1000
    samples of its time axis.  For the circuit with two capacitors
    [MetricsDisplay] returns before computing anything, and the other two
    select ['Vc'], a trace its model does not produce: the metrics that
    definition declares are never computed. *)
Theorem primary_trace (c : Circuit) (p : Params) (res : SimulationResult) :
  c ∈ circuitDefinitions → solve c p = Complete res →
  exportReport_primaryTrace c = AnalysisDisplay_primaryTrace c
  ∧ length (sim_time res) = 1000%nat
  ∧ field (result_object res) "time" = Some (sim_time res)
  ∧ (c ≠ rlcc_series →
       ∃ tr fv sig,
         MetricsDisplay_selection c res = Some (tr, fv)
         ∧ AnalysisDisplay_primaryTrace c = Some tr
         ∧ field (result_object res) tr = Some sig ∧ length sig = 1000%nat)
  ∧ (c = rlcc_series →
       MetricsDisplay_metrics c res = None
       ∧ AnalysisDisplay_primaryTrace c = Some "Vc"%string
       ∧ field (result_object res) "Vc" = None
       ∧ transientMetrics (AnalysisDisplay_primaryTrace c) c res = no_metrics).
Proof.
  intros Hc Hs.
  destruct (first_column c p res Hc Hs)
    as (model & f & td & c0 & _ & _ & _ & Htd & Hlen & Hc0 & HVc & HiL & Hcc).
  assert (HfVc : field (result_object res) "Vc" = field td "Vc")
    by (apply result_object_trace; [exact Htd|vm_compute; reflexivity]).
  assert (HfiL : field (result_object res) "iL" = field td "iL")
    by (apply result_object_trace; [exact Htd|vm_compute; reflexivity]).
  unfold field at 2 in HfVc. unfold field at 2 in HfiL.
  split.
  { clear -Hc. unfold circuitDefinitions in Hc.
    repeat (apply elem_of_cons in Hc as [->|Hc]); try (apply elem_of_nil in Hc; destruct Hc);
      reflexivity. }
  split; [exact Hlen|]. split; [apply result_object_time|].
  clear Hs Htd. unfold circuitDefinitions in Hc.
  repeat (apply elem_of_cons in Hc as [->|Hc]); try (apply elem_of_nil in Hc; destruct Hc).
  - split; [intros _|intros H; exfalso; clear -H; other_definition H].
    exists "Vc"%string, (to_num (finalValue res)), c0.
    rewrite HfVc, HVc by tauto. split; [reflexivity|]. split; [reflexivity|]. split; [reflexivity|exact Hc0].
  - split; [intros _|intros H; exfalso; clear -H; other_definition H].
    exists "iL"%string, (to_num (finalValue res)), c0.
    rewrite HfiL, HiL by tauto. split; [reflexivity|]. split; [reflexivity|]. split; [reflexivity|exact Hc0].
  - split; [intros _|intros H; exfalso; clear -H; other_definition H].
    exists "Vc"%string, (to_num (finalValue res)), c0.
    rewrite HfVc, HVc by tauto. split; [reflexivity|]. split; [reflexivity|]. split; [reflexivity|exact Hc0].
  - split; [intros _|intros H; exfalso; clear -H; other_definition H].
    exists "Vc"%string, (Fin 0), c0.
    rewrite HfVc, HVc by tauto. split; [reflexivity|]. split; [reflexivity|]. split; [reflexivity|exact Hc0].
  - split; [intros _|intros H; exfalso; clear -H; other_definition H].
    exists "iL"%string, (Fin 0), c0.
    rewrite HfiL, HiL by tauto. split; [reflexivity|]. split; [reflexivity|]. split; [reflexivity|exact Hc0].
  - split; [intros _|intros H; exfalso; clear -H; other_definition H].
    exists "Vc"%string, (to_num (finalValue res)), c0.
    rewrite HfVc, HVc by tauto. split; [reflexivity|]. split; [reflexivity|]. split; [reflexivity|exact Hc0].
  - split; [intros _|intros H; exfalso; clear -H; other_definition H].
    exists "Vc"%string, (to_num (finalValue res)), c0.
    rewrite HfVc, HVc by tauto. split; [reflexivity|]. split; [reflexivity|]. split; [reflexivity|exact Hc0].
  - split; [intros H; exfalso; apply H; reflexivity|intros _].
    assert (Hnone : field (result_object res) "Vc" = None)
      by (rewrite HfVc, (Hcc eq_refl); reflexivity).
    split; [reflexivity|]. split; [reflexivity|]. split; [exact Hnone|].
    change (AnalysisDisplay_primaryTrace rlcc_series) with (Some "Vc"%string).
    unfold transientMetrics, calculateMetrics. rewrite Hnone.
    destruct (field (result_object res) "time"); reflexivity.
Qed.

Lemma primary_trace_witness :
  let p := mkParams (defaults rlcc_series) (Some "Step"%string) in
  ∃ res, solve rlcc_series p = Complete res
         ∧ transientMetrics (AnalysisDisplay_primaryTrace rlcc_series) rlcc_series res
           = no_metrics.
Proof.
  intros p.
  destruct (solve_valid rlcc_series p) as (? & ? & ? & ? & ? & _ & _ & _ & _ & Hs).
  { eexists _, _. split; reflexivity. }
  { vm_compute. reflexivity. }
  eexists. split; [exact Hs|].
  apply (primary_trace rlcc_series p _ ltac:(apply list_elem_of_In; simpl; tauto) Hs).
  reflexivity.
Defined.

(** ** More on the metrics calculator *)

(** The peak block: the three entries it writes. *)
Lemma calculateMetrics_peak (result : Traces) (primaryTrace : string)
    (time signal : list (option num)) (finalValue : num) (requested : list string) :
  result !! "time"%string = Some (Some time) →
  result !! primaryTrace = Some (Some signal) →
  let m := calculateMetrics result primaryTrace finalValue requested in
  let peak_block := bool_decide ("peakValue"%string ∈ requested)
                    || bool_decide ("overshoot"%string ∈ requested) in
  peakValue m = (if peak_block
                 then Some {| value := Some (max_of signal); unit := "V" |} else None)
  ∧ peakTime m = (if peak_block
                  then Some {| value := indexOf signal (max_of signal) ≫= aget time;
                               unit := "s" |}
                  else None)
  ∧ overshoot m = (if peak_block && (finalValue >? Fin 1e-6)
                   then Some {| value := Some ((max_of signal - finalValue) / finalValue
                                               * Fin 100);
                                unit := "%" |}
                   else None)
  ∧ (is_Some (riseTime m) → "riseTime"%string ∈ requested)
  ∧ (is_Some (settlingTime m) ↔ "settlingTime"%string ∈ requested).
Proof.
  intros Htime Hsignal. cbv zeta.
  unfold calculateMetrics, field. rewrite Htime, Hsignal.
  destruct (bool_decide ("peakValue"%string ∈ requested)
            || bool_decide ("overshoot"%string ∈ requested));
    destruct (bool_decide ("riseTime"%string ∈ requested)) eqn:Hr;
    destruct (bool_decide ("settlingTime"%string ∈ requested)) eqn:Hst;
    try destruct (findCrossing time signal (finalValue * Fin 0.1));
    try destruct (findCrossing time signal (finalValue * Fin 0.9));
    cbn [peakValue peakTime overshoot riseTime settlingTime no_metrics andb];
    try apply bool_decide_eq_true_1 in Hr; try apply bool_decide_eq_false_1 in Hr;
    try apply bool_decide_eq_true_1 in Hst; try apply bool_decide_eq_false_1 in Hst;
    (split; [reflexivity|]); (split; [reflexivity|]); (split; [reflexivity|]);
    (split; [first [intros _; exact Hr | intros [? [=]]]|]);
    (split; [first [intros _; exact Hst | intros [? [=]]]
            |first [intros _; eexists; reflexivity | intros H; destruct (Hst H)]]).
Qed.

(** X19.  Which metrics a call computes.  With the time axis and the trace
    present, the peak value and the peak time are written exactly when
    ['peakValue'] or ['overshoot'] is requested (a request for ['peakTime']
    alone writes neither), the overshoot only if moreover the final value
    exceeds 1e-6, the settling time exactly when requested and the rise time
    only when requested.  Without the time axis or without the trace nothing
    is computed. *)
Theorem metrics_written (result : Traces) (primaryTrace : string)
    (finalValue : num) (requested : list string) :
  let m := calculateMetrics result primaryTrace finalValue requested in
  let peak_block := "peakValue"%string ∈ requested ∨ "overshoot"%string ∈ requested in
  ((field result "time" = None ∨ field result primaryTrace = None) → m = no_metrics)
  ∧ (is_Some (field result "time") → is_Some (field result primaryTrace) →
       (is_Some (peakValue m) ↔ peak_block)
       ∧ (is_Some (peakTime m) ↔ peak_block)
       ∧ (is_Some (overshoot m) ↔ peak_block ∧ (finalValue >? Fin 1e-6) = true)
       ∧ (is_Some (riseTime m) → "riseTime"%string ∈ requested)
       ∧ (is_Some (settlingTime m) ↔ "settlingTime"%string ∈ requested)).
Proof.
  cbv zeta. split.
  - unfold calculateMetrics. intros [-> | ->]; [reflexivity|].
    destruct (field result "time"); reflexivity.
  - intros [time Ht] [signal Hsig].
    assert (Ht' : result !! "time"%string = Some (Some time)).
    { unfold field in Ht. destruct (result !! "time"%string) as [[a|]|]; congruence. }
    assert (Hs' : result !! primaryTrace = Some (Some signal)).
    { unfold field in Hsig. destruct (result !! primaryTrace) as [[a|]|]; congruence. }
    destruct (calculateMetrics_peak result primaryTrace time signal finalValue requested
                Ht' Hs') as (-> & -> & -> & Hrise & Hsettle).
    assert (Hblock : bool_decide ("peakValue"%string ∈ requested)
                     || bool_decide ("overshoot"%string ∈ requested) = true
                     ↔ "peakValue"%string ∈ requested ∨ "overshoot"%string ∈ requested).
    { rewrite orb_true_iff, !bool_decide_eq_true. reflexivity. }
    destruct (bool_decide ("peakValue"%string ∈ requested)
              || bool_decide ("overshoot"%string ∈ requested)).
    + assert (Hb : "peakValue"%string ∈ requested ∨ "overshoot"%string ∈ requested)
        by (apply Hblock; reflexivity).
      split; [split; [intros _; exact Hb|intros _; eexists; reflexivity]|].
      split; [split; [intros _; exact Hb|intros _; eexists; reflexivity]|].
      split; [|split; [exact Hrise|exact Hsettle]].
      cbn [andb]. destruct (finalValue >? Fin 1e-6).
      * split; [intros _; split; [exact Hb|reflexivity]|intros _; eexists; reflexivity].
      * split; [intros [? [=]]|intros [_ [=]]].
    + assert (Hb : ¬ ("peakValue"%string ∈ requested ∨ "overshoot"%string ∈ requested))
        by (intros H; apply Hblock in H; discriminate H).
      split; [split; [intros [? [=]]|intros H; destruct (Hb H)]|].
      split; [split; [intros [? [=]]|intros H; destruct (Hb H)]|].
      split; [|split; [exact Hrise|exact Hsettle]].
      cbn [andb]. split; [intros [? [=]]|intros [H _]; destruct (Hb H)].
Qed.

Lemma max_fin (a x : R) : Math_max (Fin a) (Fin x) = Fin (Rmax a x).
Proof.
  unfold Math_max. rewrite ltb_fin. unfold Rmax.
  destruct (Rle_dec a x) as [H|H].
  - destruct (decide (a < x)%R) as [H'|H'].
    + rewrite bool_decide_eq_true_2 by exact H'. reflexivity.
    + rewrite bool_decide_eq_false_2 by exact H'. f_equal. lra.
  - rewrite bool_decide_eq_false_2 by lra. reflexivity.
Qed.

Lemma max_of_from (xs : list R) :
  ∀ a : R, ∃ m : R,
    foldl (λ m v, Math_max m (to_num v)) (Fin a) (of_list (Fin <$> xs)) = Fin m
    ∧ (a <= m)%R ∧ (∀ i x, xs !! i = Some x → (x <= m)%R)
    ∧ (m = a ∨ ∃ j, xs !! j = Some m).
Proof.
  induction xs as [|x xs IH]; intros a.
  - exists a. split; [reflexivity|]. split; [lra|]. split; [intros i x [=]|left; reflexivity].
  - cbn [of_list fmap list_fmap foldl to_num default from_option Datatypes.id].
    rewrite max_fin. destruct (IH (Rmax a x)) as (m & Hm & Hle & Hall & Hin).
    exists m. split; [exact Hm|].
    pose proof (Rmax_l a x). pose proof (Rmax_r a x).
    split; [lra|]. split.
    + intros [|i] y Hy; [injection Hy as <-; lra|exact (Hall i y Hy)].
    + destruct Hin as [-> | [j Hj]]; [|right; exists (S j); exact Hj].
      unfold Rmax. destruct (Rle_dec a x); [right; exists 0%nat; reflexivity|left; reflexivity].
Qed.

Lemma max_of_dense (xs : list R) :
  xs ≠ [] →
  ∃ m, max_of (of_list (Fin <$> xs)) = Fin m
       ∧ (∀ i x, xs !! i = Some x → (x <= m)%R) ∧ ∃ j, xs !! j = Some m.
Proof.
  destruct xs as [|x xs]; [intros H; destruct (H eq_refl)|intros _].
  unfold max_of. cbn [of_list fmap list_fmap foldl to_num default from_option Datatypes.id].
  replace (Math_max NInf (Fin x)) with (Fin x) by reflexivity.
  destruct (max_of_from xs x) as (m & Hm & Hle & Hall & Hin).
  exists m. split; [exact Hm|]. split.
  - intros [|i] y Hy; [injection Hy as <-; exact Hle|exact (Hall i y Hy)].
  - destruct Hin as [-> | [j Hj]]; [exists 0%nat; reflexivity|exists (S j); exact Hj].
Qed.

Lemma indexOf_first (xs : list R) (m : R) :
  ∀ (i j : nat), xs !! j = Some m → (∀ k, (k < j)%nat → xs !! k ≠ Some m) →
    indexOf_from (of_list (Fin <$> xs)) (Fin m) i = Some (i + j)%nat.
Proof.
  induction xs as [|x xs IH]; intros i j Hj Hfirst; [discriminate|].
  cbn [of_list fmap list_fmap indexOf_from]. unfold strict_eq.
  destruct j as [|j].
  - injection Hj as ->. rewrite bool_decide_eq_true_2 by reflexivity.
    rewrite Nat.add_0_r. reflexivity.
  - rewrite bool_decide_eq_false_2.
    + replace (i + S j)%nat with (S i + j)%nat by lia.
      apply (IH (S i) j Hj). intros k Hk. apply (Hfirst (S k)). lia.
    + intros ->. apply (Hfirst 0%nat); [lia|reflexivity].
Qed.

Lemma first_occurrence (xs : list R) (m : R) (j : nat) :
  xs !! j = Some m →
  ∃ j0, xs !! j0 = Some m ∧ ∀ k, (k < j0)%nat → xs !! k ≠ Some m.
Proof.
  revert j. induction xs as [|x xs IH]; intros j Hj; [discriminate|].
  destruct (decide (x = m)) as [->|Hx].
  - exists 0%nat. split; [reflexivity|]. intros k Hk. lia.
  - destruct j as [|j]; [injection Hj as ->; destruct (Hx eq_refl)|].
    destruct (IH j Hj) as (j0 & Hj0 & Hfirst).
    exists (S j0). split; [exact Hj0|].
    intros [|k] Hk; [intros [= ->]; destruct (Hx eq_refl)|apply Hfirst; lia].
Qed.

(** X20.  The peak of a trace of finite samples.  When the peak block runs on
    a non-empty trace, the peak value is the largest sample and the peak
    time is the time stored at the first index where it is attained; the
    overshoot, written only for a final value above 1e-6, is
    [(peak - final) / final * 100]. *)
Theorem peak_of_finite_trace (result : Traces) (primaryTrace : string)
    (time : list (option num)) (xs : list R) (finalValue : num) (requested : list string) :
  result !! "time"%string = Some (Some time) →
  result !! primaryTrace = Some (Some (of_list (Fin <$> xs))) →
  xs ≠ [] →
  "peakValue"%string ∈ requested ∨ "overshoot"%string ∈ requested →
  let m := calculateMetrics result primaryTrace finalValue requested in
  ∃ (peak : R) (j : nat),
    xs !! j = Some peak
    ∧ (∀ i x, xs !! i = Some x → (x <= peak)%R)
    ∧ (∀ k, (k < j)%nat → xs !! k ≠ Some peak)
    ∧ peakValue m = Some {| value := Some (Fin peak); unit := "V" |}
    ∧ peakTime m = Some {| value := aget time j; unit := "s" |}
    ∧ overshoot m
      = if finalValue >? Fin 1e-6
        then Some {| value := Some ((Fin peak - finalValue) / finalValue * Fin 100);
                     unit := "%" |}
        else None.
Proof.
  intros Ht Hs Hne Hreq m.
  destruct (calculateMetrics_peak result primaryTrace time _ finalValue requested Ht Hs)
    as (Hpv & Hpt & Hov & _).
  fold m in Hpv, Hpt, Hov.
  assert (Hb : bool_decide ("peakValue"%string ∈ requested)
               || bool_decide ("overshoot"%string ∈ requested) = true).
  { rewrite orb_true_iff, !bool_decide_eq_true. exact Hreq. }
  rewrite Hb in Hpv, Hpt, Hov. cbn [andb] in Hov.
  destruct (max_of_dense xs Hne) as (peak & Hmax & Hall & j & Hj).
  destruct (first_occurrence xs peak j Hj) as (j0 & Hj0 & Hfirst).
  rewrite Hmax in Hpv, Hpt, Hov.
  unfold indexOf in Hpt. rewrite (indexOf_first xs peak 0 j0 Hj0 Hfirst) in Hpt.
  exists peak, j0. split; [exact Hj0|]. split; [exact Hall|]. split; [exact Hfirst|].
  split; [exact Hpv|]. split; [exact Hpt|exact Hov].
Qed.

Lemma peak_of_finite_trace_witness :
  let result : Traces :=
    list_to_map [("time"%string, Some (of_list [Fin 0; Fin 1; Fin 2]));
                 ("Vc"%string, Some (of_list (Fin <$> [0; 3; 3]%R)))] in
  ∃ peak j,
    peakValue (calculateMetrics result "Vc" (Fin 2) ["overshoot"%string])
    = Some {| value := Some (Fin peak); unit := "V" |}
    ∧ [0; 3; 3]%R !! j = Some peak.
Proof.
  intros result.
  destruct (peak_of_finite_trace result "Vc" (of_list [Fin 0; Fin 1; Fin 2]) [0; 3; 3]%R
              (Fin 2) ["overshoot"%string] eq_refl eq_refl)
    as (peak & j & Hj & _ & _ & Hpv & _).
  { discriminate. }
  { right. set_solver. }
  exists peak, j. split; [exact Hpv|exact Hj].
Defined.

Lemma max_nan_absorbs (signal : list (option num)) :
  foldl (λ m v, Math_max m (to_num v)) NaN signal = NaN.
Proof. induction signal as [|v signal IH]; [reflexivity|exact IH]. Qed.

Lemma max_of_nan (signal : list (option num)) (i : nat) :
  (signal !! i = Some None ∨ signal !! i = Some (Some NaN)) →
  max_of signal = NaN.
Proof.
  unfold max_of. generalize NInf. revert i.
  induction signal as [|v signal IH]; intros i a Hi; [destruct Hi; discriminate|].
  cbn [foldl]. destruct i as [|i].
  - assert (Hv : to_num v = NaN) by (destruct Hi as [[= ->]|[= ->]]; reflexivity).
    rewrite Hv. replace (Math_max a NaN) with NaN by (destruct a; reflexivity).
    apply max_nan_absorbs.
  - exact (IH i _ Hi).
Qed.

Lemma indexOf_nan (signal : list (option num)) (i : nat) :
  indexOf_from signal NaN i = None.
Proof.
  revert i. induction signal as [|[x|] signal IH]; intros i; cbn [indexOf_from];
    [reflexivity| |apply IH].
  replace (x === NaN) with false by (destruct x; reflexivity). apply IH.
Qed.

(** X21.  One bad sample spoils the peak: if the trace has a hole or a NaN
    anywhere, the peak value is NaN and the peak time is undefined, since
    NaN is found at no index. *)
Theorem peak_of_spoiled_trace (result : Traces) (primaryTrace : string)
    (time signal : list (option num)) (finalValue : num) (requested : list string)
    (i : nat) :
  result !! "time"%string = Some (Some time) →
  result !! primaryTrace = Some (Some signal) →
  (signal !! i = Some None ∨ signal !! i = Some (Some NaN)) →
  "peakValue"%string ∈ requested ∨ "overshoot"%string ∈ requested →
  let m := calculateMetrics result primaryTrace finalValue requested in
  peakValue m = Some {| value := Some NaN; unit := "V" |}
  ∧ peakTime m = Some {| value := None; unit := "s" |}
  ∧ ∀ o, overshoot m = Some o → value o = Some NaN.
Proof.
  intros Ht Hs Hi Hreq m.
  destruct (calculateMetrics_peak result primaryTrace time signal finalValue requested Ht Hs)
    as (Hpv & Hpt & Hov & _).
  fold m in Hpv, Hpt, Hov.
  assert (Hb : bool_decide ("peakValue"%string ∈ requested)
               || bool_decide ("overshoot"%string ∈ requested) = true).
  { rewrite orb_true_iff, !bool_decide_eq_true. exact Hreq. }
  rewrite Hb in Hpv, Hpt, Hov. cbn [andb] in Hov.
  rewrite (max_of_nan signal i Hi) in Hpv, Hpt, Hov.
  unfold indexOf in Hpt. rewrite indexOf_nan in Hpt.
  split; [exact Hpv|]. split; [exact Hpt|].
  intros o Ho. rewrite Hov in Ho. destruct (finalValue >? Fin 1e-6); [|discriminate].
  injection Ho as <-. cbn [value]. destruct finalValue; reflexivity.
Qed.

Lemma peak_of_spoiled_trace_witness :
  let result : Traces :=
    list_to_map [("time"%string, Some (of_list [Fin 0; Fin 1]));
                 ("Vc"%string, Some [Some (Fin 1); Some NaN])] in
  peakTime (calculateMetrics result "Vc" (Fin 2) ["peakValue"%string])
  = Some {| value := None; unit := "s" |}.
Proof.
  intros result.
  apply (peak_of_spoiled_trace result "Vc" (of_list [Fin 0; Fin 1]) [Some (Fin 1); Some NaN]
           (Fin 2) ["peakValue"%string] 1 eq_refl eq_refl).
  - right. reflexivity.
  - left. set_solver.
Defined.

(** ** The first-order traces *)

Lemma column_lookup (f : odeFunc) (init : list num) (p : Params) (a b : num) (n i : nat)
    (col : list (option num)) :
  y (solveODE f init p a b (S n)) 0 = Some col →
  aget col i
  = rk4_samples f p ((b - a) / (of_nat (S n) - Fin 1)) (S n) a init !! i ≫= λ x, x.2 !! 0%nat.
Proof.
  unfold y. destruct (solveODE_unfold f init p a b n) as [_ ->].
  rewrite list_lookup_fmap. destruct (seq 0 (length init) !! 0%nat) eqn:E; [|discriminate].
  intros H. apply (inj Some) in H. rewrite <- H. cbv beta.
  assert (n0 = 0%nat) as ->.
  { destruct (length init); [discriminate|]. injection E as <-. reflexivity. }
  unfold aget. rewrite list_lookup_fmap.
  destruct (rk4_samples _ _ _ _ _ _ !! i) as [[t s]|]; [|reflexivity].
  cbn. destruct (s !! 0%nat); reflexivity.
Qed.

Lemma rk4_update_nan_state (f : odeFunc) (p : Params) (h t : num) :
  rk4_update f p h t [NaN] = [NaN].
Proof. reflexivity. Qed.

Lemma rk4_update_nan_slope (f : odeFunc) (p : Params) (h t x : num) :
  f t [x] p = [NaN] → rk4_update f p h t [x] = [NaN].
Proof.
  intros Hf. unfold rk4_update. rewrite Hf.
  cbn [imap elt lookup list_lookup to_num default from_option Datatypes.id].
  replace (NaN + Fin 2 * elt _ 0 + Fin 2 * elt _ 0 + elt _ 0) with NaN by reflexivity.
  rewrite nmul_nan_r, nadd_nan_r. reflexivity.
Qed.

Lemma rk4_samples_nan_state (f : odeFunc) (p : Params) (h : num) (n : nat) :
  ∀ (t : num) (i : nat) (t' : num) (s' : list num),
    rk4_samples f p h n t [NaN] !! i = Some (t', s') → s' = [NaN].
Proof.
  induction n as [|n IH]; intros t i t' s' Hi; [discriminate|].
  destruct i as [|i]; cbn [rk4_samples lookup list_lookup] in Hi.
  - injection Hi as _ <-. reflexivity.
  - rewrite rk4_update_nan_state in Hi. exact (IH _ _ _ _ Hi).
Qed.

Lemma nan_after_first (f : odeFunc) (p : Params) (a b x : num) (n i : nat)
    (col : list (option num)) :
  f a [x] p = [NaN] →
  y (solveODE f [x] p a b (S n)) 0 = Some col →
  aget col 0 = Some x ∧ ((1 ≤ i ≤ n)%nat → aget col i = Some NaN).
Proof.
  intros Hf Hcol. rewrite !(column_lookup f [x] p a b n _ col Hcol).
  generalize ((b - a) / (of_nat (S n) - Fin 1)). intros h.
  split; [reflexivity|]. intros Hi. destruct i as [|i]; [lia|].
  change (rk4_samples f p h (S n) a [x] !! S i)
    with (rk4_samples f p h n (a + h) (rk4_update f p h a [x]) !! i).
  rewrite (rk4_update_nan_slope f p h a x Hf).
  destruct (lookup_lt_is_Some_2 (rk4_samples f p h n (a + h) [NaN]) i) as [[t' s'] Hl];
    [rewrite rk4_samples_length; lia|].
  rewrite Hl. rewrite (rk4_samples_nan_state _ _ _ _ _ _ _ _ Hl). reflexivity.
Qed.

Lemma getVin_no_source (p : Params) (w : string) :
  rejected p "V" → inputType p = Some w →
  w ∈ ["Step"; "Sine"; "Ramp"]%string →
  getVin (Fin 0) p = NaN.
Proof.
  intros HV Hw Hin.
  assert (Hv : getp p "V" = NaN) by (unfold getp; destruct HV as [-> | ->]; reflexivity).
  unfold getVin, is_str. rewrite Hw, Hv.
  replace (Fin 0 >=? Fin 0) with true
    by (symmetry; rewrite geb_fin; apply bool_decide_eq_true_2; lra).
  repeat (apply elem_of_cons in Hin as [->|Hin]); [..|apply elem_of_nil in Hin; destruct Hin];
    repeat first [ rewrite bool_decide_eq_true_2 by reflexivity
                 | rewrite bool_decide_eq_false_2 by discriminate ];
    reflexivity.
Qed.

(** X22.  The two discharge definitions do not require [V], but their
    derivative functions read the source through [getVin].  When [V] is
    absent (as in their default values) and the waveform is one of the three
    the engine knows, the source value is NaN from [t = 0] on: the simulation
    completes, its primary trace starts at the initial value [V0] (or [I0])
    and every later sample is NaN. *)
Theorem discharge_without_source (c : Circuit) (key init : string) (p : Params)
    (w : string) :
  (c = rc_discharge ∧ key = "Vc"%string ∧ init = "V0"%string)
  ∨ (c = rl_deenergize ∧ key = "iL"%string ∧ init = "I0"%string) →
  (∀ q, q ∈ params c → ¬ rejected p q) →
  rejected p "V" → inputType p = Some w → w ∈ ["Step"; "Sine"; "Ramp"]%string →
  ∃ res col,
    solve c p = Complete res
    ∧ timeDomain res !! key = Some (Some col)
    ∧ aget col 0 = Some (getp p init)
    ∧ ∀ i, (1 ≤ i < 1000)%nat → aget col i = Some NaN.
Proof.
  intros Hc Hval HV Hw Hin.
  pose proof (getVin_no_source p w HV Hw Hin) as Hvin.
  assert (Hdef : c ∈ circuitDefinitions).
  { destruct Hc as [(-> & _)|(-> & _)]; apply list_elem_of_In; simpl; tauto. }
  destruct (solve_valid c p (definitions_registered c Hdef) (proj2 (validate_none c p) Hval))
    as (? & ? & ? & ? & ? & _ & _ & _ & _ & Hs).
  match type of Hs with _ = Complete ?r => generalize dependent r end.
  intros res Hs.
  destruct (first_column c p res Hdef Hs)
    as (model & f & td & c0 & Hm & Hf & Hy & Htd & _ & _ & HVc & HiL & _).
  exists res, c0. split; [exact Hs|]. rewrite Htd.
  rewrite default_points_eq in Hy.
  destruct Hc as [(-> & -> & ->)|(-> & -> & ->)].
  - rewrite spread_lookup by (apply (proj1 (bool_decide_eq_false _)); vm_compute; reflexivity).
    split; [apply HVc; tauto|].
    cbn [solver rc_discharge] in Hm. pick_model Hm.
    cbn [func initialState] in Hf, Hy. injection Hf as <-.
    assert (Hslope : rcOde (Fin 0) [getp p "V0"] p = [NaN])
      by (unfold rcOde; rewrite Hvin; reflexivity).
    split; [exact (proj1 (nan_after_first _ _ _ _ _ 999 0 _ Hslope Hy))|].
    intros i Hi. apply (proj2 (nan_after_first _ _ _ _ _ 999 i _ Hslope Hy)). lia.
  - rewrite spread_lookup by (apply (proj1 (bool_decide_eq_false _)); vm_compute; reflexivity).
    split; [apply HiL; tauto|].
    cbn [solver rl_deenergize] in Hm. pick_model Hm.
    cbn [func initialState] in Hf, Hy. injection Hf as <-.
    assert (Hslope : rlOde (Fin 0) [getp p "I0"] p = [NaN])
      by (unfold rlOde; rewrite Hvin; reflexivity).
    split; [exact (proj1 (nan_after_first _ _ _ _ _ 999 0 _ Hslope Hy))|].
    intros i Hi. apply (proj2 (nan_after_first _ _ _ _ _ 999 i _ Hslope Hy)). lia.
Qed.

Lemma discharge_without_source_witness :
  let p := mkParams (defaults rc_discharge) (Some "Step"%string) in
  ∃ res col,
    solve rc_discharge p = Complete res
    ∧ timeDomain res !! "Vc"%string = Some (Some col)
    ∧ aget col 0 = Some (Fin 10) ∧ aget col 1 = Some NaN.
Proof.
  intros p.
  destruct (discharge_without_source rc_discharge "Vc" "V0" p "Step")
    as (res & col & Hs & Hcol & H0 & Hall).
  - left. split; [reflexivity|]. split; reflexivity.
  - intros q Hq. cbn [params rc_discharge] in Hq.
    repeat (apply elem_of_cons in Hq as [->|Hq]); try (apply elem_of_nil in Hq; destruct Hq);
      intros [H|H]; vm_compute in H; discriminate.
  - left. reflexivity.
  - reflexivity.
  - set_solver.
  - exists res, col. split; [exact Hs|]. split; [exact Hcol|].
    split; [exact H0|apply Hall; lia].
Defined.

Section RcCharge.
Variables (p : Params) (v r c : R).
Hypotheses (Hstep : inputType p = Some "Step"%string)
           (HV : getp p "V" = Fin v) (HR : getp p "R" = Fin r) (HC : getp p "C" = Fin c)
           (Hrc : (r * c)%R ≠ 0%R).

(** The amplification factor of one RK4 step on [x' = (v - x)/(r c)]. *)
Local Abbreviation rho h :=
  (1 - h / (r * c) + (h / (r * c)) ^ 2 / 2 - (h / (r * c)) ^ 3 / 6
   + (h / (r * c)) ^ 4 / 24)%R.

Lemma rcOde_step (t x : R) :
  (0 <= t)%R → rcOde (Fin t) [Fin x] p = [Fin ((v - x) / (r * c))].
Proof.
  intros Ht. unfold rcOde.
  cbn [elt lookup list_lookup to_num default from_option Datatypes.id].
  rewrite (getVin_step p t (Fin v) Hstep HV Ht), HR, HC. fin_arith. reflexivity.
Qed.

Lemma rk4_update_rc (h t x : R) :
  (0 <= h)%R → (0 <= t)%R →
  rk4_update rcOde p (Fin h) (Fin t) [Fin x] = [Fin (v + (x - v) * rho h)].
Proof.
  intros Hh Ht. unfold rk4_update, axpy.
  rewrite (ndiv_fin h 2), (ndiv_fin h 6) by lra. rewrite !nadd_fin.
  rewrite (rcOde_step t x Ht).
  cbn [imap elt lookup list_lookup to_num default from_option Datatypes.id]. fin_arith.
  rewrite rcOde_step by lra.
  cbn [imap elt lookup list_lookup to_num default from_option Datatypes.id]. fin_arith.
  rewrite rcOde_step by lra.
  cbn [imap elt lookup list_lookup to_num default from_option Datatypes.id]. fin_arith.
  rewrite rcOde_step by lra.
  cbn [imap elt lookup list_lookup to_num default from_option Datatypes.id]. fin_arith.
  do 2 f_equal. field.
  split; intros ->; apply Hrc; ring.
Qed.

Lemma rk4_samples_rc (h : R) (n : nat) :
  (0 <= h)%R →
  ∀ (t x : R) (i : nat), (0 <= t)%R → (i < n)%nat →
    rk4_samples rcOde p (Fin h) n (Fin t) [Fin x] !! i ≫= (λ s, s.2 !! 0%nat)
    = Some (Fin (v + (x - v) * rho h ^ i)).
Proof.
  intros Hh. induction n as [|n IH]; intros t x i Ht Hi; [lia|].
  destruct i as [|i]; cbn [rk4_samples lookup list_lookup].
  - cbn. do 2 f_equal. lra.
  - rewrite nadd_fin, (rk4_update_rc h t x Hh Ht).
    rewrite IH by (try lra; lia). do 2 f_equal. simpl. ring.
Qed.

End RcCharge.

(** X23.  The simulated step response of the RC charging circuit in closed
    form.  With finite [V], [R], [C] ([R C] not zero) and an end time
    [T >= 0], every RK4 step multiplies the distance to [V] by the factor
    [rho = 1 - z + z^2/2 - z^3/6 + z^4/24], [z = T / (999 R C)]: the trace
    [Vc] is [V (1 - rho^i)] at every index.  For [0 < z <= 1] the factor lies
    strictly between 0 and 1, so the trace moves monotonically from 0
    towards [V]. *)
Theorem rc_charge_trace (p : Params) (v r c T : R) :
  inputType p = Some "Step"%string →
  values p !! "V"%string = Some (Fin v) →
  values p !! "R"%string = Some (Fin r) →
  values p !! "C"%string = Some (Fin c) →
  values p !! "tEnd"%string = Some (Fin T) →
  (r * c)%R ≠ 0%R → (0 <= T)%R →
  let z := (T / 999 / (r * c))%R in
  let rho := (1 - z + z ^ 2 / 2 - z ^ 3 / 6 + z ^ 4 / 24)%R in
  ∃ res col,
    solve rc_charge p = Complete res
    ∧ timeDomain res !! "Vc"%string = Some (Some col)
    ∧ (∀ i, (i < 1000)%nat → aget col i = Some (Fin (v * (1 - rho ^ i))))
    ∧ ((0 < z <= 1)%R → (0 < rho < 1)%R).
Proof.
  intros Hstep HV HR HC HT Hrc HT0 z rho.
  assert (Hdef : rc_charge ∈ circuitDefinitions) by (apply list_elem_of_In; simpl; tauto).
  assert (Hval : validate rc_charge p = None).
  { apply validate_none. intros q Hq. cbn [params rc_charge] in Hq.
    repeat (apply elem_of_cons in Hq as [->|Hq]); try (apply elem_of_nil in Hq; destruct Hq);
      intros [H|H]; congruence. }
  destruct (solve_valid rc_charge p (definitions_registered _ Hdef) Hval)
    as (? & ? & ? & ? & ? & _ & _ & _ & _ & Hs).
  match type of Hs with _ = Complete ?r => generalize dependent r end.
  intros res Hs.
  destruct (first_column rc_charge p res Hdef Hs)
    as (model & f & td & c0 & Hm & Hf & Hy & Htd & _ & _ & HVc & _ & _).
  exists res, c0. split; [exact Hs|]. rewrite Htd.
  rewrite spread_lookup by (apply (proj1 (bool_decide_eq_false _)); vm_compute; reflexivity).
  split; [apply HVc; tauto|].
  cbn [solver rc_charge] in Hm. pick_model Hm.
  cbn [func initialState] in Hf, Hy. injection Hf as <-.
  rewrite default_points_eq, (getp_fin _ _ _ HT) in Hy.
  assert (Hh : (Fin T - Fin 0) / (of_nat 1000 - Fin 1) = Fin (T / 999)).
  { rewrite (step_size_fin 0 T 1000) by lia.
    replace (INR 1000) with 1000%R by (rewrite INR_IZR_INZ; reflexivity).
    f_equal. lra. }
  assert (Hh0 : (0 <= T / 999)%R) by (apply Rmult_le_pos; lra).
  split.
  - intros i Hi. rewrite (column_lookup rcOde [Fin 0] p (Fin 0) (Fin T) 999 i c0 Hy), Hh.
    rewrite (rk4_samples_rc p v r c Hstep (getp_fin _ _ _ HV) (getp_fin _ _ _ HR)
               (getp_fin _ _ _ HC) Hrc (T / 999) 1000 Hh0 0 0 i) by (try lra; lia).
    do 2 f_equal. fold z. fold rho. ring.
  - intros [Hz0 Hz1]. subst rho. split; nra.
Qed.

Lemma rc_charge_trace_witness :
  let p := mkParams (defaults rc_charge) (Some "Step"%string) in
  ∃ res col,
    solve rc_charge p = Complete res
    ∧ timeDomain res !! "Vc"%string = Some (Some col)
    ∧ aget col 0 = Some (Fin (10 * (1 - 1))).
Proof.
  intros p.
  destruct (rc_charge_trace p 10 1000 0.000001 0.005 eq_refl eq_refl eq_refl eq_refl eq_refl)
    as (res & col & Hs & Hcol & Hall & _); [lra|lra|].
  exists res, col. split; [exact Hs|]. split; [exact Hcol|].
  rewrite (Hall 0%nat) by lia. reflexivity.
Defined.

(** ** The rise time *)

Lemma find_seq_some (P : nat → bool) (k : nat) :
  ∀ a i, List.find P (seq a k) = Some i →
    (a ≤ i < a + k)%nat ∧ P i = true ∧ ∀ j, (a ≤ j < i)%nat → P j = false.
Proof.
  induction k as [|k IH]; intros a i Hf; [discriminate|].
  cbn [seq List.find] in Hf. destruct (P a) eqn:Ha.
  - injection Hf as <-. split; [lia|]. split; [exact Ha|]. intros j Hj. lia.
  - destruct (IH _ _ Hf) as (Hr & Hi & Hbefore). split; [lia|]. split; [exact Hi|].
    intros j Hj. destruct (decide (j = a)) as [->|Hne]; [exact Ha|apply Hbefore; lia].
Qed.

Lemma find_seq_none (P : nat → bool) (k : nat) :
  ∀ a, List.find P (seq a k) = None → ∀ j, (a ≤ j < a + k)%nat → P j = false.
Proof.
  induction k as [|k IH]; intros a Hf j Hj; [lia|].
  cbn [seq List.find] in Hf. destruct (P a) eqn:Ha; [discriminate|].
  destruct (decide (j = a)) as [->|Hne]; [exact Ha|apply (IH _ Hf); lia].
Qed.

Lemma trace_of_lookup (x : nat → R) (n i : nat) :
  (i < n)%nat → aget (trace_of x n) i = Some (Fin (x i)).
Proof.
  intros Hi. unfold aget, trace_of. rewrite list_lookup_fmap, lookup_seq_lt by exact Hi.
  reflexivity.
Qed.

Lemma trace_of_length (x : nat → R) (n : nat) : length (trace_of x n) = n.
Proof. unfold trace_of. rewrite length_fmap. apply length_seq. Qed.

Section Crossing.
Variables (x t : nat → R) (n : nat) (g : R).
Hypothesis Hmono : ∀ i j, (i ≤ j < n)%nat → (x i <= x j)%R.
Hypothesis Hbelow : (x 0 < g)%R.
Hypothesis Hreach : ∃ k, (k < n)%nat ∧ (g <= x k)%R.

Local Abbreviation crosses i :=
  (((to_num (aget (trace_of x n) (i - 1)) <? Fin g)
    && (to_num (aget (trace_of x n) i) >=? Fin g))
   || ((to_num (aget (trace_of x n) (i - 1)) >? Fin g)
       && (to_num (aget (trace_of x n) i) <=? Fin g))).

Lemma crosses_up (i : nat) :
  (1 ≤ i < n)%nat → crosses i = bool_decide (x (i - 1) < g <= x i)%R.
Proof.
  intros Hi. rewrite !trace_of_lookup by lia.
  cbn [to_num default from_option Datatypes.id]. fin_arith.
  pose proof (Hmono (i - 1) i ltac:(lia)) as Hle.
  destruct (decide (x (i - 1) < g)%R) as [H1|H1], (decide (g <= x i)%R) as [H2|H2],
           (decide (g < x (i - 1))%R) as [H3|H3], (decide (x i <= g)%R) as [H4|H4];
    decide_by lra; try reflexivity; exfalso; lra.
Qed.

Lemma first_crossing :
  ∃ i, (1 ≤ i < n)%nat ∧ (g <= x i)%R ∧ (∀ j, (j < i)%nat → (x j < g)%R)
       ∧ findCrossing (trace_of t n) (trace_of x n) (Fin g) = Some (Some (Fin (t i))).
Proof.
  assert (Hstay : ∀ m, (m < n)%nat →
            (∀ j, (1 ≤ j < S m)%nat → crosses j = false) → ∀ j, (j < S m)%nat → (x j < g)%R).
  { intros m Hm Hno j. induction j as [|j IH]; intros Hj; [exact Hbelow|].
    specialize (IH ltac:(lia)). specialize (Hno (S j) ltac:(lia)).
    rewrite crosses_up in Hno by lia. apply bool_decide_eq_false_1 in Hno.
    replace (S j - 1)%nat with j in Hno by lia. lra. }
  unfold findCrossing. rewrite trace_of_length.
  destruct (List.find _ (seq 1 (n - 1))) as [i|] eqn:Hf.
  - destruct (find_seq_some _ _ _ _ Hf) as (Hr & Hi & Hbefore).
    assert (Hlt : ∀ j, (j < i)%nat → (x j < g)%R).
    { destruct i as [|i]; [lia|]. intros j Hj. apply (Hstay i); [lia| |lia].
      intros j' Hj'. apply Hbefore. lia. }
    exists i. split; [lia|]. split.
    + rewrite crosses_up in Hi by lia. apply bool_decide_eq_true_1 in Hi. lra.
    + split; [exact Hlt|]. cbn [fmap option_fmap option_map].
      rewrite trace_of_lookup by lia. reflexivity.
  - exfalso. destruct Hreach as (k & Hk & Hg).
    pose proof (find_seq_none _ _ _ Hf) as Hno.
    assert (x k < g)%R; [|lra].
    apply (Hstay k Hk); [|lia]. intros j Hj. apply Hno. lia.
Qed.

End Crossing.

Lemma calculateMetrics_rise (result : Traces) (primaryTrace : string)
    (time signal : list (option num)) (finalValue : num) (requested : list string)
    (t10 t90 : option num) :
  result !! "time"%string = Some (Some time) →
  result !! primaryTrace = Some (Some signal) →
  "riseTime"%string ∈ requested →
  findCrossing time signal (finalValue * Fin 0.1) = Some t10 →
  findCrossing time signal (finalValue * Fin 0.9) = Some t90 →
  riseTime (calculateMetrics result primaryTrace finalValue requested)
  = Some {| value := Some (to_num t90 - to_num t10); unit := "s" |}.
Proof.
  intros Htime Hsignal Hreq H10 H90.
  unfold calculateMetrics, field. rewrite Htime, Hsignal, H10, H90.
  rewrite (bool_decide_eq_true_2 _ Hreq).
  destruct (bool_decide ("peakValue"%string ∈ requested)
            || bool_decide ("overshoot"%string ∈ requested));
    destruct (bool_decide ("settlingTime"%string ∈ requested)); reflexivity.
Qed.

(** X24.  The rise time of a monotone response.  For a trace of finite trace_of
    that never decreases, starts below 10 % of a positive final value and
    reaches 90 % of it, the rise time is the time between the first sample
    at or above 10 % and the first sample at or above 90 %; the second is
    never earlier than the first, so with a time axis that does not decrease
    the rise time is not negative. *)
Theorem rise_time_monotone (result : Traces) (primaryTrace : string)
    (x t : nat → R) (n : nat) (F : R) (requested : list string) :
  result !! "time"%string = Some (Some (trace_of t n)) →
  result !! primaryTrace = Some (Some (trace_of x n)) →
  "riseTime"%string ∈ requested →
  (0 < F)%R →
  (∀ i j, (i ≤ j < n)%nat → (x i <= x j)%R) →
  (x 0%nat < F * 0.1)%R → (∃ k, (k < n)%nat ∧ (F * 0.9 <= x k)%R) →
  ∃ i10 i90,
    (1 ≤ i10 ≤ i90)%nat ∧ (i90 < n)%nat
    ∧ (F * 0.1 <= x i10)%R ∧ (∀ j, (j < i10)%nat → (x j < F * 0.1)%R)
    ∧ (F * 0.9 <= x i90)%R ∧ (∀ j, (j < i90)%nat → (x j < F * 0.9)%R)
    ∧ riseTime (calculateMetrics result primaryTrace (Fin F) requested)
      = Some {| value := Some (Fin (t i90 - t i10)); unit := "s" |}
    ∧ ((∀ i j, (i ≤ j < n)%nat → (t i <= t j)%R) → (0 <= t i90 - t i10)%R).
Proof.
  intros Ht Hx Hreq HF Hmono H0 (k & Hk & Hreach).
  destruct (first_crossing x t n (F * 0.1) Hmono H0) as (i10 & Hi10 & Hg10 & Hlt10 & Hc10).
  { exists k. split; [exact Hk|lra]. }
  destruct (first_crossing x t n (F * 0.9) Hmono) as (i90 & Hi90 & Hg90 & Hlt90 & Hc90).
  { lra. }
  { exists k. split; [exact Hk|exact Hreach]. }
  assert (Hord : (i10 ≤ i90)%nat).
  { destruct (decide (i10 ≤ i90)%nat) as [H|H]; [exact H|].
    pose proof (Hlt10 i90 ltac:(lia)). lra. }
  exists i10, i90. split; [lia|]. split; [lia|].
  split; [exact Hg10|]. split; [exact Hlt10|]. split; [exact Hg90|]. split; [exact Hlt90|].
  split.
  - rewrite (calculateMetrics_rise result primaryTrace _ _ (Fin F) requested
               (Some (Fin (t i10))) (Some (Fin (t i90))) Ht Hx Hreq).
    + cbn [to_num default from_option Datatypes.id]. fin_arith. reflexivity.
    + rewrite nmul_fin. exact Hc10.
    + rewrite nmul_fin. exact Hc90.
  - intros Htime. pose proof (Htime i10 i90 ltac:(lia)). lra.
Qed.

Lemma rise_time_monotone_witness :
  let x := λ i : nat, INR i in
  let t := λ i : nat, (INR i * 2)%R in
  let result : Traces :=
    list_to_map [("time"%string, Some (trace_of t 11)); ("Vc"%string, Some (trace_of x 11))] in
  ∃ i10 i90,
    riseTime (calculateMetrics result "Vc" (Fin 10) ["riseTime"%string])
    = Some {| value := Some (Fin (t i90 - t i10)); unit := "s" |}.
Proof.
  intros x t result.
  destruct (rise_time_monotone result "Vc" x t 11 10 ["riseTime"%string] eq_refl eq_refl)
    as (i10 & i90 & _ & _ & _ & _ & _ & _ & Hrise & _).
  - set_solver.
  - lra.
  - intros i j Hij. apply le_INR. lia.
  - simpl. lra.
  - exists 10%nat. split; [lia|]. simpl. lra.
  - exists i10, i90. exact Hrise.
Defined.
